(** * CyberRadioDriver components: the configuration synchronisation engine

    A shallow embedding of [CyberRadioDriver/components.py]: the value
    transforms [adjustFrequency] and [adjustAttenuation], the component base
    class [_base], and the [_queryConfiguration] / [_setConfiguration]
    methods of [_tuner], [_ddc], [_cwToneGen], [_tx] and [_duc].

    Modelling conventions.
    - The two value transforms are embedded twice.  Module [binary64] has
      them on IEEE 754 binary64 numbers, every operation rounded as the
      hardware rounds it; the statements about range, resolution and
      rounding are made of these.  The section before it has them on exact
      rationals ([Q]); the component methods use these, so that a statement
      about a method speaks of the value the helper returns and not of its
      last bit.  [numpy.around] is its documented algorithm (scale by a
      power of ten, [rint], scale back) and [rint] rounds half to even.
    - A [dict] is a [gmap]; an object is a record of its attributes; the
      class attributes that subclasses override are a record per class.
    - A method is a computation in a state-and-exception monad over the
      object and the trace of transport events.  The hardware behind the
      transport is an arbitrary function from the trace so far and the
      command sent to the outcome of that command. *)

From Stdlib Require Import ZArith QArith Qpower Qround Qabs Lia Lqa.
From Corelib Require Import SpecFloat.
From stdpp Require Import base decidable countable strings option gmap list.

Set Warnings "-register-all".

(** ** Configuration keys and values *)

(** Modelled from the spec: the constants of the [configKeys] module, which
    is not part of the sources at hand.  The spec describes a configuration
    key as an enumerated symbol; the keys below are those that
    [components.py] mentions for the classes embedded here. *)
Inductive Key : Set :=
  | INDEX | ENABLE | TUNER_FREQUENCY | TUNER_ATTENUATION
  | TUNER_RF_ATTENUATION | TUNER_AGP | TUNER_FILTER | TUNER_TIMING_ADJ
  | DDC_FREQUENCY_OFFSET | DDC_RATE_INDEX | DDC_UDP_DESTINATION | DDC_VITA_ENABLE
  | DDC_STREAM_ID | DDC_DATA_PORT | CW_INDEX | CW_FREQUENCY
  | CW_AMPLITUDE | CW_PHASE | CW_SWEEP_START | CW_SWEEP_STOP
  | CW_SWEEP_STEP | CW_SWEEP_DWELL | TX_INDEX | TX_FREQUENCY
  | TX_ATTENUATION | CONFIG_CW | DUC_INDEX | DUC_DATA_PORT
  | DUC_FREQUENCY | DUC_ATTENUATION | DUC_RATE_INDEX | DUC_TX_CHANNELS
  | DUC_MODE | DUC_STREAM_ID | DUC_FILENAME | DUC_START_SAMPLE
  | DUC_SAMPLES | DUC_SINGLE_PLAYBACK.

Definition key_code (k : Key) : nat :=
  match k with
  | INDEX => 0 | ENABLE => 1 | TUNER_FREQUENCY => 2
  | TUNER_ATTENUATION => 3 | TUNER_RF_ATTENUATION => 4 | TUNER_AGP => 5
  | TUNER_FILTER => 6 | TUNER_TIMING_ADJ => 7 | DDC_FREQUENCY_OFFSET => 8
  | DDC_RATE_INDEX => 9 | DDC_UDP_DESTINATION => 10 | DDC_VITA_ENABLE => 11
  | DDC_STREAM_ID => 12 | DDC_DATA_PORT => 13 | CW_INDEX => 14
  | CW_FREQUENCY => 15 | CW_AMPLITUDE => 16 | CW_PHASE => 17
  | CW_SWEEP_START => 18 | CW_SWEEP_STOP => 19 | CW_SWEEP_STEP => 20
  | CW_SWEEP_DWELL => 21 | TX_INDEX => 22 | TX_FREQUENCY => 23
  | TX_ATTENUATION => 24 | CONFIG_CW => 25 | DUC_INDEX => 26
  | DUC_DATA_PORT => 27 | DUC_FREQUENCY => 28 | DUC_ATTENUATION => 29
  | DUC_RATE_INDEX => 30 | DUC_TX_CHANNELS => 31 | DUC_MODE => 32
  | DUC_STREAM_ID => 33 | DUC_FILENAME => 34 | DUC_START_SAMPLE => 35
  | DUC_SAMPLES => 36 | DUC_SINGLE_PLAYBACK => 37
  end.

Definition key_decode (n : nat) : Key :=
  match n with
  | 0 => INDEX | 1 => ENABLE | 2 => TUNER_FREQUENCY
  | 3 => TUNER_ATTENUATION | 4 => TUNER_RF_ATTENUATION | 5 => TUNER_AGP
  | 6 => TUNER_FILTER | 7 => TUNER_TIMING_ADJ | 8 => DDC_FREQUENCY_OFFSET
  | 9 => DDC_RATE_INDEX | 10 => DDC_UDP_DESTINATION | 11 => DDC_VITA_ENABLE
  | 12 => DDC_STREAM_ID | 13 => DDC_DATA_PORT | 14 => CW_INDEX
  | 15 => CW_FREQUENCY | 16 => CW_AMPLITUDE | 17 => CW_PHASE
  | 18 => CW_SWEEP_START | 19 => CW_SWEEP_STOP | 20 => CW_SWEEP_STEP
  | 21 => CW_SWEEP_DWELL | 22 => TX_INDEX | 23 => TX_FREQUENCY
  | 24 => TX_ATTENUATION | 25 => CONFIG_CW | 26 => DUC_INDEX
  | 27 => DUC_DATA_PORT | 28 => DUC_FREQUENCY | 29 => DUC_ATTENUATION
  | 30 => DUC_RATE_INDEX | 31 => DUC_TX_CHANNELS | 32 => DUC_MODE
  | 33 => DUC_STREAM_ID | 34 => DUC_FILENAME | 35 => DUC_START_SAMPLE
  | 36 => DUC_SAMPLES | _ => DUC_SINGLE_PLAYBACK
  end.

#[global] Instance Key_eq_dec : EqDecision Key.
Proof. solve_decision. Defined.

#[global] Instance Key_countable : Countable Key.
Proof. by refine (inj_countable' key_code key_decode _); intros []. Defined.

(** Python values that travel in configuration dictionaries.  [VDict] is the
    nested dictionary stored under [CONFIG_CW]: tone generator index to
    tone generator configuration. *)
Inductive Value : Type :=
  | VNone
  | VBool (b : bool)
  | VInt (z : Z)
  | VFloat (q : Q)
  | VStr (s : string)
  | VList (l : list Z)
  | VDict (d : gmap Z (gmap Key Value)).

(** ** Exceptions and the two monads *)

Inductive exn : Type :=
  | KeyError (k : Key)
  | KeyErrorZ (i : Z)
  | IndexError
  | AttributeError
  | TypeError
  | ValueError
  | ZeroDivisionError
  | OverflowError
  | NonFinite.
(** [NonFinite] is not a Python exception: it marks a float result that is
    [inf] or [nan], which the rational model does not represent. *)

(** Pure code that may raise. *)
Inductive pyres (A : Type) : Type :=
  | Val (a : A)
  | Exc (e : exn).
Arguments Val {A} a.
Arguments Exc {A} e.

#[global] Instance pyres_ret : MRet pyres := @Val.
#[global] Instance pyres_bind : MBind pyres :=
  λ A B f m, match m with Val a => f a | Exc e => Exc e end.

(** Code that reads and writes a state [S] and may raise. *)
Inductive result (S A : Type) : Type :=
  | Ok (a : A) (s : S)
  | Raise (e : exn) (s : S).
Arguments Ok {S A} a s.
Arguments Raise {S A} e s.

Definition M (S A : Type) : Type := S → result S A.

#[global] Instance M_ret {S} : MRet (M S) := λ A a s, Ok a s.
#[global] Instance M_bind {S} : MBind (M S) :=
  λ A B f m s, match m s with Ok a s' => f a s' | Raise e s' => Raise e s' end.

Definition lift {S A} (r : pyres A) : M S A :=
  λ s, match r with Val a => Ok a s | Exc e => Raise e s end.
Definition gets {S A} (f : S → A) : M S A := λ s, Ok (f s) s.
Definition modify {S} (f : S → S) : M S unit := λ s, Ok tt (f s).

(** ** Floats as rationals: [numpy.around] and [numpy.log10] *)

Section Numeric.
Local Open Scope Q_scope.

Definition Qltb (x y : Q) : bool := negb (Qle_bool y x).

(** [numpy.rint]: the nearest integer, a tie goes to the even neighbour. *)
Definition rint (x : Q) : Z :=
  let f := Qfloor x in
  match Qcompare (x - inject_Z f) (1 # 2) with
  | Lt => f
  | Gt => (f + 1)%Z
  | Eq => if Z.even f then f else (f + 1)%Z
  end.

(** [numpy.around(x, decimals)]: for [decimals >= 0] multiply by
    [10**decimals], [rint], divide; for a negative [decimals] divide by
    [10**(-decimals)], [rint], multiply. *)
Definition around (x : Q) (decimals : Z) : Q :=
  if (0 <=? decimals)%Z
  then inject_Z (rint (x * inject_Z (10 ^ decimals))) / inject_Z (10 ^ decimals)
  else inject_Z (rint (x / inject_Z (10 ^ (- decimals)))) * inject_Z (10 ^ (- decimals)).

(** The largest [k] with [10^k <= n], for [1 <= n]. *)
Fixpoint ilog10_fuel (fuel : nat) (n : Z) : Z :=
  match fuel with
  | O => 0
  | S fuel' => if (n <? 10)%Z then 0 else (1 + ilog10_fuel fuel' (n / 10))%Z
  end.

Definition ilog10 (n : Z) : Z := ilog10_fuel (S (Z.to_nat (Z.log2 n))) n.

(** [int(numpy.log10(q))] for [0 < q]: the logarithm truncated towards
    zero. *)
Definition trunc_log10 (q : Q) : Z :=
  if Qle_bool 1 q then ilog10 (Qfloor q) else (- ilog10 (Qfloor (/ q)))%Z.

(** [int(numpy.log10(1.0/res))].  [1.0/0] raises; the logarithm of a
    negative number is [nan], which [int] refuses. *)
Definition decimals_of (res : Q) : pyres Z :=
  if Qeq_bool res 0 then Exc ZeroDivisionError
  else if Qltb res 0 then Exc ValueError
  else Val (trunc_log10 (1 / res)).

(** [x / units] on a [numpy.float64]; a zero divisor gives [inf] or [nan]. *)
Definition np_div (x units : Q) : pyres Q :=
  if Qeq_bool units 0 then Exc NonFinite else Val (x / units).

Definition adjustFrequency (frqIn : Q) (frange : Q * Q) (res units : Q) : pyres Q :=
  let frqOut := if Qltb frqIn frange.1 then frange.1 else frqIn in
  let frqOut := if Qltb frange.2 frqIn then frange.2 else frqOut in
  decimals ← decimals_of res;
  let frqOut := around frqOut decimals in
  np_div frqOut units.

(** Python's [max(a, b)] and [min(a, b)] return the first argument unless
    the second is strictly better. *)
Definition py_max (a b : Q) : Q := if Qltb a b then b else a.
Definition py_min (a b : Q) : Q := if Qltb b a then b else a.

Definition adjustAttenuation (attIn : Q) (attRange : Q * Q) (attRes attUnits : Q) : pyres Q :=
  let attOut := py_max attIn attRange.1 in
  let attOut := py_min attOut attRange.2 in
  decimals ← decimals_of attRes;
  let attOut := around attOut decimals in
  np_div attOut attUnits.

End Numeric.

(** ** Floats as binary64: [numpy.around] and [numpy.log10] on doubles *)

(** The two helpers compute on IEEE 754 binary64 numbers.  A float is a
    [spec_float] of the core library: a signed zero, a signed infinity,
    NaN, or a finite number [(-1)^s * m * 2^e].  Every arithmetic operation
    is the exact rational result rounded to the nearest binary64 number, a
    tie going to the even mantissa, as IEEE 754 defines it. *)

Module binary64.

Definition float : Type := spec_float.

Definition prec : Z := 53.
Definition emax : Z := 1024.
Definition emin : Z := -1074.

Definition pow2 (e : Z) : Q := Qpower 2 e.

(** The largest [k] with [2^k <= q], for [0 < q]. *)
Definition ilog2 (q : Q) : Z :=
  let k := (Z.log2 (Qnum q) - Z.log2 (Zpos (Qden q)))%Z in
  if Qle_bool (pow2 k) q then k else (k - 1)%Z.

(** The exponent of the binary64 numbers of the binade of [q]: 53 bits of
    mantissa, and no exponent below [emin] (the subnormal numbers). *)
Definition fexp (q : Q) : Z := Z.max (ilog2 q - (prec - 1)) emin.

(** The mantissa and the exponent of the binary64 number nearest to
    [0 < q], a tie going to the even mantissa. *)
Definition round_pos (q : Q) : Z * Z :=
  let e := fexp q in (rint (q / pow2 e), e).

(** The float of sign [s] nearest to the magnitude [0 <= q]: a zero when
    [q] is zero or rounds to zero, an infinity when the nearest number has
    an exponent above the largest one. *)
Definition fround (s : bool) (q : Q) : float :=
  if Qle_bool q 0 then S754_zero s
  else
    let '(m, e) := round_pos q in
    if (m =? 0)%Z then S754_zero s
    else
      let '(m, e) := if (m =? 2 ^ prec)%Z then (2 ^ (prec - 1), e + 1)%Z else (m, e) in
      if (emax - prec <? e)%Z then S754_infinity s
      else S754_finite s (Z.to_pos m) e.

(** The float nearest to a rational: a decimal literal such as [0.1]. *)
Definition B64 (q : Q) : float :=
  if Qle_bool 0 q then fround false q else fround true (- q).

(** The sign bit, the magnitude and the value of a float (0 for an
    infinity and for NaN). *)
Definition sign (x : float) : bool :=
  match x with
  | S754_zero s | S754_infinity s | S754_finite s _ _ => s
  | S754_nan => false
  end.

Definition magnitude (x : float) : Q :=
  match x with
  | S754_finite _ m e => inject_Z (Zpos m) * pow2 e
  | _ => 0
  end.

Definition B2Q (x : float) : Q := if sign x then - magnitude x else magnitude x.

Definition is_finite (x : float) : bool :=
  match x with S754_zero _ | S754_finite _ _ _ => true | _ => false end.

Definition is_zero (x : float) : bool :=
  match x with S754_zero _ => true | _ => false end.

(** A finite binary64 number: the mantissa has at most 53 bits and the
    exponent lies between those of the subnormal and of the largest
    numbers. *)
Definition is_binary64 (x : float) : bool :=
  match x with
  | S754_finite _ m e => (Zpos m <? 2 ^ prec)%Z && (emin <=? e)%Z && (e <=? emax - prec)%Z
  | S754_zero _ => true
  | _ => false
  end.

(** Comparison: NaN compares with nothing, the two zeros are equal. *)
Definition compare (x y : float) : option comparison :=
  match x, y with
  | S754_nan, _ | _, S754_nan => None
  | S754_infinity sx, S754_infinity sy =>
      Some (if sx then (if sy then Eq else Lt) else (if sy then Gt else Eq))
  | S754_infinity sx, _ => Some (if sx then Lt else Gt)
  | _, S754_infinity sy => Some (if sy then Gt else Lt)
  | _, _ => Some (Qcompare (B2Q x) (B2Q y))
  end.

(** [x < y], [x <= y] and [x == y] *)
Definition ltb (x y : float) : bool :=
  match compare x y with Some Lt => true | _ => false end.
Definition leb (x y : float) : bool :=
  match compare x y with Some Lt | Some Eq => true | _ => false end.
Definition eqb (x y : float) : bool :=
  match compare x y with Some Eq => true | _ => false end.

(** [numpy.multiply] and [numpy.true_divide] on two doubles: neither
    raises; a division by zero gives an infinity or NaN. *)
Definition np_multiply (x y : float) : float :=
  match x, y with
  | S754_nan, _ | _, S754_nan => S754_nan
  | S754_infinity _, S754_zero _ | S754_zero _, S754_infinity _ => S754_nan
  | S754_infinity _, _ | _, S754_infinity _ => S754_infinity (xorb (sign x) (sign y))
  | _, _ => fround (xorb (sign x) (sign y)) (magnitude x * magnitude y)
  end.

Definition np_true_divide (x y : float) : float :=
  match x, y with
  | S754_nan, _ | _, S754_nan => S754_nan
  | S754_infinity _, S754_infinity _ | S754_zero _, S754_zero _ => S754_nan
  | S754_infinity _, _ | _, S754_zero _ => S754_infinity (xorb (sign x) (sign y))
  | _, S754_infinity _ => S754_zero (xorb (sign x) (sign y))
  | _, _ => fround (xorb (sign x) (sign y)) (magnitude x / magnitude y)
  end.

(** [numpy.rint]: the nearest integral double, a tie going to the even
    integer; the sign is kept, also on a zero result. *)
Definition np_rint (x : float) : float :=
  match x with
  | S754_finite s m e =>
      let n := rint (magnitude x) in
      if (n =? 0)%Z then S754_zero s else fround s (inject_Z n)
  | _ => x
  end.

(** [float(n)] on an integer: the nearest double, [OverflowError] when
    that is beyond the largest one. *)
Definition float_of_int (n : Z) : pyres float :=
  let x := B64 (inject_Z n) in
  if is_finite x then Val x else Exc OverflowError.

(** [int(x)]: the integer part; NaN and the infinities are refused. *)
Definition py_int (x : float) : pyres Z :=
  match x with
  | S754_nan => Exc ValueError
  | S754_infinity _ => Exc OverflowError
  | S754_zero _ => Val 0%Z
  | S754_finite s _ _ =>
      let n := Qfloor (magnitude x) in Val (if s then (- n)%Z else n)
  end.

(** [x / y] on two Python floats: a zero divisor raises. *)
Definition py_truediv (x y : float) : pyres float :=
  if is_zero y then Exc ZeroDivisionError else Val (np_true_divide x y).

(** [power_of_ten(n)] of numpy's [PyArray_Round], for [0 <= n]: a table up
    to [1e8], then [1e9] multiplied by ten as often as needed.  Up to
    [10^22] every product is exact. *)
Definition power_of_ten (n : Z) : float :=
  if (n <? 9)%Z then B64 (inject_Z (10 ^ n))
  else Z.iter (n - 9) (λ ret, np_multiply ret (B64 10)) (B64 1e9).

(** [numpy.around(x, decimals)] on a double: [rint] for no decimals;
    multiply by the power of ten, [rint], divide for a positive number of
    decimals; divide, [rint], multiply for a negative one. *)
Definition np_around (x : float) (decimals : Z) : float :=
  if (decimals =? 0)%Z then np_rint x
  else if (0 <? decimals)%Z then
    let f := power_of_ten decimals in
    np_true_divide (np_rint (np_multiply x f)) f
  else
    let f := power_of_ten (- decimals) in
    np_multiply (np_rint (np_true_divide x f)) f.

(** The two scalings of [numpy.around]: by the power of ten before
    [rint], and back after it. *)
Definition scaled (x : float) (decimals : Z) : float :=
  if (decimals =? 0)%Z then x
  else if (0 <? decimals)%Z then np_multiply x (power_of_ten decimals)
  else np_true_divide x (power_of_ten (- decimals)).

Definition unscaled (x : float) (decimals : Z) : float :=
  if (decimals =? 0)%Z then x
  else if (0 <? decimals)%Z then np_true_divide x (power_of_ten decimals)
  else np_multiply x (power_of_ten (- decimals)).

(** Python's [max(a, b)] and [min(a, b)] return the first argument unless
    the second is strictly better. *)
Definition py_max (a b : float) : float := if ltb a b then b else a.
Definition py_min (a b : float) : float := if ltb b a then b else a.

(** The clamped value: the first two statements of [adjustFrequency] and
    of [adjustAttenuation]. *)
Definition clampF (v lo hi : float) : float :=
  let out := if ltb v lo then lo else v in
  if ltb hi v then hi else out.

Definition clampA (v lo hi : float) : float := py_min (py_max v lo) hi.

Section Helpers.

(** The logarithm of the C library on a positive finite double.  IEEE 754
    does not fix its last bit, so it is a parameter of the model. *)
Variable libm_log10 : float → float.

(** [numpy.log10]: NaN for a negative argument and for NaN, minus infinity
    for a zero, plus infinity for plus infinity. *)
Definition np_log10 (x : float) : float :=
  match x with
  | S754_nan => S754_nan
  | S754_zero _ => S754_infinity true
  | S754_infinity s | S754_finite s _ _ => if s then S754_nan else
      match x with S754_infinity _ => x | _ => libm_log10 x end
  end.

(** [int(numpy.log10(1.0/res))] *)
Definition decimals_of (res : float) : pyres Z :=
  x ← py_truediv (B64 1) res;
  py_int (np_log10 x).

Definition adjustFrequency (frqIn : float) (frange : float * float) (res units : float)
    : pyres float :=
  let frqOut := if ltb frqIn frange.1 then frange.1 else frqIn in
  let frqOut := if ltb frange.2 frqIn then frange.2 else frqOut in
  decimals ← decimals_of res;
  let frqOut := np_around frqOut decimals in
  let frqOut := np_true_divide frqOut units in
  Val frqOut.

Definition adjustAttenuation (attIn : float) (attRange : float * float)
    (attRes attUnits : float) : pyres float :=
  let attOut := py_max attIn attRange.1 in
  let attOut := py_min attOut attRange.2 in
  decimals ← decimals_of attRes;
  let attOut := np_around attOut decimals in
  let attOut := np_true_divide attOut attUnits in
  Val attOut.

End Helpers.

End binary64.

(** ** Commands, outcomes and the transport trace *)

Definition Transport : Type := string.
Definition Callback : Type := string.
Definition CmdClass : Type := string.

(** A command object as constructed by [self.xxxCmd( **kwargs )]: the class
    attribute it was reached through, the command class, the ["query"]
    flag, the keyword arguments that carry configuration keys, and the
    callback handed to [send]. *)
Record Invocation : Type := mkInv {
  inv_attr : string;
  inv_cmd : CmdClass;
  inv_query : bool;
  inv_args : gmap Key Value;
  inv_callback : option Callback }.

(** What the engine reads from a command object after [send]: the value
    [send] returned, the [success] attribute, [getResponseInfo()], and
    [getattr(cmd, key)]. *)
Record Outcome : Type := mkOut {
  send_ret : bool;
  success : bool;
  rspInfo : option (gmap Key Value);
  attr : Key → Value }.

Definition cmd_ok (o : Outcome) : bool := send_ret o && success o.

(** The component that acts, as [_name] and [index]. *)
Definition Who : Type := (string * Z)%type.

(** Transport events.  [EvCall] is one round trip; [EvAttach] and
    [EvDetach] mark the assignments of [addTransport] and [delTransport]
    (ghost events: they record the order of assignments and round trips). *)
Inductive Event : Type :=
  | EvAttach (who : Who) (t : Transport) (cb : Callback)
  | EvDetach (who : Who)
  | EvCall (who : Who) (inv : Invocation) (o : Outcome).

(** An entry of [cmdErrorInfo]: the command and, once it has been sent,
    its outcome. *)
Definition Diag : Type := (Invocation * option Outcome)%type.

Definition failed (d : Diag) : bool :=
  match d.2 with Some o => negb (cmd_ok o) | None => false end.

Definition failures (l : list Diag) : list Diag := filter (λ d, failed d = true) l.

(** The environment of a run: the hardware behind the transport, Python's
    [float] on strings, and the base-class hook
    [configKeys.Configurable._queryConfiguration], whose body is not part of
    the sources at hand and is taken as any function on the mirrored map. *)
Record Env : Type := mkEnv {
  hw : list Event → Invocation → Outcome;
  float_of_string : string → option Q;
  Configurable_queryConfiguration : gmap Key Value → gmap Key Value }.

(** ** Objects *)

(** The attributes of a [_base] object ([configuration] and [cmdErrorInfo]
    come from [configKeys.Configurable]); [parent] is the back reference,
    kept as the parent's name and index. *)
Record Comp : Type := mkComp {
  _name : string;
  index : Z;
  parent : option Who;
  transport : option Transport;
  callback : option Callback;
  configuration : gmap Key Value;
  cmdErrorInfo : list Diag }.

Definition set_transport (t : option Transport) (c : Comp) : Comp :=
  mkComp (_name c) (index c) (parent c) t (callback c) (configuration c) (cmdErrorInfo c).
Definition set_callback (cb : option Callback) (c : Comp) : Comp :=
  mkComp (_name c) (index c) (parent c) (transport c) cb (configuration c) (cmdErrorInfo c).
Definition set_configuration (f : gmap Key Value → gmap Key Value) (c : Comp) : Comp :=
  mkComp (_name c) (index c) (parent c) (transport c) (callback c)
    (f (configuration c)) (cmdErrorInfo c).
Definition set_cmdErrorInfo (f : list Diag → list Diag) (c : Comp) : Comp :=
  mkComp (_name c) (index c) (parent c) (transport c) (callback c)
    (configuration c) (f (cmdErrorInfo c)).

Definition who (c : Comp) : Who := (_name c, index c).

(** The state a method runs in: the object and the trace. *)
Record St (S : Type) : Type := mkSt { obj : S; trace : list Event }.
Arguments mkSt {S} obj trace.
Arguments obj {S} s.
Arguments trace {S} s.

(** Every component class derives from [_base]: an object of class [S]
    gives access to its [_base] attributes. *)
Class BaseObject (S : Type) : Type := {
  base : S → Comp;
  with_base : (Comp → Comp) → S → S }.

#[global] Instance Comp_BaseObject : BaseObject Comp := {
  base := λ c, c;
  with_base := λ f c, f c }.

Section Primitives.
Context {S : Type} `{BaseObject S}.

Definition self : M (St S) Comp := gets (λ s, base (obj s)).

Definition update (f : Comp → Comp) : M (St S) unit :=
  modify (λ s, mkSt (with_base f (obj s)) (trace s)).

Definition emit (ev : Event) : M (St S) unit :=
  modify (λ s, mkSt (obj s) (trace s ++ [ev])).

(** [self.configuration[k] = v] *)
Definition assign (k : Key) (v : Value) : M (St S) unit :=
  update (set_configuration (λ m, <[k := v]> m)).

Fixpoint assign_all (kvs : list (Key * Value)) : M (St S) unit :=
  match kvs with
  | [] => mret tt
  | (k, v) :: kvs' => assign k v ;; assign_all kvs'
  end.

(** [cmd = self.xxxCmd( **kwargs )]: the command object before it is sent. *)
Definition construct (attr_name : string) (c : CmdClass) (query : bool)
    (args : gmap Key Value) : M (St S) Invocation :=
  me ← self; mret (mkInv attr_name c query args (callback me)).

(** [cmd.send(self.callback)]: one round trip. *)
Definition send (E : Env) (inv : Invocation) : M (St S) Outcome :=
  me ← self;
  tr ← gets trace;
  let o := hw E tr inv in
  emit (EvCall (who me) inv o) ;;
  mret o.

End Primitives.

(** ** [configKeys.Configurable] *)

Module Configurable.
Section Methods.
Context {S : Type} `{BaseObject S}.

(** Modelled from the spec: [_addLastCommandErrorInfo], absent from the
    sources at hand.  The spec has every invocation's outcome, success or
    failure, appended to the component's diagnostic list. *)
Definition _addLastCommandErrorInfo (cmd : Diag) : M (St S) unit :=
  update (set_cmdErrorInfo (λ l, l ++ [cmd])).

Definition getLastCommandErrorInfo : M (St S) (list Diag) :=
  me ← self; mret (cmdErrorInfo me).

(** Modelled from the spec: [_dictUpdate(a, b, c, keys)], absent from the
    sources at hand.  The spec has a wiring take each covered key from the
    request and, where the request leaves it out, from the current mirrored
    value. *)
Definition _dictUpdate (a b c : gmap Key Value) (keys : list Key) : gmap Key Value :=
  foldl (λ a k, match b !! k with
                | Some v => <[k := v]> a
                | None => match c !! k with Some v => <[k := v]> a | None => a end
                end) a keys.

(** Modelled from the spec: the public [queryConfiguration()], absent from
    the sources at hand.  It starts a fresh diagnostic list, runs the
    class's [_queryConfiguration] and returns the mirrored map. *)
Definition queryConfiguration (_queryConfiguration : M (St S) unit)
    : M (St S) (gmap Key Value) :=
  update (set_cmdErrorInfo (λ _, [])) ;;
  _queryConfiguration ;;
  me ← self; mret (configuration me).

(** Modelled from the spec: the public [setConfiguration( **kwargs )], absent
    from the sources at hand.  It starts a fresh diagnostic list, drops the
    keys outside [validConfigurationKeywords] and runs the class's
    [_setConfiguration]. *)
Definition setConfiguration (validConfigurationKeywords : list Key)
    (_setConfiguration : gmap Key Value → M (St S) bool)
    (kwargs : gmap Key Value) : M (St S) bool :=
  update (set_cmdErrorInfo (λ _, [])) ;;
  _setConfiguration (filter (λ kv, kv.1 ∈ validConfigurationKeywords) kwargs).

(** The hook every [_queryConfiguration] calls first. *)
Definition _queryConfiguration (E : Env) : M (St S) unit :=
  update (set_configuration (Configurable_queryConfiguration E)).

End Methods.
End Configurable.

(** ** The recurring statements of the method bodies *)

(** One wiring of a [_setConfiguration] body: the command to construct and
    the assignments to the mirrored map made when the guard [if ret:]
    passes. *)
Record Wiring : Type := mkWiring {
  w_attr : string;
  w_cmd : CmdClass;
  w_args : gmap Key Value;
  w_mirror : Outcome → list (Key * Value) }.

(** A block computes its wiring from [self]; it may raise before any
    command is constructed. *)
Definition Block : Type := Comp → pyres Wiring.

Definition has_key (d : gmap Key Value) (k : Key) : bool :=
  match d !! k with Some _ => true | None => false end.

(** [d[k]] *)
Definition getitem (d : gmap Key Value) (k : Key) : pyres Value :=
  match d !! k with Some v => Val v | None => Exc (KeyError k) end.

(** [d.get(k, dflt)] *)
Definition get (d : gmap Key Value) (k : Key) (dflt : Value) : Value :=
  default dflt (d !! k).

Section Idioms.
Context {S : Type} `{BaseObject S}.
Variable E : Env.

(** [[
      cmd = self.xxxCmd( **kwargs )
      ret &= cmd.send( self.callback, )
      ret &= cmd.success
      self._addLastCommandErrorInfo(cmd)
      if ret:
          self.configuration[k] = v ...
    ]] *)
Definition set_wiring (w : Wiring) (ret : bool) : M (St S) bool :=
  cmd ← construct (w_attr w) (w_cmd w) false (w_args w);
  o ← send E cmd;
  let ret := ret && send_ret o in
  let ret := ret && success o in
  Configurable._addLastCommandErrorInfo (cmd, Some o) ;;
  (if ret then assign_all (w_mirror w o) else mret tt) ;;
  mret ret.

Definition run_block (b : Block) (ret : bool) : M (St S) bool :=
  me ← self; w ← lift (b me); set_wiring w ret.

(** [[
      if <key test on confDict>:
          if self.xxxCmd is not None:
              <block>
    ]] *)
Definition guarded (present : bool) (xxxCmd : option CmdClass)
    (block : CmdClass → Block) (ret : bool) : M (St S) bool :=
  if present then
    match xxxCmd with
    | Some c => run_block (block c) ret
    | None => mret ret
    end
  else mret ret.

(** [[
      if self.xxxCmd is not None:
          cmd = self.xxxCmd( **{ ..., query: True, ... } )
          cmd.send( self.callback, )
          self._addLastCommandErrorInfo(cmd)
          rspInfo = cmd.getResponseInfo()
          if rspInfo is not None:
              self.configuration[k] = ... rspInfo.get(...) ...
    ]] *)
Definition query_wiring (attr_name : string) (xxxCmd : option CmdClass)
    (args : Comp → pyres (gmap Key Value))
    (store : gmap Key Value → pyres (list (Key * Value)))
    : M (St S) unit :=
  match xxxCmd with
  | Some c =>
      me ← self;
      kwargs ← lift (args me);
      cmd ← construct attr_name c true kwargs;
      o ← send E cmd;
      Configurable._addLastCommandErrorInfo (cmd, Some o) ;;
      match rspInfo o with
      | Some rsp => kvs ← lift (store rsp); assign_all kvs
      | None => mret tt
      end
  | None => mret tt
  end.

(** [float(v)].  An integer becomes the nearest double, and one beyond the
    largest double raises [OverflowError]. *)
Definition py_float (v : Value) : pyres Q :=
  match v with
  | VNone => Exc TypeError
  | VBool b => Val (if b then 1%Q else 0%Q)
  | VInt z => x ← binary64.float_of_int z; Val (Qred (binary64.B2Q x))
  | VFloat q => Val q
  | VStr s => match float_of_string E s with Some q => Val q | None => Exc ValueError end
  | VList _ => Exc TypeError
  | VDict _ => Exc TypeError
  end.

End Idioms.

(** [None if freq is None else freq * units], with [units] a float. *)
Definition scale_or_None (freq : Value) (units : Q) : pyres Value :=
  match freq with
  | VNone => Val VNone
  | VBool b => Val (VFloat ((if b then 1 else 0) * units))
  | VInt z => Val (VFloat (inject_Z z * units))
  | VFloat q => Val (VFloat (q * units))
  | VStr _ | VList _ | VDict _ => Exc TypeError
  end.

(** [self.parent.index] *)
Definition parent_index (me : Comp) : pyres Z :=
  match parent me with Some p => Val p.2 | None => Exc AttributeError end.

(** ** [_base] *)

Module _base.
Section Methods.
Context {S : Type} `{BaseObject S}.

(** [queryConfiguration] is the method of the object's own class. *)
Definition addTransport (queryConfiguration : M (St S) (gmap Key Value))
    (transport : Transport) (callback : Callback) (queryConfig : bool)
    : M (St S) unit :=
  update (set_transport (Some transport)) ;;
  update (set_callback (Some callback)) ;;
  (me ← self; emit (EvAttach (who me) transport callback)) ;;
  if queryConfig then queryConfiguration ;; mret tt else mret tt.

Definition delTransport : M (St S) unit :=
  update (set_transport None) ;;
  update (set_callback None) ;;
  (me ← self; emit (EvDetach (who me))).

End Methods.
End _base.

(** ** [_tuner] *)

Module _tuner.

Record Class : Type := mkClass {
  frqRange : Q * Q;
  frqRes : Q;
  frqUnits : Q;
  attRange : Q * Q;
  attRes : Q;
  frqCmd : option CmdClass;
  attCmd : option CmdClass;
  agpCmd : option CmdClass;
  tpwrCmd : option CmdClass;
  fifCmd : option CmdClass;
  tadjCmd : option CmdClass }.

(** The class attributes of [_tuner] itself. *)
Definition defaults : Class := {|
  frqRange := (20e6, 3e9)%Q;
  frqRes := 1e6%Q;
  frqUnits := 1e6%Q;
  attRange := (0, 30)%Q;
  attRes := 1%Q;
  frqCmd := Some "frq";
  attCmd := Some "att";
  agpCmd := None;
  tpwrCmd := Some "tpwr";
  fifCmd := None;
  tadjCmd := None |}.

Section Methods.
Variable E : Env.
Variable cls : Class.

Definition query_args (me : Comp) : pyres (gmap Key Value) :=
  Val {[ INDEX := VInt (index me) ]}.

Definition _queryConfiguration : M (St Comp) unit :=
  Configurable._queryConfiguration E ;;
  query_wiring E "tpwrCmd" (tpwrCmd cls) query_args
    (λ rspInfo, Val [(ENABLE, get rspInfo ENABLE (VInt 0))]) ;;
  query_wiring E "frqCmd" (frqCmd cls) query_args
    (λ rspInfo,
       let freq := get rspInfo TUNER_FREQUENCY VNone in
       v ← scale_or_None freq (frqUnits cls);
       Val [(TUNER_FREQUENCY, v)]) ;;
  query_wiring E "attCmd" (attCmd cls) query_args
    (λ rspInfo, Val [(TUNER_ATTENUATION, get rspInfo TUNER_ATTENUATION VNone);
                     (TUNER_RF_ATTENUATION, get rspInfo TUNER_ATTENUATION VNone)]) ;;
  query_wiring E "agpCmd" (agpCmd cls) query_args
    (λ rspInfo, Val [(TUNER_AGP, get rspInfo TUNER_AGP VNone)]) ;;
  query_wiring E "fifCmd" (fifCmd cls) query_args
    (λ rspInfo, Val [(TUNER_FILTER, get rspInfo TUNER_FILTER VNone)]) ;;
  query_wiring E "tadjCmd" (tadjCmd cls) query_args
    (λ rspInfo, Val [(TUNER_TIMING_ADJ, get rspInfo TUNER_TIMING_ADJ VNone)]) ;;
  mret tt.

(** The blocks of [_setConfiguration], in the order of the source. *)
Variable confDict : gmap Key Value.

Definition tpwr_block (c : CmdClass) : Block := λ me,
  Val (mkWiring "tpwrCmd" c
         {[ INDEX := VInt (index me); ENABLE := get confDict ENABLE (VInt 0) ]}
         (λ cmd, [(ENABLE, attr cmd ENABLE)])).

Definition frq_block (c : CmdClass) : Block := λ me,
  freqIn ← py_float E (get confDict TUNER_FREQUENCY (VInt 0));
  freqAdj ← adjustFrequency freqIn (frqRange cls) (frqRes cls) (frqUnits cls);
  Val (mkWiring "frqCmd" c
         {[ INDEX := VInt (index me); TUNER_FREQUENCY := VFloat freqAdj ]}
         (λ _, [(TUNER_FREQUENCY, VFloat (freqAdj * frqUnits cls))])).

Definition att_block (c : CmdClass) : Block := λ me,
  rfAttIn ← py_float E (get confDict TUNER_RF_ATTENUATION
                           (get confDict TUNER_ATTENUATION (VInt 0)));
  rfAttAdj ← adjustAttenuation rfAttIn (attRange cls) (attRes cls) 1;
  Val (mkWiring "attCmd" c
         {[ INDEX := VInt (index me); TUNER_ATTENUATION := VFloat rfAttAdj ]}
         (λ _, [(TUNER_ATTENUATION, VFloat rfAttAdj);
                (TUNER_RF_ATTENUATION, VFloat rfAttAdj)])).

Definition agp_block (c : CmdClass) : Block := λ me,
  Val (mkWiring "agpCmd" c
         {[ INDEX := VInt (index me); TUNER_AGP := get confDict TUNER_AGP (VInt 0) ]}
         (λ cmd, [(TUNER_AGP, attr cmd TUNER_AGP)])).

Definition fif_block (c : CmdClass) : Block := λ me,
  Val (mkWiring "fifCmd" c
         {[ INDEX := VInt (index me); TUNER_FILTER := get confDict TUNER_FILTER (VInt 0) ]}
         (λ cmd, [(TUNER_FILTER, attr cmd TUNER_FILTER)])).

Definition tadj_block (c : CmdClass) : Block := λ me,
  Val (mkWiring "tadjCmd" c
         {[ INDEX := VInt (index me);
            TUNER_TIMING_ADJ := get confDict TUNER_TIMING_ADJ (VInt 0) ]}
         (λ cmd, [(TUNER_TIMING_ADJ, attr cmd TUNER_TIMING_ADJ)])).

Definition _setConfiguration : M (St Comp) bool :=
  let ret := true in
  ret ← guarded E (has_key confDict ENABLE) (tpwrCmd cls) tpwr_block ret;
  ret ← guarded E (has_key confDict TUNER_FREQUENCY) (frqCmd cls) frq_block ret;
  ret ← guarded E (has_key confDict TUNER_ATTENUATION || has_key confDict TUNER_RF_ATTENUATION)
          (attCmd cls) att_block ret;
  ret ← guarded E (has_key confDict TUNER_AGP) (agpCmd cls) agp_block ret;
  ret ← guarded E (has_key confDict TUNER_FILTER) (fifCmd cls) fif_block ret;
  ret ← guarded E (has_key confDict TUNER_TIMING_ADJ) (tadjCmd cls) tadj_block ret;
  mret ret.

End Methods.
End _tuner.

(** ** [_ddc] *)

Module _ddc.

Record Class : Type := mkClass {
  frqRange : Q * Q;
  frqRes : Q;
  frqUnits : Q;
  cfgCmd : option CmdClass;
  frqCmd : option CmdClass;
  dportCmd : option CmdClass }.

(** The class attributes of [_wbddc], the first concrete DDC class. *)
Definition wbddc : Class := {|
  frqRange := (0, 0)%Q;
  frqRes := 1%Q;
  frqUnits := 1%Q;
  cfgCmd := Some "wbddc";
  frqCmd := Some "wbfrq";
  dportCmd := None |}.

Definition cfg_keys : list Key :=
  [ENABLE; DDC_RATE_INDEX; DDC_UDP_DESTINATION; DDC_VITA_ENABLE; DDC_STREAM_ID].

Section Methods.
Variable E : Env.
Variable cls : Class.

Definition query_args (me : Comp) : pyres (gmap Key Value) :=
  Val {[ INDEX := VInt (index me) ]}.

Definition _queryConfiguration : M (St Comp) unit :=
  Configurable._queryConfiguration E ;;
  query_wiring E "frqCmd" (frqCmd cls) query_args
    (λ rspInfo,
       let freq := get rspInfo DDC_FREQUENCY_OFFSET VNone in
       v ← scale_or_None freq (frqUnits cls);
       Val [(DDC_FREQUENCY_OFFSET, v)]) ;;
  query_wiring E "cfgCmd" (cfgCmd cls) query_args
    (λ rspInfo,
       Val (map (λ key, (key, get rspInfo key VNone))
              [DDC_RATE_INDEX; DDC_UDP_DESTINATION; ENABLE; DDC_VITA_ENABLE;
               DDC_STREAM_ID])) ;;
  query_wiring E "dportCmd" (dportCmd cls) query_args
    (λ rspInfo,
       Val (map (λ key, (key, get rspInfo key VNone)) [DDC_DATA_PORT])) ;;
  mret tt.

Variable confDict : gmap Key Value.

Definition dport_block (c : CmdClass) : Block := λ me,
  let cDict := Configurable._dictUpdate ∅ confDict (configuration me) [DDC_DATA_PORT] in
  let cDict := <[ INDEX := VInt (index me) ]> cDict in
  Val (mkWiring "dportCmd" c cDict
         (λ cmd, [(DDC_DATA_PORT, attr cmd DDC_DATA_PORT)])).

Definition frq_block (c : CmdClass) : Block := λ me,
  freqIn ← py_float E (get confDict DDC_FREQUENCY_OFFSET (VInt 0));
  freqAdj ← adjustFrequency freqIn (frqRange cls) (frqRes cls) (frqUnits cls);
  Val (mkWiring "frqCmd" c
         {[ INDEX := VInt (index me); DDC_FREQUENCY_OFFSET := VFloat freqAdj ]}
         (λ _, [(DDC_FREQUENCY_OFFSET, VFloat (freqAdj * frqUnits cls))])).

Definition cfg_block (c : CmdClass) : Block := λ me,
  let cDict := Configurable._dictUpdate ∅ confDict (configuration me) cfg_keys in
  let cDict := <[ INDEX := VInt (index me) ]> cDict in
  Val (mkWiring "cfgCmd" c cDict
         (λ cmd, map (λ key, (key, attr cmd key)) cfg_keys)).

Definition _setConfiguration : M (St Comp) bool :=
  let ret := true in
  ret ← guarded E (has_key confDict DDC_DATA_PORT) (dportCmd cls) dport_block ret;
  ret ← guarded E (has_key confDict DDC_FREQUENCY_OFFSET) (frqCmd cls) frq_block ret;
  ret ← guarded E (existsb (has_key confDict) cfg_keys) (cfgCmd cls) cfg_block ret;
  mret ret.

End Methods.
End _ddc.

(** ** [_cwToneGen] *)

Module _cwToneGen.

Record Class : Type := mkClass {
  name : string;
  toneCmd : option CmdClass;
  sweepCmd : option CmdClass;
  validConfigurationKeywords : list Key }.

Definition defaults : Class := {|
  name := "CWToneGen";
  toneCmd := Some "cwt";
  sweepCmd := Some "cws";
  validConfigurationKeywords :=
    [CW_FREQUENCY; CW_AMPLITUDE; CW_PHASE; CW_SWEEP_START; CW_SWEEP_STOP;
     CW_SWEEP_STEP; CW_SWEEP_DWELL] |}.

Definition tone_keys : list Key := [CW_FREQUENCY; CW_AMPLITUDE; CW_PHASE].
Definition sweep_keys : list Key :=
  [CW_SWEEP_START; CW_SWEEP_STOP; CW_SWEEP_STEP; CW_SWEEP_DWELL].

Section Methods.
Variable E : Env.
Variable cls : Class.

Definition query_args (me : Comp) : pyres (gmap Key Value) :=
  tx ← parent_index me;
  Val {[ CW_INDEX := VInt (index me); TX_INDEX := VInt tx ]}.

Definition _queryConfiguration : M (St Comp) unit :=
  Configurable._queryConfiguration E ;;
  query_wiring E "toneCmd" (toneCmd cls) query_args
    (λ rspInfo, Val [(CW_FREQUENCY, get rspInfo CW_FREQUENCY VNone);
                     (CW_AMPLITUDE, get rspInfo CW_AMPLITUDE VNone);
                     (CW_PHASE, get rspInfo CW_PHASE VNone)]) ;;
  query_wiring E "sweepCmd" (sweepCmd cls) query_args
    (λ rspInfo, Val [(CW_SWEEP_START, get rspInfo CW_SWEEP_START VNone);
                     (CW_SWEEP_STOP, get rspInfo CW_SWEEP_STOP VNone);
                     (CW_SWEEP_STEP, get rspInfo CW_SWEEP_STEP VNone);
                     (CW_SWEEP_DWELL, get rspInfo CW_SWEEP_DWELL VNone)]) ;;
  mret tt.

Variable confDict : gmap Key Value.

Definition keyed_block (attr_name : string) (keys : list Key) (c : CmdClass) : Block := λ me,
  let cDict := Configurable._dictUpdate ∅ confDict (configuration me) keys in
  tx ← parent_index me;
  let cDict := <[ TX_INDEX := VInt tx ]> (<[ CW_INDEX := VInt (index me) ]> cDict) in
  Val (mkWiring attr_name c cDict (λ cmd, map (λ key, (key, attr cmd key)) keys)).

Definition _setConfiguration : M (St Comp) bool :=
  let ret := true in
  ret ← guarded E (existsb (has_key confDict) tone_keys) (toneCmd cls)
          (keyed_block "toneCmd" tone_keys) ret;
  ret ← guarded E (existsb (has_key confDict) sweep_keys) (sweepCmd cls)
          (keyed_block "sweepCmd" sweep_keys) ret;
  mret ret.

End Methods.

Definition queryConfiguration (E : Env) (cls : Class) : M (St Comp) (gmap Key Value) :=
  Configurable.queryConfiguration (_queryConfiguration E cls).

Definition setConfiguration (E : Env) (cls : Class) (kwargs : gmap Key Value)
    : M (St Comp) bool :=
  Configurable.setConfiguration (validConfigurationKeywords cls)
    (_setConfiguration E cls) kwargs.

End _cwToneGen.

(** ** [_tx] *)

Module _tx.

Record Class : Type := mkClass {
  frqRange : Q * Q;
  frqRes : Q;
  frqUnits : Q;
  attRange : Q * Q;
  attRes : Q;
  numToneGen : Z;
  toneGenType : option _cwToneGen.Class;
  toneGenIndexBase : Z;
  frqCmd : option CmdClass;
  attCmd : option CmdClass;
  tpwrCmd : option CmdClass }.

Definition defaults : Class := {|
  frqRange := (20e6, 6e9)%Q;
  frqRes := 1e6%Q;
  frqUnits := 1e6%Q;
  attRange := (0, 10)%Q;
  attRes := 1%Q;
  numToneGen := 0;
  toneGenType := None;
  toneGenIndexBase := 1;
  frqCmd := Some "txf";
  attCmd := Some "txa";
  tpwrCmd := Some "txp" |}.

(** A tone generator object knows its class. *)
Record ToneGen : Type := mkToneGen {
  tg_class : _cwToneGen.Class;
  tg_obj : Comp }.

(** A transmitter: its [_base] attributes and [toneGenDict], in insertion
    order. *)
Record Obj : Type := mkObj {
  tx_base : Comp;
  toneGenDict : list (Z * ToneGen) }.

#[global] Instance Obj_BaseObject : BaseObject Obj := {
  base := tx_base;
  with_base := λ f o, mkObj (f (tx_base o)) (toneGenDict o) }.

Fixpoint lookup_child (i : Z) (d : list (Z * ToneGen)) : option ToneGen :=
  match d with
  | [] => None
  | (j, g) :: d' => if decide (i = j) then Some g else lookup_child i d'
  end.

Fixpoint store_child (i : Z) (c : Comp) (d : list (Z * ToneGen)) : list (Z * ToneGen) :=
  match d with
  | [] => []
  | (j, g) :: d' =>
      if decide (i = j) then (j, mkToneGen (tg_class g) c) :: d'
      else (j, g) :: store_child i c d'
  end.

(** [self.toneGenDict[i].method(...)]: the method runs on the child, on the
    same trace. *)
Definition with_child {A} (i : Z) (method : _cwToneGen.Class → M (St Comp) A)
    : M (St Obj) A :=
  λ s,
    match lookup_child i (toneGenDict (obj s)) with
    | None => Raise (KeyErrorZ i) s
    | Some g =>
        let put c := mkObj (tx_base (obj s)) (store_child i c (toneGenDict (obj s))) in
        match method (tg_class g) (mkSt (tg_obj g) (trace s)) with
        | Ok a s' => Ok a (mkSt (put (obj s')) (trace s'))
        | Raise e s' => Raise e (mkSt (put (obj s')) (trace s'))
        end
    end.

(** [for x in xs: body(x)] *)
Fixpoint for_each {S X} (xs : list X) (body : X → M S unit) : M S unit :=
  match xs with
  | [] => mret tt
  | x :: xs' => body x ;; for_each xs' body
  end.

(** [tgNum in v] and [v[tgNum]] followed by the [**] unpacking, for the
    value found under [CONFIG_CW]. *)
Definition contains (v : Value) (i : Z) : pyres bool :=
  match v with
  | VDict d => Val (bool_decide (is_Some (d !! i)))
  | VList l => Val (bool_decide (i ∈ l))
  | VNone | VBool _ | VInt _ | VFloat _ | VStr _ => Exc TypeError
  end.

Definition kwargs_at (v : Value) (i : Z) : pyres (gmap Key Value) :=
  match v with
  | VDict d => match d !! i with Some kw => Val kw | None => Exc (KeyErrorZ i) end
  | VList l =>
      let n := Z.of_nat (length l) in
      if decide (- n ≤ i < n)%Z then Exc TypeError else Exc IndexError
  | VNone | VBool _ | VInt _ | VFloat _ | VStr _ => Exc TypeError
  end.

(** [__init__]: the [_base] attributes, then one tone generator per index
    of [range(toneGenIndexBase, toneGenIndexBase + numToneGen)]. *)
Definition __init__ (cls : Class) (parent : option Who) (callback : option Callback)
    (index : Z) : pyres Obj :=
  let me := mkComp "TX" index parent None callback ∅ [] in
  children ← mapM (λ i,
      match toneGenType cls with
      | Some cw => Val (i, mkToneGen cw
                            (mkComp (_cwToneGen.name cw) i (Some (who me)) None callback ∅ []))
      | None => Exc TypeError
      end) (seqZ (toneGenIndexBase cls) (numToneGen cls));
  Val (mkObj me children).

Section Methods.
Variable E : Env.
Variable cls : Class.

Definition query_args (me : Comp) : pyres (gmap Key Value) :=
  Val {[ TX_INDEX := VInt (index me) ]}.

Definition _queryConfiguration : M (St Obj) unit :=
  Configurable._queryConfiguration E ;;
  query_wiring E "tpwrCmd" (tpwrCmd cls) query_args
    (λ rspInfo, Val [(ENABLE, get rspInfo ENABLE (VInt 0))]) ;;
  query_wiring E "frqCmd" (frqCmd cls) query_args
    (λ rspInfo,
       let freq := get rspInfo TX_FREQUENCY VNone in
       v ← scale_or_None freq (frqUnits cls);
       Val [(TX_FREQUENCY, v)]) ;;
  (* the attenuation query records the command before it is sent *)
  match attCmd cls with
  | Some c =>
      me ← self;
      kwargs ← lift (query_args me);
      cmd ← construct "attCmd" c true kwargs;
      Configurable._addLastCommandErrorInfo (cmd, None) ;;
      o ← send E cmd;
      match rspInfo o with
      | Some rsp => assign TX_ATTENUATION (get rsp TX_ATTENUATION VNone)
      | None => mret tt
      end
  | None => mret tt
  end ;;
  match toneGenType cls with
  | Some _ =>
      assign CONFIG_CW (VDict ∅) ;;
      me ← gets obj;
      for_each (toneGenDict me).*1 (λ i,
        conf ← with_child i (_cwToneGen.queryConfiguration E);
        me ← self;
        cw ← lift (getitem (configuration me) CONFIG_CW);
        match cw with
        | VDict d => assign CONFIG_CW (VDict (<[ i := conf ]> d))
        | _ => lift (Exc TypeError)
        end ;;
        errs ← with_child i (λ _, Configurable.getLastCommandErrorInfo);
        update (set_cmdErrorInfo (λ l, l ++ errs)))
  | None => mret tt
  end ;;
  mret tt.

Definition queryConfiguration : M (St Obj) (gmap Key Value) :=
  Configurable.queryConfiguration _queryConfiguration.

(** Tone generators first, then [_base.addTransport] on the transmitter
    itself. *)
Definition addTransport (transport : Transport) (callback : Callback)
    (queryConfig : bool) : M (St Obj) unit :=
  me ← gets obj;
  for_each (toneGenDict me).*1 (λ i,
    with_child i (λ cw,
      _base.addTransport (_cwToneGen.queryConfiguration E cw)
        transport callback queryConfig)) ;;
  _base.addTransport queryConfiguration transport callback queryConfig.

(** [_tx] does not override [delTransport]. *)
Definition delTransport : M (St Obj) unit := _base.delTransport.

Variable confDict : gmap Key Value.

Definition tpwr_block (c : CmdClass) : Block := λ me,
  Val (mkWiring "tpwrCmd" c
         {[ TX_INDEX := VInt (index me); ENABLE := get confDict ENABLE (VInt 0) ]}
         (λ cmd, [(ENABLE, attr cmd ENABLE)])).

Definition frq_block (c : CmdClass) : Block := λ me,
  freqIn ← py_float E (get confDict TX_FREQUENCY (VInt 0));
  freqAdj ← adjustFrequency freqIn (frqRange cls) (frqRes cls) (frqUnits cls);
  Val (mkWiring "frqCmd" c
         {[ TX_INDEX := VInt (index me); TX_FREQUENCY := VFloat freqAdj ]}
         (λ _, [(TX_FREQUENCY, VFloat (freqAdj * frqUnits cls))])).

Definition att_block (c : CmdClass) : Block := λ me,
  rfAttIn ← py_float E (get confDict TX_ATTENUATION (VInt 0));
  rfAttAdj ← adjustAttenuation rfAttIn (attRange cls) (attRes cls) 1;
  Val (mkWiring "attCmd" c
         {[ TX_INDEX := VInt (index me); TX_ATTENUATION := VFloat rfAttAdj ]}
         (λ _, [(TX_ATTENUATION, VFloat rfAttAdj)])).

Definition _setConfiguration : M (St Obj) bool :=
  let ret := true in
  ret ← guarded E (has_key confDict ENABLE) (tpwrCmd cls) tpwr_block ret;
  ret ← guarded E (has_key confDict TX_FREQUENCY) (frqCmd cls) frq_block ret;
  ret ← guarded E (has_key confDict TX_ATTENUATION) (attCmd cls) att_block ret;
  (if bool_decide (0 < numToneGen cls)%Z && has_key confDict CONFIG_CW then
     for_each (seqZ (toneGenIndexBase cls) (numToneGen cls)) (λ tgNum,
       cw ← lift (getitem confDict CONFIG_CW);
       present ← lift (contains cw tgNum);
       if (present : bool) then
         (* the value returned by the child's setConfiguration is dropped *)
         with_child tgNum (λ tg,
           kwargs ← lift (kwargs_at cw tgNum);
           _cwToneGen.setConfiguration E tg kwargs) ;;
         errs ← with_child tgNum (λ _, Configurable.getLastCommandErrorInfo);
         update (set_cmdErrorInfo (λ l, l ++ errs))
       else mret tt)
   else mret tt) ;;
  mret ret.

End Methods.
End _tx.

(** ** [_duc] *)

Module _duc.

Record Class : Type := mkClass {
  cfgCmd : option CmdClass;
  snapshotLoadCmd : option CmdClass;
  snapshotTxCmd : option CmdClass }.

Definition defaults : Class := {|
  cfgCmd := Some "duc";
  snapshotLoadCmd := None;
  snapshotTxCmd := None |}.

Definition cfg_keys : list Key :=
  [DUC_DATA_PORT; DUC_FREQUENCY; DUC_ATTENUATION; DUC_RATE_INDEX;
   DUC_TX_CHANNELS; DUC_MODE; DUC_STREAM_ID].
Definition load_keys : list Key := [DUC_FILENAME; DUC_START_SAMPLE; DUC_SAMPLES].
Definition tx_keys : list Key := [DUC_START_SAMPLE; DUC_SAMPLES; DUC_SINGLE_PLAYBACK].

Section Methods.
Variable E : Env.
Variable cls : Class.

Definition _queryConfiguration : M (St Comp) unit :=
  Configurable._queryConfiguration E ;;
  query_wiring E "cfgCmd" (cfgCmd cls)
    (λ me, Val {[ DUC_INDEX := VInt (index me) ]})
    (λ rspInfo, Val (map (λ key, (key, get rspInfo key (VInt 0))) cfg_keys)) ;;
  mret tt.

Variable confDict : gmap Key Value.

Definition cfg_block (c : CmdClass) : Block := λ me,
  let cDict := Configurable._dictUpdate ∅ confDict (configuration me) cfg_keys in
  let cDict := <[ DUC_INDEX := VInt (index me) ]> cDict in
  Val (mkWiring "cfgCmd" c cDict (λ cmd, map (λ key, (key, attr cmd key)) cfg_keys)).

Definition load_block (c : CmdClass) : Block := λ me,
  filename ← getitem confDict DUC_FILENAME;
  startSample ← getitem confDict DUC_START_SAMPLE;
  samples ← getitem confDict DUC_SAMPLES;
  Val (mkWiring "snapshotLoadCmd" c
         {[ DUC_FILENAME := filename; DUC_INDEX := VInt (index me);
            DUC_START_SAMPLE := startSample; DUC_SAMPLES := samples ]}
         (λ _, [])).

Definition tx_block (c : CmdClass) : Block := λ me,
  let cDict := Configurable._dictUpdate ∅ confDict (configuration me) tx_keys in
  startSample ← getitem confDict DUC_START_SAMPLE;
  samples ← getitem confDict DUC_SAMPLES;
  singlePlayback ← getitem confDict DUC_SINGLE_PLAYBACK;
  let cDict := <[ DUC_SINGLE_PLAYBACK := singlePlayback ]>
                 (<[ DUC_SAMPLES := samples ]>
                    (<[ DUC_START_SAMPLE := startSample ]>
                       (<[ DUC_INDEX := VInt (index me) ]> cDict))) in
  Val (mkWiring "snapshotTxCmd" c cDict (λ _, [])).

Definition _setConfiguration : M (St Comp) bool :=
  let ret := true in
  ret ← guarded E (existsb (has_key confDict) cfg_keys) (cfgCmd cls) cfg_block ret;
  ret ← guarded E (forallb (has_key confDict) load_keys) (snapshotLoadCmd cls) load_block ret;
  ret ← guarded E (existsb (has_key confDict) tx_keys) (snapshotTxCmd cls) tx_block ret;
  mret ret.

End Methods.
End _duc.

(** ** [_base]: [enable] and [disable] *)

Module _base'.
Section Methods.
Context {S : Type}.

(** [_setConfiguration] is the method of the object's own class. *)
Definition disable (_setConfiguration : gmap Key Value → M (St S) bool) : M (St S) bool :=
  _setConfiguration {[ ENABLE := VInt 0 ]}.

Definition enable (_setConfiguration : gmap Key Value → M (St S) bool) : M (St S) bool :=
  _setConfiguration {[ ENABLE := VInt 1 ]}.

End Methods.
End _base'.

(** ** [_ddc]: the rate, bandwidth and data format methods *)

(** [l.sort()] on a list of integers. *)
Fixpoint insert_sorted (k : Z) (l : list Z) : list Z :=
  match l with
  | [] => [k]
  | h :: t => if (k <=? h)%Z then k :: l else h :: insert_sorted k t
  end.

Definition py_sorted (l : list Z) : list Z := foldr insert_sorted [] l.

(** [list(d.keys())]; the order of the keys of a dictionary is its
    insertion order, which the callers below sort away or do not look at. *)
Definition dict_keys {V} (d : gmap Z V) : list Z := (map_to_list d).*1.

(** [d[k]] on a dictionary keyed by integers. *)
Definition getitemZ {V} (d : gmap Z V) (k : Z) : pyres V :=
  match d !! k with Some v => Val v | None => Exc (KeyErrorZ k) end.

Module DDC_DATA_FORMAT.
Definition IQ : string := "iq".
Definition REAL : string := "real".
Definition FFT : string := "fft".
End DDC_DATA_FORMAT.

Module _ddc'.

(** The class attributes that these class methods read. *)
Record Class : Type := mkClass {
  rateSet : gmap Z Q;
  bwSet : gmap Z Q;
  dataFormat : gmap Z string }.

(** The class attributes of [_ddc] itself. *)
Definition defaults : Class := {| rateSet := ∅; bwSet := ∅; dataFormat := ∅ |}.

Section Methods.
Variable cls : Class.

Definition getDdcRateSet (index : option Z) : gmap Z Q := rateSet cls.

Definition getDdcBwSet (index : option Z) : gmap Z Q := bwSet cls.

(** In the three methods below [getDdcRateSet] and [getDdcBwSet] are the
    methods of the class the call was made on, which a subclass may
    override. *)
Definition getDdcRates (getDdcRateSet : option Z → gmap Z Q) (index : option Z)
    : pyres (list Q) :=
  let rateKeys := dict_keys (getDdcRateSet index) in
  let rateKeys := py_sorted rateKeys in
  mapM (λ k, getitemZ (rateSet cls) k) rateKeys.

Definition getDdcRateList (getDdcRateSet : option Z → gmap Z Q) (index : option Z)
    : pyres (list Q) :=
  let rateDict := getDdcRateSet index in
  let rateKeys := dict_keys rateDict in
  let rateKeys := py_sorted rateKeys in
  mapM (λ k, getitemZ rateDict k) rateKeys.

Definition getDdcDataFormat (getDdcRateSet : option Z → gmap Z Q) : gmap Z string :=
  list_to_map
    ((λ i, (i, default DDC_DATA_FORMAT.IQ (dataFormat cls !! i)))
       <$> dict_keys (getDdcRateSet None)).

Definition getDdcBwList (getDdcBwSet : option Z → gmap Z Q) (index : option Z)
    : pyres (list Q) :=
  let bwDict := getDdcBwSet index in
  let rateKeys := dict_keys bwDict in
  let rateKeys := py_sorted rateKeys in
  mapM (λ k, getitemZ bwDict k) rateKeys.

End Methods.
End _ddc'.

(** ** The group classes: [ddc_group], [duc_group] and [tuner_group] *)

Module groups.

(** Modelled from the spec: the constants of the [configKeys] module that
    only the group classes mention. *)
Inductive GroupKey : Set :=
  | DDC_GROUP_MEMBERS | DDC_GROUP_MEMBER
  | DUC_GROUP_MEMBERS | DUC_GROUP_MEMBER
  | TUNER_GROUP_MEMBERS | TUNER_GROUP_MEMBER.

#[global] Instance GroupKey_eq_dec : EqDecision GroupKey.
Proof. solve_decision. Defined.

#[global] Instance GroupKey_countable : Countable GroupKey.
Proof.
  refine (inj_countable'
    (λ k, match k with
          | DDC_GROUP_MEMBERS => 0 | DDC_GROUP_MEMBER => 1 | DUC_GROUP_MEMBERS => 2
          | DUC_GROUP_MEMBER => 3 | TUNER_GROUP_MEMBERS => 4 | TUNER_GROUP_MEMBER => 5
          end)%nat
    (λ n, match n with
          | 0 => DDC_GROUP_MEMBERS | 1 => DDC_GROUP_MEMBER | 2 => DUC_GROUP_MEMBERS
          | 3 => DUC_GROUP_MEMBER | 4 => TUNER_GROUP_MEMBERS | _ => TUNER_GROUP_MEMBER
          end)%nat _); by intros [].
Defined.

(** A key of a group's dictionaries: a key that the other classes use too
    ([INDEX], [ENABLE]), or one of the group keys. *)
Definition AnyKey : Type := (Key + GroupKey)%type.

(** A command object, a transport event, a diagnostic entry and an object,
    as for the other classes, with dictionaries over [AnyKey]. *)
Record Invocation : Type := mkInv {
  inv_attr : string;
  inv_cmd : CmdClass;
  inv_query : bool;
  inv_args : gmap AnyKey Value;
  inv_callback : option Callback }.

Inductive Event : Type :=
  | EvCall (who : Who) (inv : Invocation) (o : Outcome).

Definition Diag : Type := (Invocation * option Outcome)%type.

Record Obj : Type := mkObj {
  _name : string;
  index : Z;
  callback : option Callback;
  configuration : gmap AnyKey Value;
  cmdErrorInfo : list Diag }.

Record State : Type := mkState { obj : Obj; trace : list Event }.

(** The hardware behind the transport and the base-class hook
    [configKeys.Configurable._queryConfiguration], as for the other
    classes. *)
Record Env : Type := mkEnv {
  hw : list Event → Invocation → Outcome;
  Configurable_queryConfiguration : gmap AnyKey Value → gmap AnyKey Value }.

(** The class attributes that subclasses override. *)
Record Class : Type := mkClass {
  groupMemberIndexBase : Z;
  numGroupMembers : Z;
  groupMemberCmd : option CmdClass;
  groupEnableCmd : option CmdClass }.

(** The three classes have the same two methods up to the keys they use:
    the key of the mirrored member list, the key under which a query
    command carries the member index, and the key under which a set
    command carries it - [DDC_GROUP_MEMBER] for a DDC group, but
    [DUC_GROUP_MEMBERS] and [TUNER_GROUP_MEMBERS] for the other two. *)
Inductive Kind : Set := ddc_group | duc_group | tuner_group.

Definition members_key (kind : Kind) : AnyKey :=
  inr match kind with
      | ddc_group => DDC_GROUP_MEMBERS
      | duc_group => DUC_GROUP_MEMBERS
      | tuner_group => TUNER_GROUP_MEMBERS
      end.

Definition query_member_key (kind : Kind) : AnyKey :=
  inr match kind with
      | ddc_group => DDC_GROUP_MEMBER
      | duc_group => DUC_GROUP_MEMBER
      | tuner_group => TUNER_GROUP_MEMBER
      end.

Definition set_member_key (kind : Kind) : AnyKey :=
  inr match kind with
      | ddc_group => DDC_GROUP_MEMBER
      | duc_group => DUC_GROUP_MEMBERS
      | tuner_group => TUNER_GROUP_MEMBERS
      end.

(** The class attributes of [ddc_group], [duc_group] and [tuner_group]
    themselves, and of [wbddc_group], [nbddc_group] and [wbduc_group]
    (which derives from [ddc_group]). *)
Definition defaults : Class := {|
  groupMemberIndexBase := 1; numGroupMembers := 0;
  groupMemberCmd := None; groupEnableCmd := None |}.

Definition wbddc_group : Kind * Class :=
  (ddc_group, mkClass 1 0 (Some "wbg") (Some "wbge")).
Definition nbddc_group : Kind * Class :=
  (ddc_group, mkClass 1 0 (Some "nbg") (Some "nbge")).
Definition wbduc_group : Kind * Class :=
  (ddc_group, mkClass 1 0 (Some "ducg") (Some "ducge")).

(** Python's truth value of an object. *)
Definition truthy (v : Value) : bool :=
  match v with
  | VNone => false
  | VBool b => b
  | VInt z => negb (z =? 0)%Z
  | VFloat q => negb (Qeq_bool q 0)
  | VStr s => negb (String.eqb s EmptyString)
  | VList l => match l with [] => false | _ => true end
  | VDict d => negb (bool_decide (d = ∅))
  end.

(** The member list of a request: [None] is the empty list and an integer
    is the list of that integer ([isinstance(x, int)] also holds for a
    Boolean, and [[True] == [1]]); any other object is taken as it is. *)
Definition members_of_request (v : Value) : Value :=
  match v with
  | VNone => VList []
  | VInt z => VList [z]
  | VBool b => VList [if b then 1%Z else 0%Z]
  | VFloat _ | VStr _ | VList _ | VDict _ => v
  end.

Section Methods.
Variable E : Env.
Variable kind : Kind.
Variable cls : Class.

Definition who (me : Obj) : Who := (_name me, index me).

(** [self.configuration[k] = v] *)
Definition assign (k : AnyKey) (v : Value) : M State unit :=
  modify (λ s,
    let me := obj s in
    mkState (mkObj (_name me) (index me) (callback me) (<[k := v]> (configuration me))
               (cmdErrorInfo me))
            (trace s)).

(** [[
      cmd = self.xxxCmd( **kwargs )
      ... cmd.send( self.callback, ) ...
      self._addLastCommandErrorInfo(cmd)
    ]]
    with [_addLastCommandErrorInfo] as for the other classes. *)
Definition issue (attr_name : string) (c : CmdClass) (query : bool)
    (args : gmap AnyKey Value) : M State Outcome :=
  λ s,
    let me := obj s in
    let cmd := mkInv attr_name c query args (callback me) in
    let o := hw E (trace s) cmd in
    Ok o (mkState (mkObj (_name me) (index me) (callback me) (configuration me)
                     (cmdErrorInfo me ++ [(cmd, Some o)]))
                  (trace s ++ [EvCall (who me) cmd o])).

(** The loop of [_queryConfiguration] over the member indices. *)
Fixpoint query_members (c : CmdClass) (indices : list Z) (members : list Z)
    : M State (list Z) :=
  match indices with
  | [] => mret members
  | memberIndex :: rest =>
      me ← gets obj;
      o ← issue "groupMemberCmd" c true
             {[ inl INDEX := VInt (index me);
                query_member_key kind := VInt memberIndex ]};
      let members :=
        match rspInfo o with
        | Some rspInfo =>
            let enabled := get rspInfo ENABLE (VBool false) in
            if truthy enabled then members ++ [memberIndex] else members
        | None => members
        end in
      query_members c rest members
  end.

Definition _queryConfiguration : M State unit :=
  modify (λ s,
    let me := obj s in
    mkState (mkObj (_name me) (index me) (callback me)
               (Configurable_queryConfiguration E (configuration me)) (cmdErrorInfo me))
            (trace s)) ;;
  match groupMemberCmd cls return M State unit with
  | Some c =>
      members ← query_members c
                  (seqZ (groupMemberIndexBase cls) (numGroupMembers cls)) [];
      assign (members_key kind) (VList members)
  | None => mret tt
  end ;;
  match groupEnableCmd cls return M State unit with
  | Some c =>
      me ← gets obj;
      o ← issue "groupEnableCmd" c true {[ inl INDEX := VInt (index me) ]};
      match rspInfo o return M State unit with
      | Some rspInfo => assign (inl ENABLE) (get rspInfo ENABLE (VInt 0))
      | None => mret tt
      end
  | None => mret tt
  end ;;
  mret tt.

(** The loop of [_setConfiguration] over the member indices. *)
Fixpoint set_members (c : CmdClass) (members : Value) (indices : list Z) (ret : bool)
    : M State bool :=
  match indices with
  | [] => mret ret
  | member :: rest =>
      present ← lift (_tx.contains members member);
      let enabled := if (present : bool) then 1%Z else 0%Z in
      me ← gets obj;
      o ← issue "groupMemberCmd" c false
             {[ inl INDEX := VInt (index me);
                set_member_key kind := VInt member;
                inl ENABLE := VInt enabled ]};
      let ret := ret && send_ret o in
      let ret := ret && success o in
      set_members c members rest ret
  end.

Definition _setConfiguration (confDict : gmap AnyKey Value) : M State bool :=
  let ret := true in
  ret ← match groupMemberCmd cls, confDict !! members_key kind return M State bool with
        | Some c, Some v =>
            let members := members_of_request v in
            ret ← set_members c members
                    (seqZ (groupMemberIndexBase cls) (numGroupMembers cls)) ret;
            (if (ret : bool) then assign (members_key kind) members else mret tt) ;;
            mret ret
        | _, _ => mret ret
        end;
  ret ← match confDict !! inl ENABLE, groupEnableCmd cls return M State bool with
        | Some _, Some c =>
            me ← gets obj;
            o ← issue "groupEnableCmd" c false
                   {[ inl INDEX := VInt (index me);
                      inl ENABLE := default (VInt 0) (confDict !! inl ENABLE) ]};
            let ret := ret && send_ret o in
            let ret := ret && success o in
            (if (ret : bool) then assign (inl ENABLE) (attr o ENABLE) else mret tt) ;;
            mret ret
        | _, _ => mret ret
        end;
  mret ret.

End Methods.
End groups.

(** * Vocabulary of the statements and fixtures *)

(** ** Vocabulary of the statements about the value transforms *)

(** [10^k] for any integer [k]. *)
Definition pow10 (k : Z) : Q :=
  if (0 <=? k)%Z then inject_Z (10 ^ k) else (/ inject_Z (10 ^ (- k)))%Q.


(** The clamped value: the first two statements of [adjustFrequency] and
    of [adjustAttenuation]. *)
Definition clampF (v lo hi : Q) : Q :=
  let out := if Qltb v lo then lo else v in
  if Qltb hi v then hi else out.
Definition clampA (v lo hi : Q) : Q := py_min (py_max v lo) hi.

(** [y] is a multiple of [q] nearest to [c]; on a tie, the one away from
    zero. *)
Definition nearest_half_away_multiple (q c y : Q) : Prop :=
  ∃ m : Z, (y == inject_Z m * q)%Q ∧ (Qabs (y - c) <= q / 2)%Q ∧
           ((Qabs (y - c) == q / 2)%Q → (Qabs c <= Qabs y)%Q).

(** ** Vocabulary of the statements about binary64 *)

(** The value of the binary64 number nearest to [0 < q], were the exponent
    not bounded above; the same for a magnitude [0 <= q]; and the value of
    the result of an operation whose exact result is [v], an infinity
    counting as [2^1024] with its sign. *)
Definition round_val (q : Q) : Q :=
  (inject_Z (binary64.round_pos q).1 * binary64.pow2 (binary64.round_pos q).2)%Q.

Definition rmag (q : Q) : Q := if Qle_bool q 0 then 0%Q else round_val q.

Definition huge : Q := binary64.pow2 binary64.emax.

Definition saturated (q : Q) : Q := if Qle_bool huge q then huge else q.

Definition rnd (v : Q) : Q :=
  if Qle_bool 0 v then saturated (rmag v) else (- saturated (rmag (- v)))%Q.

(** The value of a float, an infinity counting as [2^1024] with its
    sign. *)
Definition ev (x : binary64.float) : Q :=
  match x with
  | S754_infinity s => if s then (- huge)%Q else huge
  | _ => binary64.B2Q x
  end.

(** A binary64 number or an infinity: any float but NaN. *)
Definition is_number (x : binary64.float) : bool :=
  match x with
  | S754_nan => false
  | S754_infinity _ => true
  | _ => binary64.is_binary64 x
  end.

(** An operation that takes numbers to numbers and keeps their order. *)
Definition monotone (op : binary64.float → binary64.float) : Prop :=
  ∀ x y, is_number x = true → is_number y = true → (ev x <= ev y)%Q →
         is_number (op x) = true ∧ is_number (op y) = true ∧ (ev (op x) <= ev (op y))%Q.

(** The power of ten that [numpy.around] scales by is exact. *)
Definition exact_power_of_ten (k : Z) : bool :=
  let p := binary64.power_of_ten k in
  binary64.is_binary64 p && negb (binary64.is_zero p) && negb (binary64.sign p)
  && Qeq_bool (binary64.B2Q p) (inject_Z (10 ^ k)).

(** The binary64 number nearest to the decimal [n * 10^(-d)]. *)
Definition decimal (n d : Z) : binary64.float := binary64.B64 (inject_Z n * pow10 (- d)).

(** [n] is the integer nearest to [x], a tie going to the even integer. *)
Definition nearest_even (n : Z) (x : Q) : Prop :=
  (Qabs (inject_Z n - x) <= 1 # 2)%Q ∧ ((Qabs (inject_Z n - x) == 1 # 2)%Q → Z.even n = true).

(** What the two helpers make of the clamped value [c]: it is scaled by
    [10^d] (the exact product, rounded to binary64; [c] itself when [d] is
    0), the scaled value [t] is rounded to the nearest integer [n], a tie
    going to the even integer, and [n] is scaled back and divided by the
    unit divisor.  An infinity counts as [2^1024] with its sign. *)
Definition rounded_half_even (c : binary64.float) (d : Z) (units y : binary64.float)
    : Prop :=
  ∃ (t : binary64.float) (n : Z),
    t = binary64.scaled c d ∧ (d = 0%Z → t = c) ∧
    is_number t = true ∧ (ev t == rnd (binary64.B2Q c * pow10 d))%Q ∧
    nearest_even n (ev t) ∧
    (ev (binary64.np_rint t) == inject_Z n)%Q ∧
    y = binary64.np_true_divide (binary64.unscaled (binary64.np_rint t) d) units.

(** In hardware units, [y] lies in the range and is a multiple of the
    resolution. *)
Definition in_range_quantized (lo hi res units y : binary64.float) : Prop :=
  binary64.is_binary64 y = true ∧
  (binary64.B2Q lo / binary64.B2Q units <= binary64.B2Q y)%Q ∧
  (binary64.B2Q y <= binary64.B2Q hi / binary64.B2Q units)%Q ∧
  ∃ m : Z, (binary64.B2Q y == inject_Z m * (binary64.B2Q res / binary64.B2Q units))%Q.

(** The range-and-resolution property as the spec words it: for any range
    with [min <= max], any positive resolution and any positive unit
    divisor. *)
Definition stated_range_and_quantum (libm_log10 : binary64.float → binary64.float)
    (v lo hi res units : binary64.float) : Prop :=
  binary64.leb lo hi = true → binary64.ltb (binary64.B64 0) res = true →
  binary64.ltb (binary64.B64 0) units = true →
  (∃ y, binary64.adjustFrequency libm_log10 v (lo, hi) res units = Val y ∧
        in_range_quantized lo hi res units y) ∧
  (∃ y, binary64.adjustAttenuation libm_log10 v (lo, hi) res units = Val y ∧
        in_range_quantized lo hi res units y).

(** The rounding property as the spec words it: the nearest multiple of
    the resolution, a tie going away from zero. *)
Definition stated_half_away_rounding (libm_log10 : binary64.float → binary64.float)
    (v lo hi res units : binary64.float) : Prop :=
  binary64.ltb (binary64.B64 0) res = true → binary64.is_zero units = false →
  (∃ y, binary64.adjustFrequency libm_log10 v (lo, hi) res units = Val y ∧
        binary64.is_binary64 y = true ∧
        nearest_half_away_multiple (binary64.B2Q res)
          (binary64.B2Q (binary64.clampF v lo hi))
          (binary64.B2Q y * binary64.B2Q units)) ∧
  (∃ y, binary64.adjustAttenuation libm_log10 v (lo, hi) res units = Val y ∧
        binary64.is_binary64 y = true ∧
        nearest_half_away_multiple (binary64.B2Q res)
          (binary64.B2Q (binary64.clampA v lo hi))
          (binary64.B2Q y * binary64.B2Q units)).

(** The values of the C library's [log10] at the arguments that the
    examples below use: [log10(1.0)], [log10(10.0)], [log10(1.0/1e6)] and
    [log10(0.2)].  On any other argument the fixture gives NaN. *)
Definition log10_table (x : binary64.float) : binary64.float :=
  if binary64.eqb x (binary64.B64 1) then binary64.B64 0
  else if binary64.eqb x (binary64.B64 10) then binary64.B64 1
  else if binary64.eqb x (binary64.np_true_divide (binary64.B64 1) (binary64.B64 1e6))
  then binary64.B64 (-6)
  else if binary64.eqb x (binary64.B64 0.2) then binary64.B64 (-0.6989700043360187)
  else S754_nan.

(** ** Vocabulary of the statements about the engine *)

Definition state_of {S A} (r : result S A) : S :=
  match r with Ok _ s => s | Raise _ s => s end.

(** The command a wiring constructs, the outcome the hardware gives it in
    state [s], and the diagnostic entry and transport event it leaves. *)
Definition invocation_of (me : Comp) (w : Wiring) : Invocation :=
  mkInv (w_attr w) (w_cmd w) false (w_args w) (callback me).
Definition outcome (E : Env) (s : St Comp) (w : Wiring) : Outcome :=
  hw E (trace s) (invocation_of (obj s) w).
Definition entry (E : Env) (s : St Comp) (w : Wiring) : Diag :=
  (invocation_of (obj s) w, Some (outcome E s w)).
Definition call (E : Env) (s : St Comp) (w : Wiring) : Event :=
  EvCall (who (obj s)) (invocation_of (obj s) w) (outcome E s w).

(** Assignments to the mirrored map, first to last. *)
Definition mirror (kvs : list (Key * Value)) (m : gmap Key Value) : gmap Key Value :=
  foldl (λ m kv, <[kv.1 := kv.2]> m) m kvs.

(** The state after wiring [w] has been issued in state [s]; the mirrored
    map is written when the gate is open and the command succeeded. *)
Definition issued (E : Env) (w : Wiring) (gate : bool) (s : St Comp) : St Comp :=
  let me := obj s in
  let o := outcome E s w in
  mkSt (mkComp (_name me) (index me) (parent me) (transport me) (callback me)
          (if gate && cmd_ok o then mirror (w_mirror w o) (configuration me)
           else configuration me)
          (cmdErrorInfo me ++ [entry E s w]))
       (trace s ++ [call E s w]).

(** The blocks a [_setConfiguration] body reaches, as a list. *)
Definition optional (present : bool) (xxxCmd : option CmdClass)
    (block : CmdClass → Block) : list Block :=
  if present then match xxxCmd with Some c => [block c] | None => [] end else [].

Fixpoint run_blocks (E : Env) (bs : list Block) (ret : bool) : M (St Comp) bool :=
  match bs with
  | [] => mret ret
  | b :: bs' => ret ← run_block E b ret; run_blocks E bs' ret
  end.

(** The query wirings of a [_queryConfiguration] body, as a list. *)
Record Query : Type := mkQuery {
  q_attr : string;
  q_cmd : option CmdClass;
  q_args : Comp → pyres (gmap Key Value);
  q_store : gmap Key Value → pyres (list (Key * Value)) }.

Fixpoint run_queries (E : Env) (qs : list Query) : M (St Comp) unit :=
  match qs with
  | [] => mret tt
  | q :: qs' =>
      query_wiring E (q_attr q) (q_cmd q) (q_args q) (q_store q) ;; run_queries E qs'
  end.

(** The component classes whose state is a single [_base] object. *)
Inductive Component : Type :=
  | Tuner (cls : _tuner.Class)
  | Ddc (cls : _ddc.Class)
  | Duc (cls : _duc.Class).

Definition _setConfiguration_of (E : Env) (c : Component)
    : gmap Key Value → M (St Comp) bool :=
  match c with
  | Tuner cls => _tuner._setConfiguration E cls
  | Ddc cls => _ddc._setConfiguration E cls
  | Duc cls => _duc._setConfiguration E cls
  end.

Definition _queryConfiguration_of (E : Env) (c : Component) : M (St Comp) unit :=
  match c with
  | Tuner cls => _tuner._queryConfiguration E cls
  | Ddc cls => _ddc._queryConfiguration E cls
  | Duc cls => _duc._queryConfiguration E cls
  end.

Definition blocks_of (E : Env) (c : Component) (confDict : gmap Key Value) : list Block :=
  match c with
  | Tuner cls =>
      optional (has_key confDict ENABLE) (_tuner.tpwrCmd cls) (_tuner.tpwr_block confDict)
      ++ optional (has_key confDict TUNER_FREQUENCY) (_tuner.frqCmd cls)
           (_tuner.frq_block E cls confDict)
      ++ optional (has_key confDict TUNER_ATTENUATION || has_key confDict TUNER_RF_ATTENUATION)
           (_tuner.attCmd cls) (_tuner.att_block E cls confDict)
      ++ optional (has_key confDict TUNER_AGP) (_tuner.agpCmd cls) (_tuner.agp_block confDict)
      ++ optional (has_key confDict TUNER_FILTER) (_tuner.fifCmd cls) (_tuner.fif_block confDict)
      ++ optional (has_key confDict TUNER_TIMING_ADJ) (_tuner.tadjCmd cls)
           (_tuner.tadj_block confDict)
  | Ddc cls =>
      optional (has_key confDict DDC_DATA_PORT) (_ddc.dportCmd cls) (_ddc.dport_block confDict)
      ++ optional (has_key confDict DDC_FREQUENCY_OFFSET) (_ddc.frqCmd cls)
           (_ddc.frq_block E cls confDict)
      ++ optional (existsb (has_key confDict) _ddc.cfg_keys) (_ddc.cfgCmd cls)
           (_ddc.cfg_block confDict)
  | Duc cls =>
      optional (existsb (has_key confDict) _duc.cfg_keys) (_duc.cfgCmd cls)
        (_duc.cfg_block confDict)
      ++ optional (forallb (has_key confDict) _duc.load_keys) (_duc.snapshotLoadCmd cls)
           (_duc.load_block confDict)
      ++ optional (existsb (has_key confDict) _duc.tx_keys) (_duc.snapshotTxCmd cls)
           (_duc.tx_block confDict)
  end.

Definition returns {S A} (r : result S A) : option A :=
  match r with Ok a _ => Some a | Raise _ _ => None end.

(** The partial-failure property as the spec words it: with wirings [A],
    [B], [C] issued in that order, [B] failing and the other two
    succeeding, the mirrored map carries the updates of [A] and of [C],
    the call returns [false], and one new diagnostic entry is a failure,
    that of [B]. *)
Definition stated_partial_failure (E : Env) (c : Component)
    (confDict : gmap Key Value) (s : St Comp) : Prop :=
  ∀ (bA bB bC : Block) (A B C : Wiring),
    blocks_of E c confDict = [bA; bB; bC] →
    bA (obj s) = Val A → cmd_ok (outcome E s A) = true →
    let s1 := issued E A true s in
    bB (obj s1) = Val B → cmd_ok (outcome E s1 B) = false →
    let s2 := issued E B true s1 in
    bC (obj s2) = Val C → cmd_ok (outcome E s2 C) = true →
    ∃ s', _setConfiguration_of E c confDict s = Ok false s' ∧
      configuration (obj s')
      = mirror (w_mirror C (outcome E s2 C))
          (mirror (w_mirror A (outcome E s A)) (configuration (obj s))) ∧
      ∃ new, cmdErrorInfo (obj s') = cmdErrorInfo (obj s) ++ new ∧
             failures new = [entry E s1 B].

(** ** Fixtures *)

(** A command that is accepted and echoes [echo] for every attribute, and
    one that the hardware rejects. *)
Definition accepted (echo : Value) : Outcome := mkOut true true None (λ _, echo).
Definition rejected : Outcome := mkOut true false None (λ _, VNone).

(** Hardware that rejects the commands reached through the attribute
    [bad] and accepts every other command. *)
Definition rejecting (bad : string) : Env :=
  mkEnv (λ _ inv, if decide (inv_attr inv = bad) then rejected else accepted (VInt 1))
        (λ _, None) (λ m, m).

(** Hardware that accepts every command. *)
Definition accepting : Env := mkEnv (λ _ _, accepted (VInt 1)) (λ _, None) (λ m, m).

Definition tuner1 : Comp := mkComp "Tuner" 1 None (Some "transport") (Some "callback") ∅ [].

Definition enable_frequency_attenuation : gmap Key Value :=
  {[ ENABLE := VInt 1; TUNER_FREQUENCY := VInt 100000000; TUNER_ATTENUATION := VInt 10 ]}.

(** The request of the spec's concrete scenario. *)
Definition scenario_request : gmap Key Value :=
  {[ TUNER_FREQUENCY := VInt 2450000001; TUNER_ATTENUATION := VFloat 31.4 ]}.

(** Every round trip of a trace succeeded. *)
Definition all_calls_ok (evs : list Event) : Prop :=
  Forall (λ ev, match ev with EvCall _ _ o => cmd_ok o = true | _ => True end) evs.

(** A DUC class with both snapshot commands, and a request that loads and
    plays a snapshot. *)
Definition snapshot_duc : _duc.Class :=
  _duc.mkClass (Some "duc") (Some "ducsl") (Some "ducst").

Definition duc1 : Comp := mkComp "WBDUC" 1 None (Some "transport") (Some "callback") ∅ [].

Definition load_and_play : gmap Key Value :=
  {[ DUC_FILENAME := VStr "tone.bin"; DUC_START_SAMPLE := VInt 0;
     DUC_SAMPLES := VInt 4096; DUC_SINGLE_PLAYBACK := VInt 1 ]}.

Definition play_only : gmap Key Value := {[ DUC_SINGLE_PLAYBACK := VInt 1 ]}.

Definition queries_of (c : Component) : list Query :=
  match c with
  | Tuner cls =>
      [ mkQuery "tpwrCmd" (_tuner.tpwrCmd cls) _tuner.query_args
          (λ rspInfo, Val [(ENABLE, get rspInfo ENABLE (VInt 0))]);
        mkQuery "frqCmd" (_tuner.frqCmd cls) _tuner.query_args
          (λ rspInfo,
             let freq := get rspInfo TUNER_FREQUENCY VNone in
             v ← scale_or_None freq (_tuner.frqUnits cls);
             Val [(TUNER_FREQUENCY, v)]);
        mkQuery "attCmd" (_tuner.attCmd cls) _tuner.query_args
          (λ rspInfo, Val [(TUNER_ATTENUATION, get rspInfo TUNER_ATTENUATION VNone);
                           (TUNER_RF_ATTENUATION, get rspInfo TUNER_ATTENUATION VNone)]);
        mkQuery "agpCmd" (_tuner.agpCmd cls) _tuner.query_args
          (λ rspInfo, Val [(TUNER_AGP, get rspInfo TUNER_AGP VNone)]);
        mkQuery "fifCmd" (_tuner.fifCmd cls) _tuner.query_args
          (λ rspInfo, Val [(TUNER_FILTER, get rspInfo TUNER_FILTER VNone)]);
        mkQuery "tadjCmd" (_tuner.tadjCmd cls) _tuner.query_args
          (λ rspInfo, Val [(TUNER_TIMING_ADJ, get rspInfo TUNER_TIMING_ADJ VNone)]) ]
  | Ddc cls =>
      [ mkQuery "frqCmd" (_ddc.frqCmd cls) _ddc.query_args
          (λ rspInfo,
             let freq := get rspInfo DDC_FREQUENCY_OFFSET VNone in
             v ← scale_or_None freq (_ddc.frqUnits cls);
             Val [(DDC_FREQUENCY_OFFSET, v)]);
        mkQuery "cfgCmd" (_ddc.cfgCmd cls) _ddc.query_args
          (λ rspInfo,
             Val (map (λ key, (key, get rspInfo key VNone))
                    [DDC_RATE_INDEX; DDC_UDP_DESTINATION; ENABLE; DDC_VITA_ENABLE;
                     DDC_STREAM_ID]));
        mkQuery "dportCmd" (_ddc.dportCmd cls) _ddc.query_args
          (λ rspInfo,
             Val (map (λ key, (key, get rspInfo key VNone)) [DDC_DATA_PORT])) ]
  | Duc cls =>
      [ mkQuery "cfgCmd" (_duc.cfgCmd cls)
          (λ me, Val {[ DUC_INDEX := VInt (index me) ]})
          (λ rspInfo, Val (map (λ key, (key, get rspInfo key (VInt 0))) _duc.cfg_keys)) ]
  end.

(** For each key a query wiring mirrors: the attribute of the wiring, the
    key, the response field it is read from, and the value written when the
    response lacks the field. *)
Definition query_fields (c : Component) : list (string * Key * Key * Value) :=
  match c with
  | Tuner _ =>
      [ ("tpwrCmd", ENABLE, ENABLE, VInt 0);
        ("frqCmd", TUNER_FREQUENCY, TUNER_FREQUENCY, VNone);
        ("attCmd", TUNER_ATTENUATION, TUNER_ATTENUATION, VNone);
        ("attCmd", TUNER_RF_ATTENUATION, TUNER_ATTENUATION, VNone);
        ("agpCmd", TUNER_AGP, TUNER_AGP, VNone);
        ("fifCmd", TUNER_FILTER, TUNER_FILTER, VNone);
        ("tadjCmd", TUNER_TIMING_ADJ, TUNER_TIMING_ADJ, VNone) ]
  | Ddc _ =>
      [ ("frqCmd", DDC_FREQUENCY_OFFSET, DDC_FREQUENCY_OFFSET, VNone);
        ("cfgCmd", DDC_RATE_INDEX, DDC_RATE_INDEX, VNone);
        ("cfgCmd", DDC_UDP_DESTINATION, DDC_UDP_DESTINATION, VNone);
        ("cfgCmd", ENABLE, ENABLE, VNone);
        ("cfgCmd", DDC_VITA_ENABLE, DDC_VITA_ENABLE, VNone);
        ("cfgCmd", DDC_STREAM_ID, DDC_STREAM_ID, VNone);
        ("dportCmd", DDC_DATA_PORT, DDC_DATA_PORT, VNone) ]
  | Duc _ => map (λ key, ("cfgCmd", key, key, VInt 0)) _duc.cfg_keys
  end.

(** The absent-field property as the spec words it: a parsable response
    that lacks the field of a key leaves the mirrored entry of that key as
    it was before the query. *)
Definition stated_absent_field_unchanged (E : Env) (c : Component) (s : St Comp) : Prop :=
  ∀ s', _queryConfiguration_of E c s = Ok tt s' →
  ∃ new, trace s' = trace s ++ new ∧
    ∀ attr_name key field dflt who inv o rsp,
      (attr_name, key, field, dflt) ∈ query_fields c →
      EvCall who inv o ∈ new → inv_attr inv = attr_name →
      rspInfo o = Some rsp → rsp !! field = None →
      configuration (obj s') !! key = configuration (obj s) !! key.

(** Hardware whose responses parse and carry no field at all. *)
Definition silent : Env :=
  mkEnv (λ _ _, mkOut true true (Some ∅) (λ _, VNone)) (λ _, None) (λ m, m).

Definition tuned_tuner : Comp :=
  mkComp "Tuner" 1 None (Some "transport") (Some "callback")
    {[ TUNER_FREQUENCY := VFloat 100e6 ]} [].

(** What a row of [query_fields] says about the wirings. *)
Definition row_ok (qs : list Query) (row : string * Key * Key * Value) : Prop :=
  let '(attr_name, key, field, dflt) := row in
  ∃ q, q ∈ qs ∧ q_attr q = attr_name ∧
    (∀ rsp, rsp !! field = None →
            ∃ kvs, q_store q rsp = Val kvs ∧ mirror kvs ∅ !! key = Some dflt) ∧
    (∀ q' rsp' kvs', q' ∈ qs → q_attr q' ≠ attr_name →
                     q_store q' rsp' = Val kvs' → key ∉ kvs'.*1).

(** A transmitter class with two tone generators, and a request that sets
    the frequency of tone generator 1. *)
Definition two_tone_tx : _tx.Class :=
  _tx.mkClass (20e6, 6e9)%Q 1e6%Q 1e6%Q (0, 10)%Q 1%Q 2 (Some _cwToneGen.defaults) 1
    (Some "txf") (Some "txa") (Some "txp").

Definition tone_request : gmap Key Value :=
  {[ CONFIG_CW := VDict {[ 1%Z := {[ CW_FREQUENCY := VInt 1000 ]} ]} ]}.

(** A query round trip, by whichever component. *)
Definition query_call (ev : Event) : Prop :=
  ∃ w inv o, ev = EvCall w inv o ∧ inv_query inv = true.

(** The round trips of [calls] are those of the commands [invs], in that
    order, each sent by [me]. *)
Definition sent_by (me : Who) (calls : list Event) (invs : list Invocation) : Prop :=
  Forall2 (λ ev inv, ∃ o, ev = EvCall me inv o) calls invs.

(** The command of a query wiring: none when the class does not define
    the command. *)
Definition query_of (attr_name : string) (xxxCmd : option CmdClass)
    (args : gmap Key Value) (cb : option Callback) : list Invocation :=
  match xxxCmd with
  | Some c => [mkInv attr_name c true args cb]
  | None => []
  end.

(** The commands of a tone generator's query: [toneCmd], then [sweepCmd],
    each with the indices of the tone generator and of its transmitter. *)
Definition tone_queries (cw : _cwToneGen.Class) (me : Comp) (cb : option Callback)
    : list Invocation :=
  match parent me with
  | Some p =>
      let args : gmap Key Value := {[ CW_INDEX := VInt (index me); TX_INDEX := VInt p.2 ]} in
      query_of "toneCmd" (_cwToneGen.toneCmd cw) args cb
      ++ query_of "sweepCmd" (_cwToneGen.sweepCmd cw) args cb
  | None => []
  end.

(** The events a tone generator leaves when the transport reaches it: its
    attachment, then the round trips of its own query, one per query
    command its class defines, sent through the callback it has just
    received. *)
Definition child_segment (t : Transport) (cb : Callback)
    (child : Z * _tx.ToneGen) (seg : list Event) : Prop :=
  let me := _tx.tg_obj child.2 in
  ∃ calls, seg = EvAttach (who me) t cb :: calls ∧
    sent_by (who me) calls (tone_queries (_tx.tg_class child.2) me (Some cb)).

(** The commands of a transmitter's own query: [tpwrCmd], [frqCmd], then
    [attCmd], each with the index of the transmitter. *)
Definition tx_queries (cls : _tx.Class) (me : Comp) (cb : option Callback)
    : list Invocation :=
  let args : gmap Key Value := {[ TX_INDEX := VInt (index me) ]} in
  query_of "tpwrCmd" (_tx.tpwrCmd cls) args cb
  ++ query_of "frqCmd" (_tx.frqCmd cls) args cb
  ++ query_of "attCmd" (_tx.attCmd cls) args cb.

(** A computation that only appends events satisfying [P] to the trace. *)
Definition emits {S A} (P : Event → Prop) (m : M (St S) A) : Prop :=
  ∀ s, ∃ evs, trace (state_of (m s)) = trace s ++ evs ∧ Forall P evs.

(** The attributes a query leaves alone. *)
Definition same_identity (c c' : Comp) : Prop :=
  _name c' = _name c ∧ index c' = index c ∧ parent c' = parent c ∧
  transport c' = transport c ∧ callback c' = callback c.

(** A round trip of a query made by [me] through callback [cb]. *)
Definition query_call_by (me : Who) (cb : option Callback) (ev : Event) : Prop :=
  ∃ inv o, ev = EvCall me inv o ∧ inv_query inv = true ∧ inv_callback inv = cb.

(** A computation on a tone generator that returns, appends only query
    round trips of that tone generator, and keeps its identity. *)
Definition child_runs {A} (m : M (St Comp) A) : Prop :=
  ∀ s, is_Some (parent (obj s)) →
    ∃ a s' calls, m s = Ok a s' ∧ trace s' = trace s ++ calls ∧
      same_identity (obj s) (obj s') ∧
      Forall (query_call_by (who (obj s)) (callback (obj s))) calls.

(** A tone generator after the transport has reached it. *)
Definition attached (t : Transport) (cb : Callback) (ig ig' : Z * _tx.ToneGen) : Prop :=
  ig'.1 = ig.1 ∧ transport (_tx.tg_obj ig'.2) = Some t ∧
  callback (_tx.tg_obj ig'.2) = Some cb.

(** The transmitter that [__init__] builds for [two_tone_tx]. *)
Definition tx1 : _tx.Obj :=
  let me := mkComp "TX" 1 None None (Some "callback") ∅ [] in
  _tx.mkObj me
    [ (1%Z, _tx.mkToneGen _cwToneGen.defaults
              (mkComp "CWToneGen" 1 (Some (who me)) None (Some "callback") ∅ []));
      (2%Z, _tx.mkToneGen _cwToneGen.defaults
              (mkComp "CWToneGen" 2 (Some (who me)) None (Some "callback") ∅ [])) ].

(** ** Vocabulary of the statements about whole calls *)

(** Whether an event counts against the accumulated flag [ret]: a round
    trip does when the command failed. *)
Definition call_ok (ev : Event) : bool :=
  match ev with EvCall _ _ o => cmd_ok o | _ => true end.

(** The events begin with a round trip whose command failed. *)
Definition first_call_failed (evs : list Event) : bool :=
  match evs with
  | EvCall _ _ o :: _ => negb (cmd_ok o)
  | _ => false
  end.

(** A round trip of a set command made by [me] through callback [cb]. *)
Definition set_call_by (me : Who) (cb : option Callback) (ev : Event) : Prop :=
  ∃ inv o, ev = EvCall me inv o ∧ inv_query inv = false ∧ inv_callback inv = cb.

(** The keys a request must hold for some wiring of [_setConfiguration] to
    run: the keys its guards test. *)
Definition wired_keys (c : Component) : list Key :=
  match c with
  | Tuner _ =>
      [ENABLE; TUNER_FREQUENCY; TUNER_ATTENUATION; TUNER_RF_ATTENUATION; TUNER_AGP;
       TUNER_FILTER; TUNER_TIMING_ADJ]
  | Ddc _ => DDC_DATA_PORT :: DDC_FREQUENCY_OFFSET :: _ddc.cfg_keys
  | Duc _ => _duc.cfg_keys ++ _duc.tx_keys
  end.

(** The keys [_setConfiguration] assigns in the mirrored map. *)
Definition mirrored_keys (c : Component) : list Key :=
  match c with
  | Tuner _ =>
      [ENABLE; TUNER_FREQUENCY; TUNER_ATTENUATION; TUNER_RF_ATTENUATION; TUNER_AGP;
       TUNER_FILTER; TUNER_TIMING_ADJ]
  | Ddc _ => DDC_DATA_PORT :: DDC_FREQUENCY_OFFSET :: _ddc.cfg_keys
  | Duc _ => _duc.cfg_keys
  end.

(** A request that holds the file name of a snapshot and nothing else. *)
Definition file_name_only : gmap Key Value := {[ DUC_FILENAME := VStr "tone.bin" ]}.


Definition enable_and_no_frequency : gmap Key Value :=
  {[ ENABLE := VInt 1; TUNER_FREQUENCY := VNone ]}.

(** ** Vocabulary of the statements about queries *)

(** What the query wiring of [key] stores when the response holds [v] in
    the field of that key: the tuner's frequency and the DDC's frequency
    offset are multiplied by [frqUnits], the other fields are stored as they
    come. *)
Definition stored_for (c : Component) (key : Key) (v : Value) : pyres Value :=
  match c, key with
  | Tuner cls, TUNER_FREQUENCY => scale_or_None v (_tuner.frqUnits cls)
  | Ddc cls, DDC_FREQUENCY_OFFSET => scale_or_None v (_ddc.frqUnits cls)
  | _, _ => Val v
  end.

(** The class attribute through which the command of a round trip was
    reached. *)
Definition event_attr (ev : Event) : string :=
  match ev with EvCall _ inv _ => inv_attr inv | _ => EmptyString end.

(** The keys that the query wirings of a component assign. *)
Definition queried_keys (c : Component) : list Key :=
  (λ row : string * Key * Key * Value, row.1.1.2) <$> query_fields c.

(** The query wirings whose command the class defines. *)
Definition defined_queries (c : Component) : list Query :=
  filter (λ q, is_Some (q_cmd q)) (queries_of c).

(** What a row of [query_fields] says about a response that holds the
    field. *)
Definition row_present (c : Component) (row : string * Key * Key * Value) : Prop :=
  let '(attr_name, key, field, _) := row in
  ∃ q, q ∈ queries_of c ∧ q_attr q = attr_name ∧
    (∀ rsp v kvs, rsp !! field = Some v → q_store q rsp = Val kvs →
                  ∃ v', stored_for c key v = Val v' ∧ mirror kvs ∅ !! key = Some v') ∧
    (∀ q' rsp' kvs', q' ∈ queries_of c → q_attr q' ≠ attr_name →
                     q_store q' rsp' = Val kvs' → key ∉ kvs'.*1).

(** A tuner whose hardware reports 2450 (MHz) as frequency and nothing
    else. *)
Definition reporting_2450 : Env :=
  mkEnv (λ _ _, mkOut true true (Some {[ TUNER_FREQUENCY := VInt 2450 ]}) (λ _, VNone))
        (λ _, None) (λ m, m).

(** ** Vocabulary of the statements about transmitters *)

(** A tone generator as [_tx.__init__] builds it for a transmitter with
    index [tx]: its index is its key, its parent is the transmitter, it has
    the callback of the transmitter and no transport. *)
Definition fresh_child (cw : _cwToneGen.Class) (tx : Z) (cb : option Callback)
    (ig : Z * _tx.ToneGen) : Prop :=
  _tx.tg_class ig.2 = cw ∧
  _name (_tx.tg_obj ig.2) = _cwToneGen.name cw ∧
  index (_tx.tg_obj ig.2) = ig.1 ∧
  parent (_tx.tg_obj ig.2) = Some ("TX", tx) ∧
  callback (_tx.tg_obj ig.2) = cb ∧
  transport (_tx.tg_obj ig.2) = None.

(** A tone generator that holds transport [t] and callback [cb] and is
    otherwise as it was. *)
Definition wired_child (t : Transport) (cb : Callback) (ig ig' : Z * _tx.ToneGen) : Prop :=
  ig'.1 = ig.1 ∧ _tx.tg_class ig'.2 = _tx.tg_class ig.2 ∧
  _tx.tg_obj ig'.2 = set_callback (Some cb) (set_transport (Some t) (_tx.tg_obj ig.2)).

(** A tone generator without a parent. *)
Definition orphan_tone : Comp :=
  mkComp "CWToneGen" 1 None (Some "transport") (Some "callback") ∅ [].

(** A transmitter class that asks for two tone generators and names no
    tone generator type. *)
Definition typeless_tx : _tx.Class :=
  _tx.mkClass (20e6, 6e9)%Q 1e6%Q 1e6%Q (0, 10)%Q 1%Q 2 None 1
    (Some "txf") (Some "txa") (Some "txp").

(** A set round trip made by tone generator [ig], which the request names. *)
Definition named_child_call (d : gmap Z (gmap Key Value)) (kids : list (Z * _tx.ToneGen))
    (ev : Event) : Prop :=
  ∃ ig inv o, ig ∈ kids ∧ is_Some (d !! ig.1) ∧
    ev = EvCall (who (_tx.tg_obj ig.2)) inv o ∧ inv_query inv = false.

(** A tone generator after the transmitter has processed a request: it
    keeps its key, class and identity, and is unchanged when the request
    does not name it. *)
Definition kept_child (d : gmap Z (gmap Key Value)) (ig ig' : Z * _tx.ToneGen) : Prop :=
  ig'.1 = ig.1 ∧ _tx.tg_class ig'.2 = _tx.tg_class ig.2 ∧
  same_identity (_tx.tg_obj ig.2) (_tx.tg_obj ig'.2) ∧
  (d !! ig.1 = None → ig' = ig).

(** A request for tone generators 2 and 7 of a transmitter that has tone
    generators 1 and 2. *)
Definition tones_2_and_7 : gmap Key Value :=
  {[ CONFIG_CW := VDict {[ 2%Z := {[ CW_FREQUENCY := VInt 1000 ]};
                           7%Z := {[ CW_FREQUENCY := VInt 2000 ]} ]} ]}.

(** ** Vocabulary of the statements about the rate methods *)

(** A list of integers in strictly increasing order. *)
Definition ascending (l : list Z) : Prop :=
  ∀ (i j : nat) (a b : Z), (i < j)%nat → l !! i = Some a → l !! j = Some b → (a < b)%Z.

(** Strictly increasing, in the form that is easy to extend. *)
Inductive increasing : list Z → Prop :=
  | increasing_nil : increasing []
  | increasing_cons (h : Z) (t : list Z) :
      Forall (λ x, (h < x)%Z) t → increasing t → increasing (h :: t).

(** [vs] lists the values of [d] by increasing key. *)
Definition values_by_key (d : gmap Z Q) (vs : list Q) : Prop :=
  ∃ keys, ascending keys ∧ (∀ k, k ∈ keys ↔ is_Some (d !! k)) ∧
          Forall2 (λ k v, d !! k = Some v) keys vs.

(** The rate and bandwidth sets of the NDR318A wideband DDC
    ([radios/ndr318.py]), and a rate set that has an index more. *)
Definition ndr318a_wbddc : _ddc'.Class := {|
  _ddc'.rateSet := {[ 0%Z := 61.44e6%Q; 1%Z := 30.72e6%Q; 2%Z := 15.36e6%Q;
                      3%Z := 122.88e6%Q; 4%Z := 7.68e6%Q; 5%Z := 3.84e6%Q ]};
  _ddc'.bwSet := {[ 0%Z := (0.8 * 61.44e6)%Q; 1%Z := (0.8 * 30.72e6)%Q;
                    2%Z := (0.8 * 15.36e6)%Q; 3%Z := (0.8 * 122.88e6)%Q;
                    4%Z := (0.8 * 7.68e6)%Q; 5%Z := (0.8 * 3.84e6)%Q ]};
  _ddc'.dataFormat := ∅ |}.

Definition one_more_rate (index : option Z) : gmap Z Q :=
  <[ 6%Z := 1.92e6%Q ]> (_ddc'.rateSet ndr318a_wbddc).

(** ** Vocabulary of the statements about groups *)

Definition group_call_ok (ev : groups.Event) : bool :=
  match ev with groups.EvCall _ _ o => cmd_ok o end.

(** The set command for member [j] of a group when the request lists the
    members [l], and the query command for member [j]. *)
Definition member_command (kind : groups.Kind) (c : CmdClass) (me : groups.Obj)
    (l : list Z) (j : Z) : groups.Invocation :=
  groups.mkInv "groupMemberCmd" c false
    {[ inl INDEX := VInt (groups.index me);
       groups.set_member_key kind := VInt j;
       inl ENABLE := VInt (if bool_decide (j ∈ l) then 1 else 0) ]}
    (groups.callback me).

Definition member_query (kind : groups.Kind) (c : CmdClass) (me : groups.Obj) (j : Z)
    : groups.Invocation :=
  groups.mkInv "groupMemberCmd" c true
    {[ inl INDEX := VInt (groups.index me); groups.query_member_key kind := VInt j ]}
    (groups.callback me).

(** A round trip of [me] with command [inv]. *)
Definition group_call (me : groups.Obj) (inv : groups.Invocation) (ev : groups.Event)
    : Prop :=
  ∃ o, ev = groups.EvCall (groups.who me) inv o.

(** Whether the response of a round trip parses and holds a true value
    under [ENABLE]. *)
Definition reports_enabled (ev : groups.Event) : bool :=
  match ev with
  | groups.EvCall _ _ o =>
      match rspInfo o with
      | Some rsp => groups.truthy (get rsp ENABLE (VBool false))
      | None => false
      end
  end.

(** The indices whose round trip reports the member as enabled. *)
Definition enabled_members (indices : list Z) (calls : list groups.Event) : list Z :=
  (filter (λ p : Z * groups.Event, reports_enabled p.2 = true) (zip indices calls)).*1.

(** The attributes of a group object that no command changes. *)
Definition same_group (me me' : groups.Obj) : Prop :=
  groups._name me' = groups._name me ∧ groups.index me' = groups.index me ∧
  groups.callback me' = groups.callback me.

(** A group of four members, its object, hardware that accepts every
    command, and a request that lists member 2 and a member the group does
    not have. *)
Definition four_members : groups.Class := groups.mkClass 1 4 (Some "wbg") (Some "wbge").

Definition group1 : groups.Obj := groups.mkObj "WBDDCGroup" 1 (Some "callback") ∅ [].

Definition group_accepting : groups.Env :=
  groups.mkEnv (λ _ _, accepted (VInt 1)) (λ m, m).

Definition members_2_and_9 : gmap groups.AnyKey Value :=
  {[ groups.members_key groups.ddc_group := VList [2%Z; 9%Z] ]}.

Definition members_as_text : gmap groups.AnyKey Value :=
  {[ groups.members_key groups.ddc_group := VStr "1,2" ]}.

(** * Lemmas and theorems *)

(** ** Rounding and the decimal logarithm *)

Section NumericFacts.
Local Open Scope Q_scope.

Lemma Qltb_lt x y : Qltb x y = true ↔ x < y.
Proof.
  unfold Qltb. rewrite negb_true_iff.
  destruct (Qle_bool y x) eqn:Hb.
  - apply Qle_bool_iff in Hb. split; [discriminate | intros; lra].
  - split; [intros _ | reflexivity].
    apply Qnot_le_lt. intros Hle. apply Qle_bool_iff in Hle. congruence.
Qed.


Lemma rint_near x : inject_Z (rint x) - (1 # 2) <= x ∧ x <= inject_Z (rint x) + (1 # 2).
Proof.
  unfold rint. pose proof (Qfloor_le x) as Hlo. pose proof (Qlt_floor x) as Hhi.
  rewrite inject_Z_plus in Hhi. change (inject_Z 1) with 1 in Hhi.
  destruct (Qcompare_spec (x - inject_Z (Qfloor x)) (1 # 2)) as [He|Hl|Hg].
  - destruct (Z.even (Qfloor x)).
    + lra.
    + rewrite inject_Z_plus. change (inject_Z 1) with 1. lra.
  - lra.
  - rewrite inject_Z_plus. change (inject_Z 1) with 1. lra.
Qed.

Lemma rint_tie_even x :
  Qabs (inject_Z (rint x) - x) == 1 # 2 → Z.even (rint x) = true.
Proof.
  unfold rint. pose proof (Qfloor_le x) as Hlo. pose proof (Qlt_floor x) as Hhi.
  rewrite inject_Z_plus in Hhi. change (inject_Z 1) with 1 in Hhi.
  destruct (Qcompare_spec (x - inject_Z (Qfloor x)) (1 # 2)) as [He|Hl|Hg].
  - destruct (Z.even (Qfloor x)) eqn:Hev; [done|].
    intros _. rewrite Z.even_add, Hev. reflexivity.
  - intros Habs. exfalso. revert Habs. apply Qabs_case; intros; lra.
  - rewrite inject_Z_plus. change (inject_Z 1) with 1.
    intros Habs. exfalso. revert Habs. apply Qabs_case; intros; lra.
Qed.

Lemma rint_between (a b : Z) x :
  inject_Z a <= x → x <= inject_Z b → (a ≤ rint x ≤ b)%Z.
Proof.
  intros Ha Hb.
  assert (Hfa : (a ≤ Qfloor x)%Z).
  { rewrite <- (Qfloor_Z a). by apply Qfloor_resp_le. }
  assert (Hfb : (Qfloor x ≤ b)%Z).
  { rewrite <- (Qfloor_Z b). by apply Qfloor_resp_le. }
  unfold rint.
  destruct (Qcompare_spec (x - inject_Z (Qfloor x)) (1 # 2)) as [He|Hl|Hg].
  - destruct (Z.even (Qfloor x)); [lia|].
    destruct (decide (Qfloor x = b)) as [Heq|]; [|lia].
    exfalso. rewrite Heq in He. lra.
  - lia.
  - destruct (decide (Qfloor x = b)) as [Heq|]; [|lia].
    exfalso. rewrite Heq in Hg. lra.
Qed.

Lemma rint_comp x y : x == y → rint x = rint y.
Proof.
  intros Hxy. unfold rint. rewrite (Qfloor_comp _ _ Hxy).
  assert (Hc : (x - inject_Z (Qfloor y) ?= 1 # 2) = (y - inject_Z (Qfloor y) ?= 1 # 2)).
  { apply Qcompare_comp; [by rewrite Hxy | reflexivity]. }
  by rewrite Hc.
Qed.

Lemma rint_Z (z : Z) : rint (inject_Z z) = z.
Proof.
  pose proof (rint_between z z (inject_Z z)) as Hb.
  assert (inject_Z z <= inject_Z z) as Hle by lra. specialize (Hb Hle Hle). lia.
Qed.









Lemma clamp_agree (v lo hi : Q) : lo <= hi → clampA v lo hi = clampF v lo hi.
Proof.
  intros Hle. unfold clampA, clampF, py_min, py_max.
  destruct (Qltb v lo) eqn:H1.
  - apply Qltb_lt in H1.
    destruct (Qltb hi lo) eqn:H2; [apply Qltb_lt in H2; lra|].
    destruct (Qltb hi v) eqn:H3; [apply Qltb_lt in H3; lra|done].
  - done.
Qed.

End NumericFacts.

(** ** The blocks of [_setConfiguration] *)

Section EngineFacts.
Variable E : Env.

Lemma mirror_cons k v kvs m : mirror ((k, v) :: kvs) m = mirror kvs (<[k := v]> m).
Proof. reflexivity. Qed.

Lemma assign_all_eq (kvs : list (Key * Value)) : ∀ s : St Comp,
  assign_all kvs s = Ok tt (mkSt (set_configuration (mirror kvs) (obj s)) (trace s)).
Proof.
  induction kvs as [|[k v] kvs IH]; intros [[n i p t cb cfg errs] tr].
  - reflexivity.
  - cbn [assign_all]. unfold mbind, M_bind, assign, update, modify at 1.
    rewrite IH. reflexivity.
Qed.

Lemma set_wiring_eq (w : Wiring) (ret : bool) (s : St Comp) :
  set_wiring E w ret s = Ok (ret && cmd_ok (outcome E s w)) (issued E w ret s).
Proof.
  destruct s as [[n i p t cb cfg errs] tr].
  unfold set_wiring, construct, send, emit, self, gets, modify, mbind, M_bind, mret, M_ret.
  cbn -[assign_all mirror].
  unfold outcome, issued, cmd_ok, entry, call, invocation_of, outcome. cbn -[assign_all mirror].
  set (o := hw E tr _).
  destruct ret, (send_ret o), (success o); cbn -[assign_all mirror]; try reflexivity.
  rewrite assign_all_eq. reflexivity.
Qed.

Lemma run_block_eq (b : Block) (w : Wiring) (ret : bool) (s : St Comp) :
  b (obj s) = Val w →
  run_block E b ret s = Ok (ret && cmd_ok (outcome E s w)) (issued E w ret s).
Proof.
  intros Hb. unfold run_block, self, gets, mbind, M_bind, lift. cbn.
  rewrite Hb. apply set_wiring_eq.
Qed.

Lemma run_block_raise (b : Block) (e : exn) (ret : bool) (s : St Comp) :
  b (obj s) = Exc e → run_block E b ret s = Raise e s.
Proof.
  intros Hb. unfold run_block, self, gets, mbind, M_bind, lift. cbn.
  by rewrite Hb.
Qed.

Lemma run_blocks_app (l1 l2 : list Block) : ∀ (ret : bool) (s : St Comp),
  run_blocks E (l1 ++ l2) ret s
  = match run_blocks E l1 ret s with
    | Ok r s' => run_blocks E l2 r s'
    | Raise e s' => Raise e s'
    end.
Proof.
  induction l1 as [|b l1 IH]; intros ret s; [reflexivity|].
  cbn [app run_blocks]. unfold mbind, M_bind.
  destruct (run_block E b ret s); [apply IH | reflexivity].
Qed.

Lemma guarded_blocks (present : bool) (xxxCmd : option CmdClass)
    (block : CmdClass → Block) (ret : bool) (s : St Comp) :
  guarded E present xxxCmd block ret s = run_blocks E (optional present xxxCmd block) ret s.
Proof.
  unfold guarded, optional. destruct present, xxxCmd; try reflexivity.
  cbn [run_blocks]. unfold mbind, M_bind.
  by destruct (run_block E (block c) ret s).
Qed.

Lemma _setConfiguration_blocks (c : Component) (confDict : gmap Key Value) (s : St Comp) :
  _setConfiguration_of E c confDict s = run_blocks E (blocks_of E c confDict) true s.
Proof.
  destruct c as [cls|cls|cls]; cbn [_setConfiguration_of blocks_of];
    unfold _tuner._setConfiguration, _ddc._setConfiguration, _duc._setConfiguration;
    generalize true; revert s;
    repeat (intros s ret; rewrite run_blocks_app, <- guarded_blocks;
            unfold mbind at 1, M_bind at 1;
            destruct (guarded _ _ _ _ _ s) as [ret' s'|]; [|reflexivity];
            revert s' ret'; clear s ret);
    intros s ret; rewrite <- guarded_blocks; unfold mbind, M_bind;
    by destruct (guarded _ _ _ _ _ s).
Qed.

End EngineFacts.

(** ** Partial failure *)

Section PartialFailure.
Variable E : Env.

Lemma failures_one (a b c : Diag) :
  failed a = false → failed b = true → failed c = false → failures [a; b; c] = [b].
Proof.
  intros Ha Hb Hc. unfold failures.
  rewrite filter_cons_False by (rewrite Ha; discriminate).
  rewrite filter_cons_True by done.
  rewrite filter_cons_False by (rewrite Hc; discriminate).
  reflexivity.
Qed.

Lemma failed_entry (s : St Comp) (w : Wiring) :
  failed (entry E s w) = negb (cmd_ok (outcome E s w)).
Proof. reflexivity. Qed.

Lemma run_three_blocks (c : Component)
    (confDict : gmap Key Value) (s : St Comp)
    (bA bB bC : Block) (A B C : Wiring) :
  blocks_of E c confDict = [bA; bB; bC] →
  bA (obj s) = Val A → cmd_ok (outcome E s A) = true →
  let s1 := issued E A true s in
  bB (obj s1) = Val B → cmd_ok (outcome E s1 B) = false →
  let s2 := issued E B true s1 in
  bC (obj s2) = Val C → cmd_ok (outcome E s2 C) = true →
  ∃ s', _setConfiguration_of E c confDict s = Ok false s' ∧
    configuration (obj s') = mirror (w_mirror A (outcome E s A)) (configuration (obj s)) ∧
    trace s' = trace s ++ [call E s A; call E s1 B; call E s2 C] ∧
    cmdErrorInfo (obj s')
    = cmdErrorInfo (obj s) ++ [entry E s A; entry E s1 B; entry E s2 C] ∧
    failures [entry E s A; entry E s1 B; entry E s2 C] = [entry E s1 B].
Proof.
  intros Hbs HA HokA s1 HB HokB s2 HC HokC.
  exists (issued E C false s2).
  rewrite _setConfiguration_blocks, Hbs. cbn [run_blocks].
  unfold mbind, M_bind.
  rewrite (run_block_eq E bA A true s HA), HokA. cbn [andb]. fold s1.
  rewrite (run_block_eq E bB B true s1 HB), HokB. cbn [andb]. fold s2.
  rewrite (run_block_eq E bC C false s2 HC). cbn [andb].
  split; [reflexivity|].
  split.
  { subst s2 s1. unfold issued at 1. cbn [obj configuration andb].
    unfold issued at 1. cbn [obj configuration]. rewrite HokB. cbn [andb].
    unfold issued at 1. cbn [obj configuration]. by rewrite HokA. }
  split.
  { subst s2 s1. unfold issued. cbn [trace]. by rewrite <- !app_assoc. }
  split.
  { subst s2 s1. unfold issued. cbn [obj cmdErrorInfo]. by rewrite <- !app_assoc. }
  apply failures_one; rewrite failed_entry.
  - by rewrite HokA.
  - by rewrite HokB.
  - by rewrite HokC.
Qed.

(** Claim C1, amended.  When a call to [_setConfiguration] of a tuner, a
    DDC or a DUC reaches three wirings [A], [B], [C] in that order, [B]
    fails and [A] and [C] succeed, then the three commands are issued in
    that order, the call returns [false], the mirrored map carries the
    assignments of [A] and no other change - the assignments of [C] are
    skipped, because the guard [if ret:] tests the accumulated flag - and of
    the three diagnostic entries the call adds exactly one is a failure,
    that of [B]. *)
Theorem partial_failure_gates_later_mirrors (c : Component)
    (confDict : gmap Key Value) (s : St Comp)
    (bA bB bC : Block) (A B C : Wiring) :
  blocks_of E c confDict = [bA; bB; bC] →
  bA (obj s) = Val A → cmd_ok (outcome E s A) = true →
  let s1 := issued E A true s in
  bB (obj s1) = Val B → cmd_ok (outcome E s1 B) = false →
  let s2 := issued E B true s1 in
  bC (obj s2) = Val C → cmd_ok (outcome E s2 C) = true →
  ∃ s', _setConfiguration_of E c confDict s = Ok false s' ∧
    configuration (obj s') = mirror (w_mirror A (outcome E s A)) (configuration (obj s)) ∧
    trace s' = trace s ++ [call E s A; call E s1 B; call E s2 C] ∧
    cmdErrorInfo (obj s')
    = cmdErrorInfo (obj s) ++ [entry E s A; entry E s1 B; entry E s2 C] ∧
    failures [entry E s A; entry E s1 B; entry E s2 C] = [entry E s1 B].
Proof. apply run_three_blocks. Qed.

End PartialFailure.

(** The hypotheses of the theorem hold for a tuner asked for enable,
    frequency and attenuation when the hardware rejects the frequency
    command. *)
Lemma partial_failure_gates_later_mirrors_witness :
  ∃ s', _tuner._setConfiguration (rejecting "frqCmd") _tuner.defaults
          enable_frequency_attenuation (mkSt tuner1 []) = Ok false s' ∧
        configuration (obj s') !! ENABLE = Some (VInt 1) ∧
        configuration (obj s') !! TUNER_ATTENUATION = None ∧
        length (trace s') = 3%nat ∧
        length (failures (cmdErrorInfo (obj s'))) = 1%nat.
Proof.
  destruct (partial_failure_gates_later_mirrors (rejecting "frqCmd")
              (Tuner _tuner.defaults) enable_frequency_attenuation (mkSt tuner1 [])
              _ _ _ _ _ _ eq_refl eq_refl eq_refl eq_refl eq_refl eq_refl eq_refl)
    as (s' & Hrun & Hcfg & Htr & Herr & Hfail).
  exists s'. split; [exact Hrun|].
  rewrite Hcfg, Htr, Herr. repeat split; vm_compute; reflexivity.
Defined.

(** Claim C1 as the spec states it fails on that tuner: the attenuation
    command succeeds and the mirrored map has no attenuation entry. *)
Lemma partial_failure_counterexample :
  ¬ stated_partial_failure (rejecting "frqCmd") (Tuner _tuner.defaults)
      enable_frequency_attenuation (mkSt tuner1 []).
Proof.
  intros Hclaim.
  destruct (Hclaim _ _ _ _ _ _ eq_refl eq_refl eq_refl eq_refl eq_refl eq_refl eq_refl)
    as (s' & Hrun & Hcfg & _).
  destruct (run_three_blocks (rejecting "frqCmd") (Tuner _tuner.defaults)
              enable_frequency_attenuation (mkSt tuner1 [])
              _ _ _ _ _ _ eq_refl eq_refl eq_refl eq_refl eq_refl eq_refl eq_refl)
    as (s'' & Hrun' & Hcfg' & _).
  rewrite Hrun in Hrun'. injection Hrun' as <-.
  rewrite Hcfg in Hcfg'.
  apply (f_equal (λ m, m !! TUNER_ATTENUATION)) in Hcfg'.
  vm_compute in Hcfg'. discriminate Hcfg'.
Qed.

(** ** The concrete tuner scenario *)

Section Scenario.
Variable E : Env.

Lemma issued_trace (w : Wiring) (gate : bool) (s : St Comp) :
  trace (issued E w gate s) = trace s ++ [call E s w].
Proof. reflexivity. Qed.

Lemma issued_configuration (w : Wiring) (gate : bool) (s : St Comp) :
  configuration (obj (issued E w gate s))
  = if gate && cmd_ok (outcome E s w)
    then mirror (w_mirror w (outcome E s w)) (configuration (obj s))
    else configuration (obj s).
Proof. reflexivity. Qed.

Lemma issued_index (w : Wiring) (gate : bool) (s : St Comp) :
  index (obj (issued E w gate s)) = index (obj s).
Proof. reflexivity. Qed.

Lemma scenario_frequency :
  ∃ f, adjustFrequency (inject_Z 2450000001) (_tuner.frqRange _tuner.defaults)
         (_tuner.frqRes _tuner.defaults) (_tuner.frqUnits _tuner.defaults) = Val f
       ∧ (f * _tuner.frqUnits _tuner.defaults == 2450000000)%Q.
Proof. eexists. split; [vm_compute; reflexivity | reflexivity]. Qed.

Lemma scenario_attenuation :
  ∃ a, adjustAttenuation 31.4 (_tuner.attRange _tuner.defaults)
         (_tuner.attRes _tuner.defaults) 1 = Val a ∧ (a == 30)%Q.
Proof. eexists. split; [vm_compute; reflexivity | reflexivity]. Qed.

(** Claim C7.  On the class attributes of [_tuner] (frequency range
    [[20e6, 3e9]], resolution and units [1e6], attenuation range [[0, 30]],
    resolution 1), a call requesting frequency 2450000001 and attenuation
    31.4 whose round trips all succeed returns [true] and leaves the
    mirrored frequency equal to 2450000000 and the mirrored attenuation
    equal to 30, for every hardware, hook and prior state. *)
Theorem tuner_scenario_mirrors_adjusted_values (s : St Comp) :
  let r := _tuner._setConfiguration E _tuner.defaults scenario_request s in
  all_calls_ok (drop (length (trace s)) (trace (state_of r))) →
  ∃ s' f a, r = Ok true s' ∧
    configuration (obj s') !! TUNER_FREQUENCY = Some (VFloat f) ∧ (f == 2450000000)%Q ∧
    configuration (obj s') !! TUNER_ATTENUATION = Some (VFloat a) ∧ (a == 30)%Q.
Proof.
  destruct scenario_frequency as (f & Hf & Hfq).
  destruct scenario_attenuation as (a & Ha & Haq).
  intros r. subst r.
  change (_tuner._setConfiguration E _tuner.defaults scenario_request s)
    with (_setConfiguration_of E (Tuner _tuner.defaults) scenario_request s).
  rewrite _setConfiguration_blocks.
  change (blocks_of E (Tuner _tuner.defaults) scenario_request)
    with [_tuner.frq_block E _tuner.defaults scenario_request "frq";
          _tuner.att_block E _tuner.defaults scenario_request "att"].
  cbn [run_blocks]. unfold mbind, M_bind, mret, M_ret.
  pose (A := mkWiring "frqCmd" "frq"
               {[ INDEX := VInt (index (obj s)); TUNER_FREQUENCY := VFloat f ]}
               (λ _, [(TUNER_FREQUENCY, VFloat (f * _tuner.frqUnits _tuner.defaults))])).
  pose (B := mkWiring "attCmd" "att"
               {[ INDEX := VInt (index (obj s)); TUNER_ATTENUATION := VFloat a ]}
               (λ _, [(TUNER_ATTENUATION, VFloat a); (TUNER_RF_ATTENUATION, VFloat a)])).
  assert (HA : _tuner.frq_block E _tuner.defaults scenario_request "frq" (obj s) = Val A).
  { unfold _tuner.frq_block.
    change (get scenario_request TUNER_FREQUENCY (VInt 0)) with (VInt 2450000001).
    replace (py_float E (VInt 2450000001)) with (Val (inject_Z 2450000001) : pyres Q)
      by (vm_compute; reflexivity).
    cbn [mbind pyres_bind]. by rewrite Hf. }
  rewrite (run_block_eq E _ A true s HA). cbn [andb].
  assert (HB : _tuner.att_block E _tuner.defaults scenario_request "att"
                 (obj (issued E A true s)) = Val B).
  { unfold _tuner.att_block.
    change (get scenario_request TUNER_RF_ATTENUATION
              (get scenario_request TUNER_ATTENUATION (VInt 0))) with (VFloat 31.4).
    cbn [py_float mbind pyres_bind]. by rewrite Ha. }
  rewrite (run_block_eq E _ B _ _ HB).
  cbn [state_of]. rewrite !issued_trace, <- app_assoc, drop_app_length.
  cbn [app]. unfold all_calls_ok. intros Hok. apply Forall_cons_1 in Hok as [HokA Hok].
  apply Forall_cons_1 in Hok as [HokB _].
  change (cmd_ok (outcome E s A) = true) in HokA.
  change (cmd_ok (outcome E (issued E A true s) B) = true) in HokB.
  exists (issued E B (cmd_ok (outcome E s A)) (issued E A true s)),
    (f * _tuner.frqUnits _tuner.defaults)%Q, a.
  rewrite !issued_configuration, HokA, HokB. cbn [andb A B w_mirror mirror foldl fst snd].
  repeat split; [by simplify_map_eq | done | by simplify_map_eq | done].
Qed.

End Scenario.

(** The hypothesis of the theorem holds for hardware that accepts every
    command. *)
Lemma tuner_scenario_mirrors_adjusted_values_witness :
  ∃ s' f a,
    _tuner._setConfiguration accepting _tuner.defaults scenario_request (mkSt tuner1 [])
    = Ok true s' ∧
    configuration (obj s') !! TUNER_FREQUENCY = Some (VFloat f) ∧ (f == 2450000000)%Q ∧
    configuration (obj s') !! TUNER_ATTENUATION = Some (VFloat a) ∧ (a == 30)%Q.
Proof.
  apply (tuner_scenario_mirrors_adjusted_values accepting (mkSt tuner1 [])).
  vm_compute. repeat constructor.
Defined.

(** ** Snapshots on a DUC *)

Section Snapshot.
Variable E : Env.

Lemma has_key_getitem (d : gmap Key Value) (k : Key) :
  has_key d k = true → ∃ v, getitem d k = Val v.
Proof. unfold has_key, getitem. destruct (d !! k); [eauto | discriminate]. Qed.

Lemma no_key_getitem (d : gmap Key Value) (k : Key) :
  has_key d k = false → getitem d k = Exc (KeyError k).
Proof. unfold has_key, getitem. by destruct (d !! k). Qed.

(** The configuration wiring of a DUC, when it runs, adds one round trip
    through [cfgCmd] and does not raise. *)
Lemma duc_cfg_step (cls : _duc.Class) (confDict : gmap Key Value) (s : St Comp) :
  ∃ ret s0 pre,
    run_blocks E (optional (existsb (has_key confDict) _duc.cfg_keys) (_duc.cfgCmd cls)
                    (_duc.cfg_block confDict)) true s = Ok ret s0 ∧
    trace s0 = trace s ++ pre ∧
    Forall (λ ev, ∃ w inv o, ev = EvCall w inv o ∧ inv_attr inv = "cfgCmd") pre.
Proof.
  unfold optional.
  destruct (existsb _ _); [destruct (_duc.cfgCmd cls) as [c|]|].
  - cbn [run_blocks]. unfold mbind, M_bind, mret, M_ret.
    erewrite run_block_eq by reflexivity.
    eexists _, _, [_]. split; [reflexivity|]. split; [apply issued_trace|].
    apply Forall_singleton. by eexists _, _, _.
  - exists true, s, []. by rewrite app_nil_r.
  - exists true, s, []. by rewrite app_nil_r.
Qed.

(** Claim C5.  For a DUC class with both snapshot commands and a request
    holding the file name, the start sample, the number of samples and the
    single-playback flag, [_setConfiguration] returns, and the events it
    adds to the trace are the round trip of the configuration command, if
    that wiring runs, then the round trip of the load command, then the
    round trip of the transmit command: the transmit command is sent with
    the load command and its outcome already on the trace. *)
Theorem duc_load_precedes_transmit (cls : _duc.Class) (confDict : gmap Key Value)
    (s : St Comp) (load tx : CmdClass) :
  _duc.snapshotLoadCmd cls = Some load →
  _duc.snapshotTxCmd cls = Some tx →
  has_key confDict DUC_FILENAME = true →
  has_key confDict DUC_START_SAMPLE = true →
  has_key confDict DUC_SAMPLES = true →
  has_key confDict DUC_SINGLE_PLAYBACK = true →
  ∃ ret s' s0 gate pre L T,
    _duc._setConfiguration E cls confDict s = Ok ret s' ∧
    trace s0 = trace s ++ pre ∧
    Forall (λ ev, ∃ w inv o, ev = EvCall w inv o ∧ inv_attr inv = "cfgCmd") pre ∧
    w_attr L = "snapshotLoadCmd" ∧ w_cmd L = load ∧
    w_attr T = "snapshotTxCmd" ∧ w_cmd T = tx ∧
    trace s' = trace s0 ++ [call E s0 L; call E (issued E L gate s0) T].
Proof.
  intros Hload Htx Hfile Hstart Hsamples Hsingle.
  change (_duc._setConfiguration E cls confDict s)
    with (_setConfiguration_of E (Duc cls) confDict s).
  rewrite _setConfiguration_blocks. cbn [blocks_of].
  rewrite Hload, Htx. cbn [forallb existsb _duc.load_keys _duc.tx_keys].
  rewrite Hfile, Hstart, Hsamples. cbn [andb orb optional].
  rewrite run_blocks_app.
  destruct (duc_cfg_step cls confDict s) as (gate & s0 & pre & -> & Hpre & Hcfg).
  destruct (has_key_getitem _ _ Hfile) as [vf Hvf].
  destruct (has_key_getitem _ _ Hstart) as [vs Hvs].
  destruct (has_key_getitem _ _ Hsamples) as [vn Hvn].
  destruct (has_key_getitem _ _ Hsingle) as [vp Hvp].
  cbn [app run_blocks]. unfold mbind, M_bind, mret, M_ret.
  pose (L := mkWiring "snapshotLoadCmd" load
               {[ DUC_FILENAME := vf; DUC_INDEX := VInt (index (obj s0));
                  DUC_START_SAMPLE := vs; DUC_SAMPLES := vn ]}
               (λ _, [])).
  assert (HL : _duc.load_block confDict load (obj s0) = Val L).
  { unfold _duc.load_block. by rewrite Hvf, Hvs, Hvn. }
  rewrite (run_block_eq E _ L gate s0 HL).
  destruct (_duc.tx_block confDict tx (obj (issued E L gate s0))) as [T|e] eqn:HT;
    last first.
  { unfold _duc.tx_block in HT. by rewrite Hvs, Hvn, Hvp in HT. }
  assert (HTattr : w_attr T = "snapshotTxCmd" ∧ w_cmd T = tx).
  { unfold _duc.tx_block in HT. rewrite Hvs, Hvn, Hvp in HT.
    by injection HT as <-. }
  rewrite (run_block_eq E _ T _ _ HT).
  eexists _, _, s0, gate, pre, L, T.
  split; [reflexivity|]. split; [exact Hpre|]. split; [exact Hcfg|].
  split; [reflexivity|]. split; [reflexivity|].
  split; [apply HTattr|]. split; [apply HTattr|].
  rewrite !issued_trace, <- app_assoc. reflexivity.
Qed.

(** Claim C10.  For a DUC class with a transmit-snapshot command, a request
    that holds the single-playback key and lacks the start-sample key or
    the samples key makes [_setConfiguration] raise [KeyError], for that
    missing key, instead of returning. *)
Theorem duc_transmit_keys_raise_KeyError (cls : _duc.Class)
    (confDict : gmap Key Value) (s : St Comp) (tx : CmdClass) :
  _duc.snapshotTxCmd cls = Some tx →
  has_key confDict DUC_SINGLE_PLAYBACK = true →
  has_key confDict DUC_START_SAMPLE = false ∨ has_key confDict DUC_SAMPLES = false →
  ∃ k s', _duc._setConfiguration E cls confDict s = Raise (KeyError k) s' ∧
          (k = DUC_START_SAMPLE ∨ k = DUC_SAMPLES).
Proof.
  intros Htx Hsingle Hmissing.
  change (_duc._setConfiguration E cls confDict s)
    with (_setConfiguration_of E (Duc cls) confDict s).
  rewrite _setConfiguration_blocks. cbn [blocks_of].
  rewrite Htx. cbn [forallb existsb _duc.load_keys _duc.tx_keys].
  rewrite Hsingle.
  assert (Hskip : has_key confDict DUC_FILENAME
                  && (has_key confDict DUC_START_SAMPLE
                      && (has_key confDict DUC_SAMPLES && true)) = false).
  { destruct Hmissing as [H|H]; rewrite H;
      [by destruct (has_key confDict DUC_FILENAME)
      |by destruct (has_key confDict DUC_FILENAME), (has_key confDict DUC_START_SAMPLE)]. }
  rewrite Hskip.
  replace (has_key confDict DUC_START_SAMPLE
           || (has_key confDict DUC_SAMPLES || (true || false))) with true
    by (by destruct (has_key confDict DUC_START_SAMPLE), (has_key confDict DUC_SAMPLES)).
  cbn [optional app]. rewrite run_blocks_app.
  destruct (duc_cfg_step cls confDict s) as (gate & s0 & pre & -> & _ & _).
  cbn [run_blocks]. unfold mbind, M_bind.
  destruct (has_key confDict DUC_START_SAMPLE) eqn:Hstart.
  - destruct Hmissing as [? | Hsamples]; [discriminate|].
    destruct (has_key_getitem _ _ Hstart) as [vs Hvs].
    rewrite (run_block_raise E _ (KeyError DUC_SAMPLES)).
    + eauto.
    + unfold _duc.tx_block. by rewrite Hvs, (no_key_getitem _ _ Hsamples).
  - rewrite (run_block_raise E _ (KeyError DUC_START_SAMPLE)).
    + eauto.
    + unfold _duc.tx_block. by rewrite (no_key_getitem _ _ Hstart).
Qed.

End Snapshot.

(** The hypotheses of the theorem hold for a request that loads and plays. *)
Lemma duc_load_precedes_transmit_witness :
  ∃ ret s' s0 gate pre L T,
    _duc._setConfiguration accepting snapshot_duc load_and_play (mkSt duc1 []) = Ok ret s' ∧
    trace s0 = [] ++ pre ∧
    Forall (λ ev, ∃ w inv o, ev = EvCall w inv o ∧ inv_attr inv = "cfgCmd") pre ∧
    w_attr L = "snapshotLoadCmd" ∧ w_cmd L = "ducsl" ∧
    w_attr T = "snapshotTxCmd" ∧ w_cmd T = "ducst" ∧
    trace s' = trace s0 ++ [call accepting s0 L; call accepting (issued accepting L gate s0) T].
Proof.
  apply (duc_load_precedes_transmit accepting snapshot_duc load_and_play (mkSt duc1 [])
           "ducsl" "ducst"); reflexivity.
Defined.

(** The hypotheses of the theorem hold for a request with the
    single-playback key alone. *)
Lemma duc_transmit_keys_raise_KeyError_witness :
  ∃ k s', _duc._setConfiguration accepting snapshot_duc play_only (mkSt duc1 [])
          = Raise (KeyError k) s' ∧ (k = DUC_START_SAMPLE ∨ k = DUC_SAMPLES).
Proof.
  apply (duc_transmit_keys_raise_KeyError accepting snapshot_duc play_only (mkSt duc1 [])
           "ducst"); [reflexivity | reflexivity | left; reflexivity].
Defined.

(** ** Query wirings *)

Section Queries.
Variable E : Env.

Lemma mirror_lookup (kvs : list (Key * Value)) : ∀ (m : gmap Key Value) (k : Key),
  mirror kvs m !! k
  = match mirror kvs ∅ !! k with Some v => Some v | None => m !! k end.
Proof.
  induction kvs as [|[k' v'] kvs IH]; intros m k.
  - unfold mirror. cbn [foldl]. by rewrite lookup_empty.
  - rewrite !mirror_cons, (IH (<[k' := v']> m)), (IH (<[k' := v']> ∅)).
    destruct (mirror kvs ∅ !! k); [done|].
    destruct (decide (k' = k)) as [->|Hne].
    + by rewrite !lookup_insert_eq.
    + by rewrite !lookup_insert_ne, lookup_empty.
Qed.

Lemma mirror_frame (kvs : list (Key * Value)) (m : gmap Key Value) (k : Key) :
  k ∉ kvs.*1 → mirror kvs m !! k = m !! k.
Proof.
  revert m. induction kvs as [|[k' v'] kvs IH]; intros m Hk; [done|].
  rewrite mirror_cons, IH.
  - apply lookup_insert_ne. intros ->. apply Hk. cbn. left.
  - intros Hin. apply Hk. cbn. by right.
Qed.

(** One query wiring: it leaves the state alone when the class has no
    command for it; otherwise it adds one round trip and, when the response
    parses, stores what [q_store] makes of it. *)
Lemma query_wiring_inv (q : Query) (s s' : St Comp) :
  query_wiring E (q_attr q) (q_cmd q) (q_args q) (q_store q) s = Ok tt s' →
  s' = s ∨
  ∃ inv o, inv_attr inv = q_attr q ∧
    trace s' = trace s ++ [EvCall (who (obj s)) inv o] ∧
    match rspInfo o with
    | Some rsp => ∃ kvs, q_store q rsp = Val kvs ∧
                         configuration (obj s') = mirror kvs (configuration (obj s))
    | None => configuration (obj s') = configuration (obj s)
    end.
Proof.
  unfold query_wiring. destruct (q_cmd q) as [c|]; last first.
  { intros [= <-]. by left. }
  destruct s as [[n i p t cb cfg errs] tr].
  unfold mbind, M_bind, self, gets, lift. cbn [obj base Comp_BaseObject].
  destruct (q_args q _) as [kw|e]; [|discriminate].
  unfold construct, send, emit, self, gets, modify, mbind, M_bind, mret, M_ret,
    Configurable._addLastCommandErrorInfo, update.
  cbn [obj trace base with_base Comp_BaseObject callback set_cmdErrorInfo].
  set (inv := mkInv _ _ _ _ _). set (o := hw E tr inv).
  intros Hrun. right. exists inv, o. split; [reflexivity|].
  destruct (rspInfo o) as [rsp|].
  - unfold lift in Hrun. destruct (q_store q rsp) as [kvs|e]; [|discriminate].
    unfold modify in Hrun. rewrite assign_all_eq in Hrun. injection Hrun as <-.
    split; [reflexivity|]. exists kvs. by split.
  - unfold modify in Hrun. injection Hrun as <-. by split.
Qed.

Lemma run_queries_cons (q : Query) (qs : list Query) (s s' : St Comp) :
  run_queries E (q :: qs) s = Ok tt s' →
  ∃ s1, query_wiring E (q_attr q) (q_cmd q) (q_args q) (q_store q) s = Ok tt s1 ∧
        run_queries E qs s1 = Ok tt s'.
Proof.
  cbn [run_queries]. unfold mbind, M_bind.
  destruct (query_wiring _ _ _ _ _ s) as [[] s1|]; [|discriminate]. eauto.
Qed.

(** The round trips of a run belong to the wirings of the list. *)
Lemma run_queries_trace (qs : list Query) : ∀ s s' : St Comp,
  run_queries E qs s = Ok tt s' →
  ∃ new, trace s' = trace s ++ new ∧
    Forall (λ ev, ∃ w inv o q, ev = EvCall w inv o ∧ q ∈ qs ∧ inv_attr inv = q_attr q) new.
Proof.
  induction qs as [|q qs IH]; intros s s' Hrun.
  - injection Hrun as <-. exists []. by rewrite app_nil_r.
  - apply run_queries_cons in Hrun as (s1 & Hq & Hrest).
    destruct (IH _ _ Hrest) as (new' & Htr' & Hall').
    assert (Hall'' : Forall (λ ev, ∃ w inv o q0, ev = EvCall w inv o ∧ q0 ∈ q :: qs
                                    ∧ inv_attr inv = q_attr q0) new').
    { rewrite Forall_forall in Hall' |- *. intros ev Hev.
      destruct (Hall' ev Hev) as (w & inv & o & q0 & -> & Hin & Hattr).
      exists w, inv, o, q0. split; [done|]. split; [by right|done]. }
    destruct (query_wiring_inv q s s1 Hq) as [-> | (inv & o & Hattr & Htr & _)].
    + by exists new'.
    + exists (EvCall (who (obj s)) inv o :: new'). split.
      * by rewrite Htr', Htr, <- app_assoc.
      * apply Forall_cons. split; [|done].
        exists (who (obj s)), inv, o, q. split; [done|]. split; [left|done].
Qed.

(** A key that no wiring of the list stores keeps its mirrored entry. *)
Lemma run_queries_frame (qs : list Query) (k : Key) : ∀ s s' : St Comp,
  (∀ q rsp kvs, q ∈ qs → q_store q rsp = Val kvs → k ∉ kvs.*1) →
  run_queries E qs s = Ok tt s' →
  configuration (obj s') !! k = configuration (obj s) !! k.
Proof.
  induction qs as [|q qs IH]; intros s s' Hfree Hrun.
  - by injection Hrun as <-.
  - apply run_queries_cons in Hrun as (s1 & Hq & Hrest).
    rewrite (IH s1 s'); [| |done].
    + destruct (query_wiring_inv q s s1 Hq) as [-> | (inv & o & _ & _ & Hcfg)]; [done|].
      destruct (rspInfo o) as [rsp|]; [|by rewrite Hcfg].
      destruct Hcfg as (kvs & Hst & ->). apply mirror_frame.
      eapply Hfree; [left|done].
    + intros q' rsp kvs Hin. apply Hfree. by right.
Qed.

(** The value a wiring stores for a key stays until the end of the run when
    no other wiring stores that key. *)
Lemma run_queries_stored (qs : list Query) : ∀ (s s' : St Comp),
  NoDup (q_attr <$> qs) →
  run_queries E qs s = Ok tt s' →
  ∃ new, trace s' = trace s ++ new ∧
    ∀ q w inv o rsp kvs k v,
      q ∈ qs → EvCall w inv o ∈ new → inv_attr inv = q_attr q →
      rspInfo o = Some rsp → q_store q rsp = Val kvs → mirror kvs ∅ !! k = Some v →
      (∀ q' rsp' kvs', q' ∈ qs → q_attr q' ≠ q_attr q →
                       q_store q' rsp' = Val kvs' → k ∉ kvs'.*1) →
      configuration (obj s') !! k = Some v.
Proof.
  induction qs as [|q0 qs IH]; intros s s' Hnd Hrun.
  - injection Hrun as <-. exists []. split; [by rewrite app_nil_r|].
    intros ???????? Hin. by apply elem_of_nil in Hin.
  - rewrite fmap_cons in Hnd. apply NoDup_cons in Hnd as [Hfresh Hnd].
    apply run_queries_cons in Hrun as (s1 & Hq & Hrest).
    destruct (IH _ _ Hnd Hrest) as (new' & Htr' & Hstored').
    destruct (run_queries_trace _ _ _ Hrest) as (new'' & Htr'' & Hfrom).
    assert (new'' = new') as -> by (rewrite Htr' in Htr''; by apply app_inv_head in Htr'').
    (* events of the rest of the run do not come from [q0] *)
    assert (Hrest_attr : ∀ w inv o, EvCall w inv o ∈ new' → inv_attr inv ≠ q_attr q0).
    { intros w inv o Hin Heq. rewrite Forall_forall in Hfrom.
      destruct (Hfrom _ Hin) as (w' & inv' & o' & q' & [= <- <- <-] & Hq' & Hattr').
      apply Hfresh. rewrite <- Heq, Hattr'. by apply list_elem_of_fmap_2. }
    (* a wiring of the rest of the run whose command carries the attribute of [q] *)
    assert (Htail : ∀ q w inv o rsp kvs k v,
      q ∈ qs → EvCall w inv o ∈ new' → inv_attr inv = q_attr q →
      rspInfo o = Some rsp → q_store q rsp = Val kvs → mirror kvs ∅ !! k = Some v →
      (∀ q' rsp' kvs', q' ∈ q0 :: qs → q_attr q' ≠ q_attr q →
                       q_store q' rsp' = Val kvs' → k ∉ kvs'.*1) →
      configuration (obj s') !! k = Some v).
    { intros q w inv o rsp kvs k v Hin Hev Hattr Hrsp Hst Hv Hothers.
      eapply Hstored'; try done.
      intros q' rsp' kvs' Hin'. apply Hothers. by right. }
    destruct (query_wiring_inv q0 s s1 Hq) as [-> | (inv0 & o0 & Hattr0 & Htr & Hcfg)].
    + exists new'. split; [done|].
      intros q w inv o rsp kvs k v Hin Hev Hattr Hrsp Hst Hv Hothers.
      apply elem_of_cons in Hin as [-> | Hin]; [|by eapply Htail].
      exfalso. by eapply Hrest_attr.
    + exists (EvCall (who (obj s)) inv0 o0 :: new'). split.
      { by rewrite Htr', Htr, <- app_assoc. }
      intros q w inv o rsp kvs k v Hin Hev Hattr Hrsp Hst Hv Hothers.
      apply elem_of_cons in Hev as [[= -> -> ->] | Hev].
      * (* the round trip of [q0] itself *)
        assert (q = q0) as ->.
        { apply elem_of_cons in Hin as [-> | Hin]; [done|].
          exfalso. apply Hfresh. rewrite <- Hattr0, Hattr. by apply list_elem_of_fmap_2. }
        rewrite Hrsp in Hcfg. destruct Hcfg as (kvs0 & Hst0 & Hcfg).
        rewrite Hst in Hst0. injection Hst0 as <-.
        rewrite (run_queries_frame qs k s1 s'); [| |done].
        -- by rewrite Hcfg, mirror_lookup, Hv.
        -- intros q' rsp' kvs' Hin'. apply Hothers; [by right|].
           intros Heq. apply Hfresh. rewrite <- Heq. by apply list_elem_of_fmap_2.
      * apply elem_of_cons in Hin as [-> | Hin]; [|by eapply Htail].
        exfalso. by eapply Hrest_attr.
Qed.

End Queries.

(** ** Absent response fields *)

Section AbsentField.
Variable E : Env.

Lemma _queryConfiguration_queries (c : Component) (s : St Comp) :
  _queryConfiguration_of E c s
  = run_queries E (queries_of c)
      (mkSt (set_configuration (Configurable_queryConfiguration E) (obj s)) (trace s)).
Proof. destruct c; reflexivity. Qed.

Lemma queries_attr_NoDup (c : Component) : NoDup (q_attr <$> queries_of c).
Proof. destruct c; by apply (bool_decide_unpack _). Qed.

Ltac pick_query :=
  first
    [ eexists; split; [apply list_elem_of_here|]; split; [reflexivity|]
    | eexists; split; [do 1 apply list_elem_of_further; apply list_elem_of_here|];
      split; [reflexivity|]
    | eexists; split; [do 2 apply list_elem_of_further; apply list_elem_of_here|];
      split; [reflexivity|]
    | eexists; split; [do 3 apply list_elem_of_further; apply list_elem_of_here|];
      split; [reflexivity|]
    | eexists; split; [do 4 apply list_elem_of_further; apply list_elem_of_here|];
      split; [reflexivity|]
    | eexists; split; [do 5 apply list_elem_of_further; apply list_elem_of_here|];
      split; [reflexivity|] ].

Ltac stores_default :=
  let rsp := fresh "rsp" in
  let Hf := fresh "Hf" in
  intros rsp Hf; cbn [q_store map]; unfold get; rewrite Hf;
  cbn [default scale_or_None mbind pyres_bind];
  eexists; split; [reflexivity|];
  unfold mirror; cbn [foldl fst snd]; by simplify_map_eq.

Ltac others_silent :=
  let Hin := fresh "Hin" in
  let Hattr := fresh "Hattr" in
  let Hst := fresh "Hst" in
  intros ? ? ? Hin Hattr Hst;
  repeat (apply elem_of_cons in Hin as [-> | Hin]);
  try (by apply elem_of_nil in Hin);
  try (by destruct Hattr);
  cbn [q_store map] in Hst;
  try (destruct (scale_or_None _ _); cbn [mbind pyres_bind] in Hst; [|discriminate Hst]);
  injection Hst as <-; cbn [fmap list_fmap fst];
  repeat (apply not_elem_of_cons; split; [discriminate|]); apply not_elem_of_nil.

Lemma query_fields_ok (c : Component) : Forall (row_ok (queries_of c)) (query_fields c).
Proof.
  destruct c as [cls|cls|cls]; cbn [query_fields queries_of map _duc.cfg_keys];
    repeat (apply Forall_cons; split; [|]); try apply Forall_nil_2;
    unfold row_ok; pick_query; (split; [stores_default | others_silent]).
Qed.

(** Claim C3, amended.  In a run of [_queryConfiguration] of a tuner, a DDC
    or a DUC, when the query command of a wiring gets a parsable response
    that lacks the field of a key of that wiring, the mirrored entry of the
    key is overwritten with the default of the wiring ([None], or 0 for the
    tuner's enable key and the DUC keys), whatever it held before. *)
Theorem absent_field_writes_default (c : Component) (s s' : St Comp) :
  _queryConfiguration_of E c s = Ok tt s' →
  ∃ new, trace s' = trace s ++ new ∧
    ∀ attr_name key field dflt who inv o rsp,
      (attr_name, key, field, dflt) ∈ query_fields c →
      EvCall who inv o ∈ new → inv_attr inv = attr_name →
      rspInfo o = Some rsp → rsp !! field = None →
      configuration (obj s') !! key = Some dflt.
Proof.
  rewrite _queryConfiguration_queries. intros Hrun.
  destruct (run_queries_stored E _ _ _ (queries_attr_NoDup c) Hrun) as (new & Htr & Hstored).
  exists new. split; [exact Htr|].
  intros attr_name key field dflt w inv o rsp Hrow Hev Hattr Hrsp Habsent.
  pose proof (query_fields_ok c) as Hok. rewrite Forall_forall in Hok.
  destruct (Hok _ Hrow) as (q & Hq & Hqattr & Hdflt & Hothers).
  destruct (Hdflt rsp Habsent) as (kvs & Hst & Hv).
  eapply (Hstored q); try done.
  - by rewrite Hqattr.
  - intros q' rsp' kvs' Hin Hne. apply Hothers; [done|]. by rewrite <- Hqattr.
Qed.

End AbsentField.

(** The hypothesis of the theorem holds for a tuner on hardware whose
    responses are empty. *)
Lemma absent_field_writes_default_witness :
  ∃ new, trace (state_of (_tuner._queryConfiguration silent _tuner.defaults
                            (mkSt tuned_tuner []))) = [] ++ new ∧
    ∀ attr_name key field dflt who inv o rsp,
      (attr_name, key, field, dflt) ∈ query_fields (Tuner _tuner.defaults) →
      EvCall who inv o ∈ new → inv_attr inv = attr_name →
      rspInfo o = Some rsp → rsp !! field = None →
      configuration (obj (state_of (_tuner._queryConfiguration silent _tuner.defaults
                                      (mkSt tuned_tuner [])))) !! key = Some dflt.
Proof.
  apply (absent_field_writes_default silent (Tuner _tuner.defaults) (mkSt tuned_tuner [])).
  reflexivity.
Defined.

Lemma returns_Ok {S A} (r : result S A) (a : A) :
  returns r = Some a → r = Ok a (state_of r).
Proof. destruct r; cbn; congruence. Qed.

(** Claim C3 as the spec states it fails on a tuner that mirrors the
    frequency 100e6: after an empty response the entry is [None]. *)
Lemma absent_field_counterexample :
  ¬ stated_absent_field_unchanged silent (Tuner _tuner.defaults) (mkSt tuned_tuner []).
Proof.
  intros Hclaim.
  set (r := _queryConfiguration_of silent (Tuner _tuner.defaults) (mkSt tuned_tuner [])).
  assert (Hr : r = Ok tt (state_of r)) by (apply returns_Ok; vm_compute; reflexivity).
  destruct (Hclaim _ Hr) as (new & Htr & Hkeep).
  cbn [trace app] in Htr. subst new.
  assert (Hev : ∃ w inv o, trace (state_of r) !! 1%nat = Some (EvCall w inv o) ∧
                           inv_attr inv = "frqCmd" ∧ rspInfo o = Some ∅).
  { eexists _, _, _. split; [vm_compute; reflexivity|]. split; reflexivity. }
  destruct Hev as (w & inv & o & Hev & Hattr & Hrsp).
  apply list_elem_of_lookup_2 in Hev.
  specialize (Hkeep "frqCmd" TUNER_FREQUENCY TUNER_FREQUENCY VNone w inv o ∅).
  assert (Hnow : configuration (obj (state_of r)) !! TUNER_FREQUENCY = Some VNone)
    by (vm_compute; reflexivity).
  rewrite Hnow in Hkeep.
  assert (Hwas : configuration (obj (mkSt tuned_tuner [])) !! TUNER_FREQUENCY = Some VNone).
  { symmetry. apply Hkeep; try done.
    cbn [query_fields]. apply list_elem_of_further, list_elem_of_here. }
  vm_compute in Hwas. discriminate Hwas.
Qed.

(** ** Detaching, and a failing tone generator *)

(** Claim C9.  [delTransport] sets the component's own [transport] and
    [callback] to [None] and changes nothing else: name, index, parent,
    mirrored configuration and diagnostic list stay, no command is sent,
    and for a transmitter the tone generators, with their transport,
    callback and mirrored configuration, stay as they were. *)
Theorem delTransport_clears_only_own_references :
  (∀ s : St Comp, ∃ s',
     _base.delTransport s = Ok tt s' ∧
     transport (obj s') = None ∧ callback (obj s') = None ∧
     _name (obj s') = _name (obj s) ∧ index (obj s') = index (obj s) ∧
     parent (obj s') = parent (obj s) ∧
     configuration (obj s') = configuration (obj s) ∧
     cmdErrorInfo (obj s') = cmdErrorInfo (obj s) ∧
     trace s' = trace s ++ [EvDetach (who (obj s))]) ∧
  (∀ s : St _tx.Obj, ∃ s',
     _tx.delTransport s = Ok tt s' ∧
     transport (_tx.tx_base (obj s')) = None ∧
     callback (_tx.tx_base (obj s')) = None ∧
     _name (_tx.tx_base (obj s')) = _name (_tx.tx_base (obj s)) ∧
     index (_tx.tx_base (obj s')) = index (_tx.tx_base (obj s)) ∧
     parent (_tx.tx_base (obj s')) = parent (_tx.tx_base (obj s)) ∧
     configuration (_tx.tx_base (obj s')) = configuration (_tx.tx_base (obj s)) ∧
     cmdErrorInfo (_tx.tx_base (obj s')) = cmdErrorInfo (_tx.tx_base (obj s)) ∧
     _tx.toneGenDict (obj s') = _tx.toneGenDict (obj s) ∧
     trace s' = trace s ++ [EvDetach (who (_tx.tx_base (obj s)))]).
Proof.
  split.
  - intros [[n i p t cb cfg errs] tr]. eexists. split; [reflexivity|].
    repeat split.
  - intros [[[n i p t cb cfg errs] kids] tr]. eexists. split; [reflexivity|].
    repeat split.
Qed.

(** A request that holds none of the transmitter's own keys can only make
    [_setConfiguration] return [true]: nothing that happens while the
    nested tone generator configurations are processed reaches [ret]. *)
Lemma tx_nested_request_returns_true (E : Env) (cls : _tx.Class)
    (confDict : gmap Key Value) (s s' : St _tx.Obj) (b : bool) :
  has_key confDict ENABLE = false →
  has_key confDict TX_FREQUENCY = false →
  has_key confDict TX_ATTENUATION = false →
  _tx._setConfiguration E cls confDict s = Ok b s' → b = true.
Proof.
  intros He Hf Ha. unfold _tx._setConfiguration, guarded.
  rewrite He, Hf, Ha. unfold mbind, M_bind, mret, M_ret.
  destruct (bool_decide _ && has_key confDict CONFIG_CW).
  - destruct (_tx.for_each _ _ s); [by intros [= <- _] | discriminate].
  - by intros [= <- _].
Qed.

(** Claim C4, the failing input.  A transmitter with two tone generators
    is asked to set the frequency of tone generator 1 and the hardware
    rejects the tone command: the one command of the call fails, the
    failure reaches the transmitter's diagnostic list, and
    [_setConfiguration] returns [true]. *)
Theorem tx_child_failure_is_not_returned :
  _tx.__init__ two_tone_tx None (Some "callback") 1 = Val tx1 ∧
  let r := _tx._setConfiguration (rejecting "toneCmd") two_tone_tx tone_request
             (mkSt tx1 []) in
  returns r = Some true ∧
  (∃ inv out, trace (state_of r) = [EvCall ("CWToneGen", 1%Z) inv out] ∧
              inv_attr inv = "toneCmd" ∧ inv_query inv = false ∧ cmd_ok out = false) ∧
  length (failures (cmdErrorInfo (_tx.tx_base (obj (state_of r))))) = 1%nat.
Proof.
  split; [reflexivity|].
  cbv zeta. split; [vm_compute; reflexivity|]. split.
  - eexists _, _. split; [vm_compute; reflexivity|]. repeat split.
  - vm_compute. reflexivity.
Qed.

(** ** Computations that only append to the trace *)

Section Emits.
Context {S : Type} `{BaseObject S}.
Variable E : Env.
Variable P : Event → Prop.

Lemma emits_ret {A} (a : A) : emits (S := S) P (mret a).
Proof. intros s. exists []. by rewrite app_nil_r. Qed.

Lemma emits_bind {A B} (m : M (St S) A) (k : A → M (St S) B) :
  emits P m → (∀ a, emits P (k a)) → emits P (m ≫= k).
Proof.
  intros Hm Hk s. unfold mbind, M_bind.
  destruct (Hm s) as (evs & Htr & Hall).
  destruct (m s) as [a s1|e s1]; cbn [state_of] in *.
  - destruct (Hk a s1) as (evs' & Htr' & Hall').
    exists (evs ++ evs'). split.
    + by rewrite Htr', Htr, <- app_assoc.
    + by apply Forall_app.
  - by exists evs.
Qed.

Lemma emits_lift {A} (r : pyres A) : emits (S := S) P (lift r).
Proof. intros s. exists []. rewrite app_nil_r. by destruct r. Qed.

Lemma emits_gets {A} (f : St S → A) : emits P (gets f).
Proof. intros s. exists []. by rewrite app_nil_r. Qed.

Lemma emits_self : emits (S := S) P self.
Proof. apply emits_gets. Qed.

Lemma emits_update (f : Comp → Comp) : emits (S := S) P (update f).
Proof. intros s. exists []. by rewrite app_nil_r. Qed.

Lemma emits_emit (ev : Event) : P ev → emits (S := S) P (emit ev).
Proof. intros Hev s. exists [ev]. split; [done|]. by apply Forall_singleton. Qed.

Lemma emits_assign (k : Key) (v : Value) : emits (S := S) P (assign k v).
Proof. apply emits_update. Qed.

Lemma emits_assign_all (kvs : list (Key * Value)) : emits (S := S) P (assign_all kvs).
Proof.
  induction kvs as [|[k v] kvs IH]; cbn [assign_all].
  - apply emits_ret.
  - apply emits_bind; [apply emits_assign | done].
Qed.

Lemma emits_addLastCommandErrorInfo (d : Diag) :
  emits (S := S) P (Configurable._addLastCommandErrorInfo d).
Proof. apply emits_update. Qed.

Lemma emits_construct_bind {B} (attr_name : string) (c : CmdClass) (q : bool)
    (kw : gmap Key Value) (k : Invocation → M (St S) B) :
  (∀ cb, emits P (k (mkInv attr_name c q kw cb))) →
  emits P (construct attr_name c q kw ≫= k).
Proof.
  intros Hk s. unfold construct, mbind, M_bind, self, gets, mret, M_ret.
  apply Hk.
Qed.

Lemma emits_for_each {X} (xs : list X) (body : X → M (St S) unit) :
  (∀ x, emits P (body x)) → emits P (_tx.for_each xs body).
Proof.
  intros Hbody. induction xs as [|x xs IH]; cbn [_tx.for_each].
  - apply emits_ret.
  - apply emits_bind; [apply Hbody | done].
Qed.

End Emits.

Section EmitsQuery.
Context {S : Type} `{BaseObject S}.
Variable E : Env.

Lemma emits_send (inv : Invocation) :
  inv_query inv = true → emits (S := S) query_call (send E inv).
Proof.
  intros Hq. unfold send.
  apply emits_bind; [apply emits_self|]. intros me.
  apply emits_bind; [apply emits_gets|]. intros tr.
  apply emits_bind; [|intros; apply emits_ret].
  apply emits_emit. by eexists _, _, _.
Qed.

Lemma emits_query_wiring (attr_name : string) (xxxCmd : option CmdClass)
    (args : Comp → pyres (gmap Key Value))
    (store : gmap Key Value → pyres (list (Key * Value))) :
  emits (S := S) query_call (query_wiring E attr_name xxxCmd args store).
Proof.
  unfold query_wiring. destruct xxxCmd as [c|]; [|apply emits_ret].
  apply emits_bind; [apply emits_self|]. intros me.
  apply emits_bind; [apply emits_lift|]. intros kw.
  apply emits_construct_bind. intros cb.
  apply emits_bind; [by apply emits_send|]. intros o.
  apply emits_bind; [apply emits_addLastCommandErrorInfo|]. intros _.
  destruct (rspInfo o); [|apply emits_ret].
  apply emits_bind; [apply emits_lift|]. intros kvs. apply emits_assign_all.
Qed.

Lemma emits_Configurable_queryConfiguration (m : M (St S) unit) :
  emits query_call m → emits query_call (Configurable.queryConfiguration m).
Proof.
  intros Hm. unfold Configurable.queryConfiguration.
  apply emits_bind; [apply emits_update|]. intros _.
  apply emits_bind; [done|]. intros _.
  apply emits_bind; [apply emits_self|]. intros me. apply emits_ret.
Qed.

End EmitsQuery.

Section EmitsTx.
Variable E : Env.

Lemma emits_cw_queryConfiguration (cw : _cwToneGen.Class) :
  emits query_call (_cwToneGen.queryConfiguration E cw).
Proof.
  apply emits_Configurable_queryConfiguration.
  unfold _cwToneGen._queryConfiguration.
  apply emits_bind; [apply emits_update|]. intros _.
  apply emits_bind; [apply emits_query_wiring|]. intros _.
  apply emits_bind; [apply emits_query_wiring|]. intros _.
  apply emits_ret.
Qed.

Lemma emits_with_child {A} (P : Event → Prop) (i : Z)
    (method : _cwToneGen.Class → M (St Comp) A) :
  (∀ cw, emits P (method cw)) → emits P (_tx.with_child i method).
Proof.
  intros Hm s. unfold _tx.with_child.
  destruct (_tx.lookup_child i _) as [g|].
  - destruct (Hm (_tx.tg_class g) (mkSt (_tx.tg_obj g) (trace s))) as (evs & Htr & Hall).
    exists evs. split; [|done].
    destruct (method _ _); exact Htr.
  - exists []. by rewrite app_nil_r.
Qed.

End EmitsTx.

(** ** A tone generator receiving the transport *)

Section ChildRuns.
Variable E : Env.

Lemma same_identity_refl (c : Comp) : same_identity c c.
Proof. by repeat split. Qed.

Lemma same_identity_trans (c1 c2 c3 : Comp) :
  same_identity c1 c2 → same_identity c2 c3 → same_identity c1 c3.
Proof.
  intros (?&?&?&?&?) (?&?&?&?&?). repeat split; congruence.
Qed.

Lemma same_identity_who (c c' : Comp) : same_identity c c' → who c' = who c.
Proof. intros (Hn & Hi & _). unfold who. by rewrite Hn, Hi. Qed.

Lemma child_runs_ret {A} (a : A) : child_runs (mret a).
Proof.
  intros s _. exists a, s, []. rewrite app_nil_r.
  repeat split; first [done | apply Forall_nil_2].
Qed.

Lemma child_runs_bind {A B} (m : M (St Comp) A) (k : A → M (St Comp) B) :
  child_runs m → (∀ a, child_runs (k a)) → child_runs (m ≫= k).
Proof.
  intros Hm Hk s Hp.
  destruct (Hm s Hp) as (a & s1 & calls & Hrun & Htr & Hid & Hcalls).
  assert (Hp1 : is_Some (parent (obj s1))).
  { destruct Hid as (_ & _ & -> & _). done. }
  destruct (Hk a s1 Hp1) as (b & s2 & calls' & Hrun' & Htr' & Hid' & Hcalls').
  exists b, s2, (calls ++ calls'). unfold mbind, M_bind. rewrite Hrun.
  split; [done|]. split; [by rewrite Htr', Htr, <- app_assoc|].
  split; [by eapply same_identity_trans|].
  apply Forall_app. split; [done|].
  rewrite (same_identity_who _ _ Hid) in Hcalls'.
  destruct Hid as (_ & _ & _ & _ & Hcb). by rewrite Hcb in Hcalls'.
Qed.

Lemma child_runs_update (f : Comp → Comp) :
  (∀ c, same_identity c (f c)) → child_runs (update f).
Proof.
  intros Hf s _. eexists tt, _, []. split; [reflexivity|].
  cbn [trace obj]. rewrite app_nil_r.
  repeat split; first [apply Hf | apply Forall_nil_2].
Qed.

Lemma child_runs_assign_all (kvs : list (Key * Value)) : child_runs (assign_all kvs).
Proof.
  induction kvs as [|[k v] kvs IH]; cbn [assign_all].
  - apply child_runs_ret.
  - apply child_runs_bind; [|done]. apply child_runs_update. intros c. by repeat split.
Qed.

Lemma sent_by_app (me : Who) (c1 c2 : list Event) (i1 i2 : list Invocation) :
  sent_by me c1 i1 → sent_by me c2 i2 → sent_by me (c1 ++ c2) (i1 ++ i2).
Proof. apply Forall2_app. Qed.

Lemma update_bind {S A} `{BaseObject S} (f : Comp → Comp) (k : unit → M (St S) A)
    (s : St S) :
  (update f ≫= k) s = k tt (mkSt (with_base f (obj s)) (trace s)).
Proof. reflexivity. Qed.

(** A query wiring of a tone generator returns and sends its command, when
    the class defines it. *)
Lemma child_query_wiring_sends (attr_name : string) (xxxCmd : option CmdClass)
    (store : gmap Key Value → list (Key * Value)) (s : St Comp) (p : Who) :
  parent (obj s) = Some p →
  ∃ s' calls,
    query_wiring E attr_name xxxCmd _cwToneGen.query_args (λ rsp, Val (store rsp)) s
    = Ok tt s' ∧
    trace s' = trace s ++ calls ∧ same_identity (obj s) (obj s') ∧
    sent_by (who (obj s)) calls
      (query_of attr_name xxxCmd
         {[ CW_INDEX := VInt (index (obj s)); TX_INDEX := VInt p.2 ]} (callback (obj s))).
Proof.
  destruct s as [[n i p0 t cb cfg errs] tr]. cbn [obj parent]. intros ->.
  unfold query_wiring, query_of. destruct xxxCmd as [c|]; last first.
  { eexists _, []. split; [reflexivity|]. cbn [trace]. rewrite app_nil_r.
    repeat split; first [done | apply Forall2_nil_2]. }
  cbv [mbind M_bind self gets lift construct send emit modify mret M_ret
       Configurable._addLastCommandErrorInfo update obj trace base with_base
       Comp_BaseObject callback set_cmdErrorInfo _cwToneGen.query_args parent_index
       parent pyres_bind pyres_ret snd index who _name].
  set (inv := mkInv _ _ _ _ _). set (o := hw E tr inv).
  destruct (rspInfo o) as [rsp|].
  - rewrite assign_all_eq. eexists _, [_]. split; [reflexivity|].
    cbn [trace obj]. split; [reflexivity|]. split; [by repeat split|].
    apply Forall2_cons. split; [by exists o | apply Forall2_nil_2].
  - eexists _, [_]. split; [reflexivity|].
    cbn [trace obj]. split; [reflexivity|]. split; [by repeat split|].
    apply Forall2_cons. split; [by exists o | apply Forall2_nil_2].
Qed.

Lemma child__queryConfiguration_sends (cw : _cwToneGen.Class) (s : St Comp) :
  is_Some (parent (obj s)) →
  ∃ s' calls,
    _cwToneGen._queryConfiguration E cw s = Ok tt s' ∧
    trace s' = trace s ++ calls ∧ same_identity (obj s) (obj s') ∧
    sent_by (who (obj s)) calls (tone_queries cw (obj s) (callback (obj s))).
Proof.
  intros [p Hp]. unfold tone_queries. rewrite Hp.
  unfold _cwToneGen._queryConfiguration, Configurable._queryConfiguration.
  rewrite update_bind. unfold mbind at 1, M_bind at 1.
  match goal with |- context [query_wiring E "toneCmd" _ _ _ ?st] => set (s0 := st) end.
  assert (Hid0 : same_identity (obj s) (obj s0)) by (by destruct s as [[] ?]).
  assert (Htr0 : trace s0 = trace s) by reflexivity.
  assert (Hp0 : parent (obj s0) = Some p) by (destruct Hid0 as (_ & _ & -> & _); done).
  destruct (child_query_wiring_sends "toneCmd" (_cwToneGen.toneCmd cw)
              (λ rspInfo, [(CW_FREQUENCY, get rspInfo CW_FREQUENCY VNone);
                           (CW_AMPLITUDE, get rspInfo CW_AMPLITUDE VNone);
                           (CW_PHASE, get rspInfo CW_PHASE VNone)]) s0 p Hp0)
    as (s1 & calls1 & -> & Htr1 & Hid1 & Hc1).
  assert (Hp1 : parent (obj s1) = Some p) by (destruct Hid1 as (_ & _ & -> & _); done).
  unfold mbind at 1, M_bind at 1.
  destruct (child_query_wiring_sends "sweepCmd" (_cwToneGen.sweepCmd cw)
              (λ rspInfo, [(CW_SWEEP_START, get rspInfo CW_SWEEP_START VNone);
                           (CW_SWEEP_STOP, get rspInfo CW_SWEEP_STOP VNone);
                           (CW_SWEEP_STEP, get rspInfo CW_SWEEP_STEP VNone);
                           (CW_SWEEP_DWELL, get rspInfo CW_SWEEP_DWELL VNone)]) s1 p Hp1)
    as (s2 & calls2 & -> & Htr2 & Hid2 & Hc2).
  cbn [mret M_ret].
  exists s2, (calls1 ++ calls2). split; [reflexivity|].
  split; [by rewrite Htr2, Htr1, Htr0, <- app_assoc|].
  pose proof (same_identity_trans _ _ _ Hid0 Hid1) as Hid01.
  split; [by eapply same_identity_trans|].
  apply sent_by_app.
  - rewrite (same_identity_who _ _ Hid0) in Hc1.
    destruct Hid0 as (_ & Hi & _ & _ & Hcb). by rewrite Hi, Hcb in Hc1.
  - rewrite (same_identity_who _ _ Hid01) in Hc2.
    destruct Hid01 as (_ & Hi & _ & _ & Hcb). by rewrite Hi, Hcb in Hc2.
Qed.

(** The query of a tone generator returns and sends exactly the query
    commands its class defines, through the callback it holds. *)
Lemma child_queryConfiguration_sends (cw : _cwToneGen.Class) (s : St Comp) :
  is_Some (parent (obj s)) →
  ∃ conf s' calls,
    _cwToneGen.queryConfiguration E cw s = Ok conf s' ∧
    trace s' = trace s ++ calls ∧ same_identity (obj s) (obj s') ∧
    sent_by (who (obj s)) calls (tone_queries cw (obj s) (callback (obj s))).
Proof.
  intros Hp.
  unfold _cwToneGen.queryConfiguration, Configurable.queryConfiguration.
  rewrite update_bind. unfold mbind at 1, M_bind at 1.
  match goal with |- context [_cwToneGen._queryConfiguration E cw ?st] => set (s0 := st) end.
  assert (Hid0 : same_identity (obj s) (obj s0)) by (by destruct s as [[] ?]).
  assert (Hp0 : is_Some (parent (obj s0))) by (destruct Hid0 as (_ & _ & -> & _); done).
  destruct (child__queryConfiguration_sends cw s0 Hp0) as (s1 & calls & -> & Htr & Hid1 & Hc).
  unfold mbind, M_bind, self, gets. cbn [mret M_ret].
  eexists _, s1, calls. split; [reflexivity|]. split; [exact Htr|].
  split; [by eapply same_identity_trans|].
  rewrite (same_identity_who _ _ Hid0) in Hc.
  replace (tone_queries cw (obj s) (callback (obj s)))
    with (tone_queries cw (obj s0) (callback (obj s0))); [exact Hc|].
  unfold tone_queries. destruct Hid0 as (_ & Hi & Hpar & _ & Hcb). by rewrite Hi, Hpar, Hcb.
Qed.

(** A tone generator receiving the transport: attachment first, then its
    own query, sent through the new callback. *)
Lemma child_addTransport_sends (cw : _cwToneGen.Class) (t : Transport) (cb : Callback)
    (s : St Comp) :
  is_Some (parent (obj s)) →
  ∃ s' calls,
    _base.addTransport (_cwToneGen.queryConfiguration E cw) t cb true s = Ok tt s' ∧
    trace s' = trace s ++ EvAttach (who (obj s)) t cb :: calls ∧
    sent_by (who (obj s)) calls (tone_queries cw (obj s) (Some cb)) ∧
    transport (obj s') = Some t ∧ callback (obj s') = Some cb ∧
    who (obj s') = who (obj s) ∧ parent (obj s') = parent (obj s).
Proof.
  intros Hp. destruct s as [[n i p tr0 cb0 cfg errs] tr].
  unfold _base.addTransport.
  unfold mbind at 1 2 3, M_bind at 1 2 3, update, modify, self, gets, emit.
  cbn [obj trace base with_base Comp_BaseObject set_transport set_callback
       _name index parent transport callback configuration cmdErrorInfo mbind M_bind].
  unfold mbind, M_bind, modify. cbn [obj trace].
  set (s1 := mkSt _ _).
  destruct (child_queryConfiguration_sends cw s1 Hp)
    as (conf & s' & calls & Hrun & Htr & Hid & Hcalls).
  unfold mbind, M_bind in Hrun |- *. rewrite Hrun. cbn [mret M_ret].
  exists s', calls. split; [reflexivity|].
  split; [rewrite Htr; subst s1; cbn [trace]; by rewrite <- app_assoc|].
  split; [exact Hcalls|].
  destruct Hid as (Hn & Hi & Hpar & Htrn & Hcb).
  repeat split; try done. unfold who. by rewrite Hn, Hi.
Qed.

End ChildRuns.

(** ** Attaching a transmitter *)

Section ChildrenFirst.
Variable E : Env.

Lemma lookup_child_app (i : Z) (g : _tx.ToneGen) (pre post : list (Z * _tx.ToneGen)) :
  i ∉ pre.*1 → _tx.lookup_child i (pre ++ (i, g) :: post) = Some g.
Proof.
  induction pre as [|[j h] pre IH]; intros Hi; cbn [app _tx.lookup_child].
  - by rewrite decide_True.
  - rewrite fmap_cons, not_elem_of_cons in Hi. destruct Hi as [Hne Hi].
    rewrite decide_False by done. by apply IH.
Qed.

Lemma store_child_app (i : Z) (g : _tx.ToneGen) (c : Comp)
    (pre post : list (Z * _tx.ToneGen)) :
  i ∉ pre.*1 →
  _tx.store_child i c (pre ++ (i, g) :: post)
  = pre ++ (i, _tx.mkToneGen (_tx.tg_class g) c) :: post.
Proof.
  induction pre as [|[j h] pre IH]; intros Hi; cbn [app _tx.store_child].
  - by rewrite decide_True.
  - rewrite fmap_cons, not_elem_of_cons in Hi. destruct Hi as [Hne Hi].
    rewrite decide_False by done. by rewrite IH.
Qed.

Lemma with_child_run {A} (i : Z) (g : _tx.ToneGen) (pre post : list (Z * _tx.ToneGen))
    (method : _cwToneGen.Class → M (St Comp) A) (s : St _tx.Obj) (a : A) (s1 : St Comp) :
  _tx.toneGenDict (obj s) = pre ++ (i, g) :: post → i ∉ pre.*1 →
  method (_tx.tg_class g) (mkSt (_tx.tg_obj g) (trace s)) = Ok a s1 →
  _tx.with_child i method s
  = Ok a (mkSt (_tx.mkObj (_tx.tx_base (obj s))
                  (pre ++ (i, _tx.mkToneGen (_tx.tg_class g) (obj s1)) :: post))
               (trace s1)).
Proof.
  intros Hdict Hi Hrun. unfold _tx.with_child.
  rewrite Hdict, lookup_child_app, Hrun, store_child_app by done. reflexivity.
Qed.

Lemma children_attach_loop (t : Transport) (cb : Callback) :
  ∀ (todo pre : list (Z * _tx.ToneGen)) (s : St _tx.Obj),
    _tx.toneGenDict (obj s) = pre ++ todo →
    NoDup (pre ++ todo).*1 →
    Forall (λ ig, is_Some (parent (_tx.tg_obj ig.2))) todo →
    ∃ s' segs todo',
      _tx.for_each todo.*1 (λ i,
        _tx.with_child i (λ cw,
          _base.addTransport (_cwToneGen.queryConfiguration E cw) t cb true)) s
      = Ok tt s' ∧
      trace s' = trace s ++ concat segs ∧
      _tx.tx_base (obj s') = _tx.tx_base (obj s) ∧
      _tx.toneGenDict (obj s') = pre ++ todo' ∧
      Forall2 (child_segment t cb) todo segs ∧
      Forall2 (attached t cb) todo todo'.
Proof.
  induction todo as [|[i g] todo IH]; intros pre s Hdict Hnd Hpar.
  - exists s, [], []. rewrite !app_nil_r in *. by repeat split.
  - apply Forall_cons_1 in Hpar as [Hp Hpar]. cbn [snd] in Hp.
    assert (Hi : i ∉ pre.*1).
    { rewrite fmap_app, fmap_cons in Hnd. apply NoDup_app in Hnd as (_ & Hnd & _).
      intros Hin. apply (Hnd _ Hin). left. }
    destruct (child_addTransport_sends E (_tx.tg_class g) t cb
                (mkSt (_tx.tg_obj g) (trace s)) Hp)
      as (s1 & calls & Hrun & Htr & Hcalls & Htrn & Hcb & Hwho & Hpar1).
    cbn [obj trace] in Htr, Hcalls, Hwho, Hpar1.
    cbn [fmap list_fmap fst _tx.for_each]. unfold mbind at 1, M_bind at 1.
    rewrite (with_child_run i g pre todo _ s tt s1 Hdict Hi Hrun).
    set (g' := _tx.mkToneGen (_tx.tg_class g) (obj s1)).
    destruct (IH (pre ++ [(i, g')]) (mkSt (_tx.mkObj (_tx.tx_base (obj s))
                                            (pre ++ (i, g') :: todo)) (trace s1)))
      as (s' & segs & todo' & Hloop & Htr' & Hbase & Hdict' & Hsegs & Hatt).
    { cbn [obj _tx.toneGenDict]. by rewrite <- app_assoc. }
    { rewrite <- app_assoc. cbn [app]. by rewrite !fmap_app, !fmap_cons in *. }
    { done. }
    cbn [trace obj _tx.tx_base] in Htr', Hbase.
    exists s', ((EvAttach (who (_tx.tg_obj g)) t cb :: calls) :: segs), ((i, g') :: todo').
    split; [exact Hloop|].
    split; [cbn [concat]; by rewrite Htr', Htr, <- !app_assoc|].
    split; [exact Hbase|].
    split; [by rewrite Hdict', <- app_assoc|].
    split.
    + apply Forall2_cons. split; [|done]. by exists calls.
    + apply Forall2_cons. split; [|done]. by repeat split.
Qed.

Lemma sent_by_prefix (me : Who) (calls : list Event) (pre post : list Invocation) :
  sent_by me calls pre → sent_by me calls (take (length calls) (pre ++ post)).
Proof.
  intros Hs. rewrite (Forall2_length _ _ _ Hs), take_app_length. exact Hs.
Qed.

Lemma bind_run {S A B} (m : M S A) (k : A → M S B) (s : S) :
  (m ≫= k) s = match m s with Ok a s' => k a s' | Raise e s' => Raise e s' end.
Proof. reflexivity. Qed.

Lemma tx_assign_all_eq (kvs : list (Key * Value)) : ∀ s : St _tx.Obj,
  assign_all kvs s
  = Ok tt (mkSt (_tx.mkObj (set_configuration (mirror kvs) (_tx.tx_base (obj s)))
                   (_tx.toneGenDict (obj s))) (trace s)).
Proof.
  induction kvs as [|[k v] kvs IH]; intros [[[n i p t cb cfg errs] kids] tr].
  - reflexivity.
  - cbn [assign_all]. unfold mbind, M_bind, assign, update, modify at 1.
    rewrite IH. reflexivity.
Qed.

(** A query wiring of a transmitter sends its command, when the class
    defines it, whether or not storing the response raises. *)
Lemma tx_query_wiring_sends (attr_name : string) (xxxCmd : option CmdClass)
    (store : gmap Key Value → pyres (list (Key * Value))) (s : St _tx.Obj) :
  let me := _tx.tx_base (obj s) in
  let r := query_wiring E attr_name xxxCmd _tx.query_args store s in
  ∃ calls,
    sent_by (who me) calls
      (query_of attr_name xxxCmd {[ TX_INDEX := VInt (index me) ]} (callback me)) ∧
    trace (state_of r) = trace s ++ calls ∧
    same_identity me (_tx.tx_base (obj (state_of r))).
Proof.
  destruct s as [[[n i p t cb cfg errs] kids] tr]. cbv zeta. cbn [obj _tx.tx_base].
  unfold query_wiring, query_of. destruct xxxCmd as [c|]; last first.
  { exists []. cbn. rewrite app_nil_r. repeat split; first [done | apply Forall2_nil_2]. }
  cbv [mbind M_bind self gets lift construct send emit modify mret M_ret
       Configurable._addLastCommandErrorInfo update obj trace base with_base
       _tx.Obj_BaseObject _tx.tx_base _tx.toneGenDict callback set_cmdErrorInfo
       _tx.query_args pyres_bind pyres_ret snd index who _name].
  set (inv := mkInv _ _ _ _ _). set (o := hw E tr inv).
  exists [EvCall (n, i) inv o].
  split; [apply Forall2_cons; split; [by exists o | apply Forall2_nil_2]|].
  destruct (rspInfo o) as [rsp|]; [|by repeat split].
  destruct (store rsp) as [kvs|e]; [|by repeat split].
  rewrite tx_assign_all_eq. by repeat split.
Qed.

(** The attenuation query of a transmitter, which records the command
    before it is sent: it returns and sends its command, when the class
    defines it. *)
Lemma tx_attenuation_query_sends (cls : _tx.Class) (k : M (St _tx.Obj) unit)
    (s : St _tx.Obj) :
  let me := _tx.tx_base (obj s) in
  ∃ calls s',
    sent_by (who me) calls
      (query_of "attCmd" (_tx.attCmd cls) {[ TX_INDEX := VInt (index me) ]} (callback me)) ∧
    trace s' = trace s ++ calls ∧
    (match _tx.attCmd cls with
     | Some c =>
         me ← self;
         kwargs ← lift (_tx.query_args me);
         cmd ← construct "attCmd" c true kwargs;
         Configurable._addLastCommandErrorInfo (cmd, None) ;;
         o ← send E cmd;
         match rspInfo o with
         | Some rsp => assign TX_ATTENUATION (get rsp TX_ATTENUATION VNone)
         | None => mret tt
         end
     | None => mret tt
     end ≫= λ _, k) s = k s'.
Proof.
  destruct s as [[[n i p t cb cfg errs] kids] tr]. cbv zeta. cbn [obj _tx.tx_base].
  unfold query_of. destruct (_tx.attCmd cls) as [c|]; last first.
  { exists [], (mkSt (_tx.mkObj (mkComp n i p t cb cfg errs) kids) tr).
    cbn [trace]. rewrite app_nil_r. repeat split. apply Forall2_nil_2. }
  cbv [mbind M_bind self gets lift construct send emit modify mret M_ret
       Configurable._addLastCommandErrorInfo update assign obj trace base with_base
       _tx.Obj_BaseObject _tx.tx_base _tx.toneGenDict callback set_cmdErrorInfo
       set_configuration
       _tx.query_args pyres_bind pyres_ret snd index who _name].
  set (inv := mkInv _ _ _ _ _). set (o := hw E tr inv).
  destruct (rspInfo o) as [rsp|].
  - eexists [EvCall (n, i) inv o], _.
    split; [apply Forall2_cons; split; [by exists o | apply Forall2_nil_2]|].
    split; [|reflexivity]. reflexivity.
  - eexists [EvCall (n, i) inv o], _.
    split; [apply Forall2_cons; split; [by exists o | apply Forall2_nil_2]|].
    split; [|reflexivity]. reflexivity.
Qed.

(** The [_queryConfiguration] of a transmitter sends its own queries
    first: the commands of [tx_queries] as far as the run gets, all of them
    when it returns; what follows are the queries of its tone generators. *)
Lemma tx__queryConfiguration_own_first (cls : _tx.Class) (s : St _tx.Obj) :
  let me := _tx.tx_base (obj s) in
  let r := _tx._queryConfiguration E cls s in
  ∃ own later,
    trace (state_of r) = trace s ++ own ++ later ∧
    sent_by (who me) own (take (length own) (tx_queries cls me (callback me))) ∧
    Forall query_call later ∧
    (is_Some (returns r) → sent_by (who me) own (tx_queries cls me (callback me))).
Proof.
  cbv zeta. unfold tx_queries.
  unfold _tx._queryConfiguration, Configurable._queryConfiguration.
  rewrite update_bind.
  match goal with |- context [(_ ≫= _) ?st] => set (s0 := st) end.
  assert (Hid0 : same_identity (_tx.tx_base (obj s)) (_tx.tx_base (obj s0)))
    by (by destruct s as [[[] ?] ?]).
  assert (Htr0 : trace s0 = trace s) by reflexivity.
  rewrite <- (same_identity_who _ _ Hid0).
  destruct Hid0 as (_ & Hi0 & _ & _ & Hcb0). rewrite <- Hi0, <- Hcb0, <- Htr0.
  clearbody s0. clear s Hi0 Hcb0 Htr0.
  set (me := _tx.tx_base (obj s0)).
  set (args := {[ TX_INDEX := VInt (index me) ]} : gmap Key Value).
  rewrite bind_run.
  match goal with |- context [query_wiring E "tpwrCmd" ?c ?a ?st ?s] =>
    destruct (tx_query_wiring_sends "tpwrCmd" c st s) as (c1 & Hc1 & Htr1 & Hid1) end.
  fold me in Hc1, Hid1. fold args in Hc1.
  destruct (query_wiring E "tpwrCmd" _ _ _ s0) as [[] s1|e s1]; cbn [state_of] in *;
    last first.
  { exists c1, []. rewrite app_nil_r. split; [exact Htr1|].
    split; [by apply sent_by_prefix|]. split; [apply Forall_nil_2|].
    intros [? [=]]. }
  rewrite bind_run.
  match goal with |- context [query_wiring E "frqCmd" ?c ?a ?st ?s] =>
    destruct (tx_query_wiring_sends "frqCmd" c st s) as (c2 & Hc2 & Htr2 & Hid2) end.
  rewrite (same_identity_who _ _ Hid1) in Hc2.
  destruct Hid1 as (Hn1 & Hi1 & _ & _ & Hcb1). rewrite Hi1, Hcb1 in Hc2.
  fold args in Hc2.
  pose proof (sent_by_app _ _ _ _ _ Hc1 Hc2) as Hc12.
  destruct (query_wiring E "frqCmd" _ _ _ s1) as [[] s2|e s2]; cbn [state_of] in *;
    last first.
  { exists (c1 ++ c2), []. rewrite app_nil_r.
    split; [by rewrite Htr2, Htr1, <- app_assoc|].
    split; [rewrite app_assoc; by apply sent_by_prefix|]. split; [apply Forall_nil_2|].
    intros [? [=]]. }
  match goal with |- context [(_ ≫= ?k) s2] =>
    destruct (tx_attenuation_query_sends cls (k tt) s2) as (c3 & s3 & Hc3 & Htr3 & Hrun3) end.
  rewrite Hrun3. clear Hrun3.
  rewrite (same_identity_who _ _ Hid2) in Hc3.
  destruct Hid2 as (_ & Hi2 & _ & _ & Hcb2).
  rewrite Hi2, Hcb2 in Hc3. unfold who in Hc3. rewrite Hn1, Hi1, Hcb1 in Hc3.
  fold (who me) in Hc3. fold args in Hc3.
  pose proof (sent_by_app _ _ _ _ _ Hc12 Hc3) as Hc123. rewrite <- !app_assoc in Hc123.
  match goal with |- context [trace (state_of (?m s3))] =>
    assert (Hloop : emits query_call m) end.
  { apply emits_bind; [|intros; apply emits_ret].
    destruct (_tx.toneGenType cls); [|apply emits_ret].
    apply emits_bind; [apply emits_assign|]. intros _.
    apply emits_bind; [apply emits_gets|]. intros me'.
    apply emits_for_each. intros i.
    apply emits_bind; [apply emits_with_child, emits_cw_queryConfiguration|]. intros conf.
    apply emits_bind; [apply emits_self|]. intros me''.
    apply emits_bind; [apply emits_lift|]. intros cw.
    apply emits_bind.
    { destruct cw; first [apply emits_assign | apply emits_lift]. }
    intros _.
    apply emits_bind; [|intros; apply emits_update].
    apply emits_with_child. intros _.
    apply emits_bind; [apply emits_self|]. intros; apply emits_ret. }
  destruct (Hloop s3) as (later & Htrl & Hq).
  exists (c1 ++ c2 ++ c3), later.
  split; [by rewrite Htrl, Htr3, Htr2, Htr1, <- !app_assoc|].
  split; [|split; [exact Hq | by intros _]].
  rewrite <- (app_nil_r (_ ++ _ ++ query_of "attCmd" _ _ _)).
  by apply sent_by_prefix.
Qed.

Lemma tx_queryConfiguration_own_first (cls : _tx.Class) (s : St _tx.Obj) :
  let me := _tx.tx_base (obj s) in
  let r := _tx.queryConfiguration E cls s in
  ∃ own later,
    trace (state_of r) = trace s ++ own ++ later ∧
    sent_by (who me) own (take (length own) (tx_queries cls me (callback me))) ∧
    Forall query_call later ∧
    (is_Some (returns r) → sent_by (who me) own (tx_queries cls me (callback me))).
Proof.
  cbv zeta. unfold _tx.queryConfiguration, Configurable.queryConfiguration.
  rewrite update_bind, bind_run.
  match goal with |- context [_tx._queryConfiguration E cls ?st] => set (s0 := st) end.
  assert (Hid0 : same_identity (_tx.tx_base (obj s)) (_tx.tx_base (obj s0)))
    by (by destruct s as [[[] ?] ?]).
  destruct (tx__queryConfiguration_own_first cls s0) as (own & later & Htr & Hpre & Hq & Hall).
  rewrite (same_identity_who _ _ Hid0) in Hpre, Hall.
  replace (tx_queries cls (_tx.tx_base (obj s0)) (callback (_tx.tx_base (obj s0))))
    with (tx_queries cls (_tx.tx_base (obj s)) (callback (_tx.tx_base (obj s))))
    in Hpre, Hall
    by (unfold tx_queries; destruct Hid0 as (_ & -> & _ & _ & ->); done).
  change (trace s0) with (trace s) in Htr.
  exists own, later.
  destruct (_tx._queryConfiguration E cls s0) as [[] s1|e s1]; cbn [state_of] in *.
  - repeat split; try done. intros _. apply Hall. by eexists.
  - repeat split; try done. intros [? [=]].
Qed.

(** The commands of a list of queries are queries. *)
Lemma sent_by_queries (me : Who) (calls : list Event) (invs : list Invocation) :
  sent_by me calls invs → Forall (λ inv, inv_query inv = true) invs →
  Forall query_call calls.
Proof.
  induction 1 as [|ev inv calls invs [o ->] _ IH]; intros Hq; [apply Forall_nil_2|].
  apply Forall_cons_1 in Hq as [Hq Hqs].
  apply Forall_cons. split; [by eexists _, _, _ | by apply IH].
Qed.

Lemma tx_queries_query (cls : _tx.Class) (me : Comp) (cb : option Callback) :
  Forall (λ inv, inv_query inv = true) (tx_queries cls me cb).
Proof.
  unfold tx_queries, query_of.
  destruct (_tx.tpwrCmd cls), (_tx.frqCmd cls), (_tx.attCmd cls);
    repeat (apply Forall_cons; split; [reflexivity|]); apply Forall_nil_2.
Qed.

(** Claim C8.  [addTransport] on a transmitter, with [queryConfig] true,
    first visits the tone generators in dictionary order; each one is
    attached and at once performs its own query: it sends the query
    commands its class defines, [toneCmd] then [sweepCmd], through the
    callback it has just received.  At that point every tone generator
    holds the transport and the callback, and the transmitter's own
    attributes are untouched.  Only then is the transmitter itself
    attached and its own query run: its commands [tpwrCmd], [frqCmd] and
    [attCmd] as far as the query gets, all of them when the call returns,
    and after them the queries that the transmitter's query makes of its
    tone generators. *)
Theorem addTransport_children_before_parent (cls : _tx.Class) (t : Transport)
    (cb : Callback) (s : St _tx.Obj) :
  NoDup (_tx.toneGenDict (obj s)).*1 →
  Forall (λ ig, is_Some (parent (_tx.tg_obj ig.2))) (_tx.toneGenDict (obj s)) →
  let r := _tx.addTransport E cls t cb true s in
  let me := _tx.tx_base (obj s) in
  ∃ (s_mid : St _tx.Obj) (segs : list (list Event)) (own later : list Event),
    (* every tone generator has been attached and has queried ... *)
    trace s_mid = trace s ++ concat segs ∧
    Forall2 (child_segment t cb) (_tx.toneGenDict (obj s)) segs ∧
    Forall2 (attached t cb) (_tx.toneGenDict (obj s)) (_tx.toneGenDict (obj s_mid)) ∧
    (* ... while the transmitter itself is still as it was; *)
    _tx.tx_base (obj s_mid) = me ∧
    (* the transmitter's own assignment and query come after that *)
    r = _base.addTransport (_tx.queryConfiguration E cls) t cb true s_mid ∧
    trace (state_of r) = trace s_mid ++ EvAttach (who me) t cb :: own ++ later ∧
    sent_by (who me) own (take (length own) (tx_queries cls me (Some cb))) ∧
    (returns r = Some tt → sent_by (who me) own (tx_queries cls me (Some cb))) ∧
    Forall query_call (own ++ later).
Proof.
  intros Hnd Hpar r me. subst r me.
  destruct (children_attach_loop t cb (_tx.toneGenDict (obj s)) [] s eq_refl Hnd Hpar)
    as (s_mid & segs & kids & Hloop & Htr & Hbase & Hdict & Hsegs & Hatt).
  cbn [app] in Hdict.
  assert (Hwhole : _tx.addTransport E cls t cb true s
                   = _base.addTransport (_tx.queryConfiguration E cls) t cb true s_mid).
  { unfold _tx.addTransport. unfold mbind at 1 2, M_bind at 1 2, gets.
    cbn [obj]. by rewrite Hloop. }
  rewrite Hwhole.
  set (s_att := mkSt (_tx.mkObj (set_callback (Some cb)
                                   (set_transport (Some t) (_tx.tx_base (obj s_mid))))
                                (_tx.toneGenDict (obj s_mid)))
                     (trace s_mid ++ [EvAttach (who (_tx.tx_base (obj s))) t cb])).
  assert (Hrun : _base.addTransport (_tx.queryConfiguration E cls) t cb true s_mid
                 = (_tx.queryConfiguration E cls ≫= λ _, mret tt) s_att).
  { unfold _base.addTransport. rewrite !update_bind, bind_run.
    unfold self, gets, mbind at 1, M_bind at 1, emit, modify.
    cbn [obj trace base with_base _tx.Obj_BaseObject _tx.tx_base _tx.toneGenDict].
    unfold s_att. rewrite <- Hbase. reflexivity. }
  rewrite Hrun, bind_run.
  destruct (tx_queryConfiguration_own_first cls s_att)
    as (own & later & Htr' & Hpre & Hq & Hall).
  assert (Hwho : who (_tx.tx_base (obj s_att)) = who (_tx.tx_base (obj s)))
    by (cbn; unfold who; by rewrite Hbase).
  rewrite Hwho in Hpre, Hall.
  replace (tx_queries cls (_tx.tx_base (obj s_att)) (callback (_tx.tx_base (obj s_att))))
    with (tx_queries cls (_tx.tx_base (obj s)) (Some cb)) in Hpre, Hall
    by (unfold tx_queries; cbn; by rewrite Hbase).
  exists s_mid, segs, own, later.
  split; [exact Htr|]. split; [exact Hsegs|].
  split; [by rewrite Hdict|]. split; [exact Hbase|]. split; [by rewrite Hrun, bind_run|].
  assert (Htrace : trace (state_of (_tx.queryConfiguration E cls s_att))
                   = trace s_mid ++ EvAttach (who (_tx.tx_base (obj s))) t cb :: own ++ later).
  { rewrite Htr'. unfold s_att. cbn [trace]. by rewrite <- app_assoc. }
  assert (Hqs : Forall query_call (own ++ later)).
  { apply Forall_app. split; [|exact Hq].
    eapply sent_by_queries; [exact Hpre|].
    apply Forall_take, tx_queries_query. }
  destruct (_tx.queryConfiguration E cls s_att) as [conf s1|e s1]; cbn [state_of] in *.
  - repeat split; try done. intros _. apply Hall. by eexists.
  - repeat split; try done.
Qed.

End ChildrenFirst.

Lemma tx1_constructed : _tx.__init__ two_tone_tx None (Some "callback") 1 = Val tx1.
Proof. reflexivity. Qed.

(** The hypotheses of the theorem hold for the transmitter that [__init__]
    builds, and on hardware that accepts every command the call returns. *)
Lemma addTransport_children_before_parent_witness :
  let r := _tx.addTransport accepting two_tone_tx "transport" "callback" true
             (mkSt tx1 []) in
  let me := _tx.tx_base tx1 in
  returns r = Some tt ∧
  ∃ (s_mid : St _tx.Obj) (segs : list (list Event)) (own later : list Event),
    trace s_mid = [] ++ concat segs ∧
    Forall2 (child_segment "transport" "callback") (_tx.toneGenDict tx1) segs ∧
    Forall2 (attached "transport" "callback") (_tx.toneGenDict tx1)
      (_tx.toneGenDict (obj s_mid)) ∧
    _tx.tx_base (obj s_mid) = me ∧
    r = _base.addTransport (_tx.queryConfiguration accepting two_tone_tx)
          "transport" "callback" true s_mid ∧
    trace (state_of r)
    = trace s_mid ++ EvAttach (who me) "transport" "callback" :: own ++ later ∧
    sent_by (who me) own
      (take (length own) (tx_queries two_tone_tx me (Some "callback"))) ∧
    (returns r = Some tt →
     sent_by (who me) own (tx_queries two_tone_tx me (Some "callback"))) ∧
    Forall query_call (own ++ later).
Proof.
  cbv zeta. split; [vm_compute; reflexivity|].
  apply (addTransport_children_before_parent accepting two_tone_tx "transport" "callback"
           (mkSt tx1 [])).
  - apply (bool_decide_unpack _). reflexivity.
  - repeat (apply Forall_cons; split; [by eexists|]). apply Forall_nil_2.
Defined.

(** ** More on the value transforms *)

Section AdjustMore.
Local Open Scope Q_scope.

Lemma rint_mono (x y : Q) : x <= y → (rint x ≤ rint y)%Z.
Proof.
  intros Hxy.
  destruct (rint_near x) as [Hx1 Hx2]. destruct (rint_near y) as [Hy1 Hy2].
  destruct (Z_le_gt_dec (rint x) (rint y)) as [|Hgt]; [done|].
  exfalso.
  assert (Hz : (rint y + 1 ≤ rint x)%Z) by lia.
  rewrite Zle_Qle, inject_Z_plus in Hz. change (inject_Z 1) with 1 in Hz.
  assert (Heq : x == y) by lra.
  apply rint_comp in Heq. lia.
Qed.


End AdjustMore.

Section AdjustExtras.
Local Open Scope Q_scope.


Lemma adjustAttenuation_as_adjustFrequency (v lo hi res units : Q) :
  lo <= hi → adjustAttenuation v (lo, hi) res units = adjustFrequency v (lo, hi) res units.
Proof.
  intros Hle. unfold adjustAttenuation, adjustFrequency. cbn [fst snd].
  change (py_min (py_max v lo) hi) with (clampA v lo hi).
  change (if Qltb hi v then hi else if Qltb v lo then lo else v) with (clampF v lo hi).
  by rewrite clamp_agree.
Qed.



(** On a range with [min <= max] the two helpers are the same function:
    the conditional clamp of [adjustFrequency] and the [max]/[min] clamp of
    [adjustAttenuation] agree, and so do the results, errors included. *)
Theorem adjust_helpers_agree (v lo hi res units : Q) :
  lo <= hi → adjustAttenuation v (lo, hi) res units = adjustFrequency v (lo, hi) res units.
Proof. apply adjustAttenuation_as_adjustFrequency. Qed.

(** The hypothesis of the theorem holds for the tuner's attenuation range. *)
Lemma adjust_helpers_agree_witness :
  adjustAttenuation 31.4 (0, 30) 1 1 = adjustFrequency 31.4 (0, 30) 1 1.
Proof.
  apply (adjust_helpers_agree 31.4 0 30 1 1). apply Qle_bool_iff. reflexivity.
Defined.



End AdjustExtras.

(** ** Binary64: powers of two and the rounding function *)

Section Binary64Rounding.
Import binary64.
Local Open Scope Q_scope.

Lemma pow2_pos (e : Z) : 0 < pow2 e.
Proof. by apply Qpower_0_lt. Qed.

Lemma pow2_nz (e : Z) : ¬ pow2 e == 0.
Proof. pose proof (pow2_pos e). lra. Qed.

Lemma pow2_add (a b : Z) : pow2 (a + b) == pow2 a * pow2 b.
Proof. unfold pow2. by apply Qpower_plus. Qed.

Lemma pow2_sub (a b : Z) : pow2 (a - b) == pow2 a / pow2 b.
Proof.
  unfold pow2, Z.sub. rewrite Qpower_plus by done. by rewrite Qpower_opp.
Qed.

Lemma pow2_le (a b : Z) : (a ≤ b)%Z → pow2 a <= pow2 b.
Proof. intros. by apply Qpower_le_compat_l. Qed.

Lemma pow2_lt (a b : Z) : (a < b)%Z → pow2 a < pow2 b.
Proof. intros. by apply Qpower_lt_compat_l. Qed.

Lemma pow2_lt_inv (a b : Z) : pow2 a < pow2 b → (a < b)%Z.
Proof. intros. by apply (Qpower_lt_compat_l_inv 2). Qed.

Lemma pow2_Z (n : Z) : (0 ≤ n)%Z → pow2 n == inject_Z (2 ^ n).
Proof. intros. unfold pow2. by rewrite Zpower_Qpower. Qed.

Lemma pow2_succ (e : Z) : pow2 (e + 1) == 2 * pow2 e.
Proof. rewrite pow2_add. change (pow2 1) with 2. ring. Qed.

Lemma ilog2_spec (q : Q) : 0 < q → pow2 (ilog2 q) <= q ∧ q < pow2 (ilog2 q + 1).
Proof.
  intros Hq. destruct q as [n d]. unfold ilog2. cbn [Qnum Qden].
  assert (Hn : (0 < n)%Z).
  { unfold Qlt in Hq. cbn in Hq. lia. }
  set (a := Z.log2 n). set (b := Z.log2 (Z.pos d)).
  destruct (Z.log2_spec n Hn) as [Ha1 Ha2]. fold a in Ha1, Ha2.
  destruct (Z.log2_spec (Z.pos d) ltac:(done)) as [Hb1 Hb2]. fold b in Hb1, Hb2.
  assert (Ha0 : (0 ≤ a)%Z) by apply Z.log2_nonneg.
  assert (Hb0 : (0 ≤ b)%Z) by apply Z.log2_nonneg.
  assert (Hnd : n # d == inject_Z n / inject_Z (Z.pos d)) by apply Qmake_Qdiv.
  assert (Hd : 0 < inject_Z (Z.pos d)) by (by apply (Qlt_alt 0)).
  assert (HA1 : pow2 a <= inject_Z n).
  { rewrite pow2_Z by done. by rewrite <- Zle_Qle. }
  assert (HA2 : inject_Z n < pow2 (a + 1)).
  { rewrite pow2_Z by lia. rewrite <- Zlt_Qlt. by rewrite <- Z.add_1_r in Ha2. }
  assert (HB1 : pow2 b <= inject_Z (Z.pos d)).
  { rewrite pow2_Z by done. by rewrite <- Zle_Qle. }
  assert (HB2 : inject_Z (Z.pos d) < pow2 (b + 1)).
  { rewrite pow2_Z by lia. rewrite <- Zlt_Qlt. by rewrite <- Z.add_1_r in Hb2. }
  pose proof (pow2_pos b) as Hpb. pose proof (pow2_pos (a - b)) as Hpab.
  assert (Hup : n # d < pow2 (a - b + 1)).
  { rewrite Hnd. apply Qlt_shift_div_r; [done|].
    apply Qlt_le_trans with (pow2 (a + 1)); [done|].
    replace (a + 1)%Z with ((a - b + 1) + b)%Z by lia. rewrite pow2_add.
    apply Qmult_le_l; [apply pow2_pos | done]. }
  assert (Hdn : pow2 (a - b - 1) <= n # d).
  { rewrite Hnd. apply Qle_shift_div_l; [done|].
    apply Qle_trans with (pow2 a); [|done].
    replace a with ((a - b - 1) + (b + 1))%Z at 2 by lia. rewrite pow2_add.
    apply Qmult_le_l; [apply pow2_pos | by apply Qlt_le_weak]. }
  destruct (Qle_bool (pow2 (a - b)) (n # d)) eqn:Hb.
  - apply Qle_bool_iff in Hb. done.
  - assert (Hlt : n # d < pow2 (a - b)).
    { apply Qnot_le_lt. intros H. apply Qle_bool_iff in H. congruence. }
    replace (a - b - 1 + 1)%Z with (a - b)%Z by lia. done.
Qed.

Lemma ilog2_unique (q : Q) (k : Z) : pow2 k <= q → q < pow2 (k + 1) → ilog2 q = k.
Proof.
  intros H1 H2.
  assert (Hq : 0 < q) by (pose proof (pow2_pos k); lra).
  destruct (ilog2_spec q Hq) as [H3 H4].
  assert (ilog2 q < k + 1)%Z by (apply pow2_lt_inv; lra).
  assert (k < ilog2 q + 1)%Z by (apply pow2_lt_inv; lra).
  lia.
Qed.

Lemma ilog2_mono (x y : Q) : 0 < x → x <= y → (ilog2 x ≤ ilog2 y)%Z.
Proof.
  intros Hx Hxy.
  destruct (ilog2_spec x Hx) as [H1 _].
  destruct (ilog2_spec y ltac:(lra)) as [_ H2].
  assert (ilog2 x < ilog2 y + 1)%Z by (apply pow2_lt_inv; lra). lia.
Qed.

Lemma ilog2_comp (x y : Q) : x == y → 0 < x → ilog2 x = ilog2 y.
Proof.
  intros Hxy Hx. destruct (ilog2_spec y ltac:(lra)) as [H1 H2].
  apply ilog2_unique; lra.
Qed.

Lemma fexp_ge_emin (q : Q) : (emin ≤ fexp q)%Z.
Proof. unfold fexp. lia. Qed.

Lemma fexp_mono (x y : Q) : 0 < x → x <= y → (fexp x ≤ fexp y)%Z.
Proof.
  intros Hx Hxy. pose proof (ilog2_mono x y Hx Hxy). unfold fexp. lia.
Qed.

Lemma fexp_comp (x y : Q) : x == y → 0 < x → fexp x = fexp y.
Proof. intros Hxy Hx. unfold fexp. by rewrite (ilog2_comp x y). Qed.

(** The scaled magnitude lies below [2^53], and at or above [2^52] unless
    the number is subnormal. *)
Lemma scaled_bounds (q : Q) :
  0 < q →
  0 < q / pow2 (fexp q) ∧ q / pow2 (fexp q) < inject_Z (2 ^ prec) ∧
  ((emin < fexp q)%Z → inject_Z (2 ^ (prec - 1)) <= q / pow2 (fexp q)).
Proof.
  intros Hq. destruct (ilog2_spec q Hq) as [H1 H2].
  pose proof (pow2_pos (fexp q)) as He.
  split; [|split].
  - by apply Qlt_shift_div_l; [|lra].
  - apply Qlt_shift_div_r; [done|].
    apply Qlt_le_trans with (pow2 (ilog2 q + 1)); [done|].
    rewrite <- pow2_Z by done. rewrite <- pow2_add.
    apply pow2_le. unfold fexp, prec. lia.
  - intros Hn. apply Qle_shift_div_l; [done|].
    apply Qle_trans with (pow2 (ilog2 q)); [|done].
    rewrite <- pow2_Z by done. rewrite <- pow2_add.
    apply pow2_le. unfold fexp, prec in *. lia.
Qed.

Lemma mantissa_bounds (q : Q) :
  0 < q →
  (0 ≤ (round_pos q).1 ≤ 2 ^ prec)%Z ∧
  ((emin < fexp q)%Z → (2 ^ (prec - 1) ≤ (round_pos q).1)%Z).
Proof.
  intros Hq. destruct (scaled_bounds q Hq) as (H0 & H1 & H2).
  unfold round_pos. cbn [fst]. split.
  - apply rint_between; [|by apply Qlt_le_weak]. change (inject_Z 0) with 0. lra.
  - intros Hn. specialize (H2 Hn).
    apply (rint_between (2 ^ (prec - 1)) (2 ^ prec)); [done | by apply Qlt_le_weak].
Qed.

Lemma round_val_eq (q : Q) :
  round_val q = inject_Z (rint (q / pow2 (fexp q))) * pow2 (fexp q).
Proof. reflexivity. Qed.

Lemma round_val_nonneg (q : Q) : 0 < q → 0 <= round_val q.
Proof.
  intros Hq. destruct (mantissa_bounds q Hq) as [[Hm _] _].
  unfold round_val. apply Qmult_le_0_compat.
  - change 0 with (inject_Z 0). by rewrite <- Zle_Qle.
  - apply Qlt_le_weak, pow2_pos.
Qed.

Lemma round_val_comp (x y : Q) : x == y → 0 < x → round_val x == round_val y.
Proof.
  intros Hxy Hx. rewrite !round_val_eq. rewrite <- (fexp_comp x y Hxy Hx).
  rewrite (rint_comp (x / pow2 (fexp x)) (y / pow2 (fexp x))); [reflexivity|].
  unfold Qdiv. apply Qmult_comp; [exact Hxy | reflexivity].
Qed.

(** Rounding is monotone. *)
Lemma round_val_mono (x y : Q) : 0 < x → x <= y → round_val x <= round_val y.
Proof.
  intros Hx Hxy. assert (Hy : 0 < y) by lra.
  pose proof (fexp_mono x y Hx Hxy) as He.
  rewrite !round_val_eq.
  destruct (decide (fexp x = fexp y)) as [Heq|Hne].
  - rewrite Heq. apply Qmult_le_compat_r; [|apply Qlt_le_weak, pow2_pos].
    rewrite <- Zle_Qle. apply rint_mono.
    apply Qmult_le_compat_r; [done|].
    apply Qlt_le_weak, Qinv_lt_0_compat, pow2_pos.
  - assert (Hlt : (fexp x < fexp y)%Z) by lia.
    destruct (mantissa_bounds x Hx) as [[_ Hmx] _].
    destruct (mantissa_bounds y Hy) as [_ Hmy].
    pose proof (fexp_ge_emin x). specialize (Hmy ltac:(lia)).
    unfold round_pos in Hmx, Hmy. cbn [fst] in Hmx, Hmy.
    apply Qle_trans with (inject_Z (2 ^ prec) * pow2 (fexp x)).
    { apply Qmult_le_compat_r; [by rewrite <- Zle_Qle | apply Qlt_le_weak, pow2_pos]. }
    apply Qle_trans with (inject_Z (2 ^ (prec - 1)) * pow2 (fexp y)).
    2:{ apply Qmult_le_compat_r; [by rewrite <- Zle_Qle | apply Qlt_le_weak, pow2_pos]. }
    rewrite <- !pow2_Z by done. rewrite <- !pow2_add. apply pow2_le. lia.
Qed.

(** A number with a mantissa of at most 53 bits and an exponent not below
    the smallest one is its own rounding. *)
Lemma round_val_fix_lt (m e : Z) :
  (0 < m < 2 ^ prec)%Z → (emin ≤ e)%Z →
  round_val (inject_Z m * pow2 e) == inject_Z m * pow2 e.
Proof.
  intros [Hm0 Hm] He. set (q := inject_Z m * pow2 e).
  pose proof (pow2_pos e) as Hpe.
  assert (Hq : 0 < q).
  { apply Qmult_lt_0_compat; [|done]. change 0 with (inject_Z 0). by rewrite <- Zlt_Qlt. }
  destruct (ilog2_spec q Hq) as [H1 H2].
  assert (Hf : (fexp q ≤ e)%Z).
  { assert (Hlt : pow2 (ilog2 q) < pow2 (e + prec)).
    { apply Qle_lt_trans with q; [done|]. unfold q.
      replace (e + prec)%Z with (prec + e)%Z by lia. rewrite pow2_add.
      apply Qmult_lt_compat_r; [done|]. rewrite pow2_Z by done.
      by rewrite <- Zlt_Qlt. }
    apply pow2_lt_inv in Hlt. unfold fexp, prec, emin in *. lia. }
  rewrite round_val_eq.
  assert (Hs : q / pow2 (fexp q) == inject_Z (m * 2 ^ (e - fexp q))).
  { rewrite inject_Z_mult, <- pow2_Z by (clear - Hf; lia). rewrite pow2_sub. unfold q.
    field. apply pow2_nz. }
  rewrite (rint_comp _ _ Hs), rint_Z.
  rewrite inject_Z_mult, <- pow2_Z by (clear - Hf; lia). rewrite pow2_sub. unfold q.
  field. apply pow2_nz.
Qed.

Lemma round_val_fix (m e : Z) :
  (0 < m ≤ 2 ^ prec)%Z → (emin ≤ e)%Z →
  round_val (inject_Z m * pow2 e) == inject_Z m * pow2 e.
Proof.
  intros [Hm0 Hm] He.
  destruct (decide (m = 2 ^ prec)%Z) as [->|Hne].
  - assert (Heq : inject_Z (2 ^ prec) * pow2 e == inject_Z (2 ^ (prec - 1)) * pow2 (e + 1)).
    { rewrite pow2_succ. change (inject_Z (2 ^ prec)) with (2 * inject_Z (2 ^ (prec - 1))).
      ring. }
    assert (Hpos : 0 < inject_Z (2 ^ prec) * pow2 e).
    { apply Qmult_lt_0_compat; [done | apply pow2_pos]. }
    rewrite (round_val_comp _ _ Heq Hpos), Heq.
    apply round_val_fix_lt; [done | lia].
  - apply round_val_fix_lt; [lia | done].
Qed.

Lemma huge_pos : 0 < huge.
Proof. apply pow2_pos. Qed.

Lemma rmag_nonneg (q : Q) : 0 <= rmag q.
Proof.
  unfold rmag. destruct (Qle_bool q 0) eqn:Hq; [lra|].
  apply round_val_nonneg. apply Qnot_le_lt. intros H. apply Qle_bool_iff in H. congruence.
Qed.

Lemma rmag_pos (q : Q) : 0 < q → rmag q = round_val q.
Proof.
  intros Hq. unfold rmag. destruct (Qle_bool q 0) eqn:Hb; [|done].
  apply Qle_bool_iff in Hb. lra.
Qed.

Lemma rmag_zero (q : Q) : q <= 0 → rmag q = 0.
Proof. intros Hq. unfold rmag. apply Qle_bool_iff in Hq. by rewrite Hq. Qed.

Lemma rmag_comp (x y : Q) : x == y → rmag x == rmag y.
Proof.
  intros Hxy. destruct (Qlt_le_dec 0 x) as [Hx|Hx].
  - rewrite !rmag_pos by lra. by apply round_val_comp.
  - rewrite !rmag_zero by lra. reflexivity.
Qed.

Lemma rmag_mono (x y : Q) : x <= y → rmag x <= rmag y.
Proof.
  intros Hxy. destruct (Qlt_le_dec 0 x) as [Hx|Hx].
  - rewrite !rmag_pos by lra. by apply round_val_mono.
  - rewrite (rmag_zero x) by done. apply rmag_nonneg.
Qed.

Lemma saturated_spec (q : Q) :
  (huge <= q ∧ saturated q = huge) ∨ (q < huge ∧ saturated q = q).
Proof.
  unfold saturated. destruct (Qle_bool huge q) eqn:Hb.
  - left. by apply Qle_bool_iff in Hb.
  - right. split; [|done]. apply Qnot_le_lt. intros H. apply Qle_bool_iff in H. congruence.
Qed.

Lemma saturated_comp (x y : Q) : x == y → saturated x == saturated y.
Proof.
  intros Hxy.
  destruct (saturated_spec x) as [[H1 ->]|[H1 ->]], (saturated_spec y) as [[H2 ->]|[H2 ->]];
    lra.
Qed.

Lemma saturated_mono (x y : Q) : x <= y → saturated x <= saturated y.
Proof.
  intros Hxy.
  destruct (saturated_spec x) as [[H1 ->]|[H1 ->]], (saturated_spec y) as [[H2 ->]|[H2 ->]];
    lra.
Qed.

Lemma saturated_bounds (q : Q) : 0 <= q → 0 <= saturated q ∧ saturated q <= huge.
Proof.
  intros Hq. pose proof huge_pos.
  destruct (saturated_spec q) as [[H1 ->]|[H1 ->]]; lra.
Qed.

Lemma rnd_nonneg (v : Q) : 0 <= v → rnd v = saturated (rmag v).
Proof. intros Hv. unfold rnd. apply Qle_bool_iff in Hv. by rewrite Hv. Qed.

Lemma rnd_neg (v : Q) : v < 0 → rnd v = - saturated (rmag (- v)).
Proof.
  intros Hv. unfold rnd. destruct (Qle_bool 0 v) eqn:Hb; [|done].
  apply Qle_bool_iff in Hb. lra.
Qed.

Lemma rnd_comp (v w : Q) : v == w → rnd v == rnd w.
Proof.
  intros Hvw. destruct (Qlt_le_dec v 0) as [Hv|Hv].
  - rewrite !rnd_neg by lra. apply Qopp_comp, saturated_comp, rmag_comp. by rewrite Hvw.
  - rewrite !rnd_nonneg by lra. by apply saturated_comp, rmag_comp.
Qed.

(** Rounding, overflow included, is monotone. *)
Lemma rnd_mono (v w : Q) : v <= w → rnd v <= rnd w.
Proof.
  intros Hvw. destruct (Qlt_le_dec v 0) as [Hv|Hv], (Qlt_le_dec w 0) as [Hw|Hw].
  - rewrite !rnd_neg by done. apply Qopp_le_compat, saturated_mono, rmag_mono. lra.
  - rewrite rnd_neg, rnd_nonneg by done.
    pose proof (saturated_bounds (rmag (- v)) (rmag_nonneg _)).
    pose proof (saturated_bounds (rmag w) (rmag_nonneg _)). lra.
  - lra.
  - rewrite !rnd_nonneg by done. by apply saturated_mono, rmag_mono.
Qed.

(** A binary64 number is its own rounding. *)
Lemma magnitude_nonneg (x : float) : 0 <= magnitude x.
Proof.
  destruct x as [| | |s m e]; cbn; try lra.
  apply Qmult_le_0_compat; [done | apply Qlt_le_weak, pow2_pos].
Qed.

Lemma is_binary64_bounds (s : bool) (m : positive) (e : Z) :
  is_binary64 (S754_finite s m e) = true →
  (Z.pos m < 2 ^ prec)%Z ∧ (emin ≤ e)%Z ∧ (e ≤ emax - prec)%Z.
Proof.
  cbn. rewrite !andb_true_iff. intros [[H1 H2] H3].
  apply Z.ltb_lt in H1. apply Z.leb_le in H2, H3. done.
Qed.

Lemma magnitude_lt_huge (x : float) : is_binary64 x = true → magnitude x < huge.
Proof.
  destruct x as [| | |s m e]; intros Hx; try discriminate; [apply huge_pos|].
  apply is_binary64_bounds in Hx as (Hm & He1 & He2). cbn [magnitude].
  apply Qlt_le_trans with (inject_Z (2 ^ prec) * pow2 e).
  { apply Qmult_lt_compat_r; [apply pow2_pos | by rewrite <- Zlt_Qlt]. }
  rewrite <- pow2_Z by done. rewrite <- pow2_add. apply pow2_le. unfold emax, prec in *. lia.
Qed.

Lemma rmag_magnitude (x : float) : is_binary64 x = true → rmag (magnitude x) == magnitude x.
Proof.
  destruct x as [| | |s m e]; intros Hx; try discriminate.
  - by rewrite rmag_zero.
  - apply is_binary64_bounds in Hx as (Hm & He1 & He2). cbn [magnitude].
    rewrite rmag_pos.
    + apply round_val_fix; [lia | done].
    + apply Qmult_lt_0_compat; [done | apply pow2_pos].
Qed.

Lemma rnd_B2Q (x : float) : is_binary64 x = true → rnd (B2Q x) == B2Q x.
Proof.
  intros Hx. pose proof (magnitude_nonneg x) as H0.
  pose proof (magnitude_lt_huge x Hx) as H1. pose proof (rmag_magnitude x Hx) as H2.
  unfold B2Q. destruct (sign x).
  - destruct (Qlt_le_dec 0 (magnitude x)) as [Hp|Hp].
    + rewrite rnd_neg by lra.
      assert (Hc : rmag (- - magnitude x) == magnitude x).
      { rewrite <- H2 at 2. apply rmag_comp. ring. }
      destruct (saturated_spec (rmag (- - magnitude x))) as [[H3 ->]|[H3 ->]]; lra.
    + rewrite rnd_nonneg by lra. rewrite rmag_zero by lra.
      destruct (saturated_spec 0) as [[H3 ->]|[H3 ->]]; lra.
  - rewrite rnd_nonneg by done.
    destruct (saturated_spec (rmag (magnitude x))) as [[H3 ->]|[H3 ->]]; lra.
Qed.

Lemma saturated_small (q : Q) : q < huge → saturated q = q.
Proof. intros Hq. destruct (saturated_spec q) as [[H _]|[_ H]]; [lra | done]. Qed.

Lemma saturated_large (q : Q) : huge <= q → saturated q = huge.
Proof. intros Hq. destruct (saturated_spec q) as [[_ H]|[H _]]; [done | lra]. Qed.

Lemma fround_cases (s : bool) (q : Q) :
  0 <= q →
  (fround s q = S754_zero s ∧ rmag q == 0) ∨
  (fround s q = S754_infinity s ∧ huge <= rmag q) ∨
  (∃ m e, fround s q = S754_finite s m e ∧ is_binary64 (S754_finite s m e) = true ∧
          inject_Z (Z.pos m) * pow2 e == rmag q).
Proof.
  intros Hq. unfold fround.
  destruct (Qle_bool q 0) eqn:Hb.
  { left. apply Qle_bool_iff in Hb. by rewrite rmag_zero. }
  assert (Hpos : 0 < q).
  { apply Qnot_le_lt. intros H. apply Qle_bool_iff in H. congruence. }
  rewrite (rmag_pos q Hpos), round_val_eq.
  destruct (mantissa_bounds q Hpos) as [[Hm0 Hm1] Hm2].
  pose proof (fexp_ge_emin q) as He.
  unfold round_pos in *. cbn [fst] in Hm0, Hm1, Hm2.
  set (m := rint (q / pow2 (fexp q))) in *. set (e := fexp q) in *.
  destruct (m =? 0)%Z eqn:Hz.
  { left. apply Z.eqb_eq in Hz. rewrite Hz. split; [done|]. ring. }
  apply Z.eqb_neq in Hz. right.
  set (me := if (m =? 2 ^ prec)%Z then (2 ^ (prec - 1), e + 1)%Z else (m, e)).
  assert (Hme : (0 < me.1 < 2 ^ prec)%Z ∧ (emin ≤ me.2)%Z ∧
                ((emin < me.2)%Z → (2 ^ (prec - 1) ≤ me.1)%Z) ∧
                inject_Z me.1 * pow2 me.2 == inject_Z m * pow2 e).
  { unfold me. destruct (m =? 2 ^ prec)%Z eqn:Hc; cbn [fst snd].
    - apply Z.eqb_eq in Hc. rewrite Hc. split; [done|]. split; [lia|]. split; [done|].
      rewrite pow2_succ. change (inject_Z (2 ^ prec)) with (2 * inject_Z (2 ^ (prec - 1))).
      ring.
    - apply Z.eqb_neq in Hc. split; [lia|]. split; [done|]. split; [done|]. reflexivity. }
  destruct me as [m' e']. cbn [fst snd] in Hme.
  destruct Hme as ([Hp0 Hp1] & He' & Hnorm & Hval).
  destruct (emax - prec <? e')%Z eqn:Hov.
  - left. apply Z.ltb_lt in Hov. split; [done|].
    rewrite <- Hval. specialize (Hnorm ltac:(unfold emax, prec, emin in *; lia)).
    apply Qle_trans with (inject_Z (2 ^ (prec - 1)) * pow2 e').
    + unfold huge. rewrite <- pow2_Z by done. rewrite <- pow2_add. apply pow2_le.
      unfold emax, prec in *. lia.
    + apply Qmult_le_compat_r; [by rewrite <- Zle_Qle | apply Qlt_le_weak, pow2_pos].
  - right. apply Z.ltb_ge in Hov. exists (Z.to_pos m'), e'. split; [done|]. split.
    + cbn. rewrite Z2Pos.id by done. rewrite !andb_true_iff. split; [split|].
      * by apply Z.ltb_lt.
      * by apply Z.leb_le.
      * by apply Z.leb_le.
    + by rewrite Z2Pos.id.
Qed.

Lemma fround_sign (s : bool) (q : Q) : 0 <= q → sign (fround s q) = s.
Proof.
  intros Hq. destruct (fround_cases s q Hq) as [[-> _]|[[-> _]|(m & e & -> & _)]]; done.
Qed.

Lemma fround_number (s : bool) (q : Q) : 0 <= q → is_number (fround s q) = true.
Proof.
  intros Hq. destruct (fround_cases s q Hq) as [[-> _]|[[-> _]|(m & e & -> & H & _)]]; done.
Qed.

Lemma ev_fround (s : bool) (q : Q) :
  0 <= q →
  ev (fround s q) == (if s then - saturated (rmag q) else saturated (rmag q)).
Proof.
  intros Hq. pose proof huge_pos as Hh.
  destruct (fround_cases s q Hq) as [[-> H]|[[-> H]|(m & e & -> & Hb & H)]].
  - rewrite saturated_small by lra. cbn. destruct s; cbn; lra.
  - rewrite saturated_large by done. cbn. by destruct s.
  - pose proof (magnitude_lt_huge _ Hb) as Hlt. cbn [magnitude] in Hlt.
    rewrite saturated_small by lra.
    cbn [ev]. unfold B2Q. cbn [sign magnitude]. destruct s; by rewrite H.
Qed.

Lemma ev_fround_rnd (s : bool) (q : Q) :
  0 <= q → ev (fround s q) == rnd (if s then - q else q).
Proof.
  intros Hq. rewrite ev_fround by done. destruct s.
  - destruct (Qlt_le_dec 0 q) as [Hp|Hp].
    + rewrite rnd_neg by lra. apply Qopp_comp, saturated_comp, rmag_comp. ring.
    + rewrite rnd_nonneg by lra. rewrite !rmag_zero by lra.
      rewrite saturated_small by apply huge_pos. ring.
  - by rewrite rnd_nonneg.
Qed.

Lemma ev_finite (x : float) : is_binary64 x = true → ev x = B2Q x.
Proof. by destruct x. Qed.

Lemma binary64_number (x : float) : is_binary64 x = true → is_number x = true.
Proof. by destruct x. Qed.

Lemma ev_bounds (x : float) : is_number x = true → - huge <= ev x ∧ ev x <= huge.
Proof.
  pose proof huge_pos as Hh. destruct x as [s|s| |s m e]; intros Hx; try discriminate.
  - cbn. destruct s; cbn; lra.
  - cbn. destruct s; lra.
  - pose proof (magnitude_lt_huge _ Hx) as Hlt. pose proof (magnitude_nonneg (S754_finite s m e)).
    cbn [ev]. unfold B2Q. cbn [sign]. destruct s; lra.
Qed.

Lemma B2Q_bounds (x : float) : is_binary64 x = true → - huge < B2Q x ∧ B2Q x < huge.
Proof.
  intros Hx. pose proof (magnitude_lt_huge _ Hx) as Hlt. pose proof (magnitude_nonneg x).
  unfold B2Q. destruct (sign x); lra.
Qed.

(** A number whose value lies strictly between the two infinities is
    finite. *)
Lemma number_finite (x : float) :
  is_number x = true → - huge < ev x → ev x < huge → is_binary64 x = true.
Proof.
  destruct x as [s|s| |s m e]; intros Hx H1 H2; try done.
  cbn in H1, H2. destruct s; lra.
Qed.

Lemma B2Q_product (x y : float) :
  B2Q x * B2Q y
  == if xorb (sign x) (sign y) then - (magnitude x * magnitude y)
     else magnitude x * magnitude y.
Proof. unfold B2Q. destruct (sign x), (sign y); cbn [xorb]; ring. Qed.

Lemma magnitude_pos (s : bool) (m : positive) (e : Z) : 0 < magnitude (S754_finite s m e).
Proof. cbn. apply Qmult_lt_0_compat; [done | apply pow2_pos]. Qed.

Lemma B2Q_quotient (x y : float) :
  ¬ magnitude y == 0 →
  B2Q x / B2Q y
  == if xorb (sign x) (sign y) then - (magnitude x / magnitude y)
     else magnitude x / magnitude y.
Proof. intros Hy. unfold B2Q. destruct (sign x), (sign y); cbn [xorb]; by field. Qed.

(** The product of two binary64 numbers: the exact product, rounded. *)
Lemma np_multiply_spec (x y : float) :
  is_binary64 x = true → is_binary64 y = true →
  is_number (np_multiply x y) = true ∧ ev (np_multiply x y) == rnd (B2Q x * B2Q y).
Proof.
  intros Hx Hy.
  assert (Hq : 0 <= magnitude x * magnitude y).
  { apply Qmult_le_0_compat; apply magnitude_nonneg. }
  assert (Heq : np_multiply x y = fround (xorb (sign x) (sign y)) (magnitude x * magnitude y)).
  { destruct x, y; try discriminate; reflexivity. }
  rewrite Heq. split; [by apply fround_number|].
  rewrite ev_fround_rnd by done. apply rnd_comp. by rewrite B2Q_product.
Qed.

(** The quotient of two binary64 numbers, the divisor not zero: the exact
    quotient, rounded. *)
Lemma np_true_divide_spec (x y : float) :
  is_binary64 x = true → is_binary64 y = true → is_zero y = false →
  is_number (np_true_divide x y) = true ∧ ev (np_true_divide x y) == rnd (B2Q x / B2Q y).
Proof.
  intros Hx Hy Hz.
  destruct y as [| | |sy my ey]; try discriminate.
  pose proof (magnitude_pos sy my ey) as Hpos.
  assert (Hq : 0 <= magnitude x / magnitude (S754_finite sy my ey)).
  { apply Qle_shift_div_l; [done|]. pose proof (magnitude_nonneg x). lra. }
  assert (Heq : np_true_divide x (S754_finite sy my ey)
                = fround (xorb (sign x) sy) (magnitude x / magnitude (S754_finite sy my ey))).
  { destruct x; try discriminate; reflexivity. }
  rewrite Heq. split; [by apply fround_number|].
  rewrite ev_fround_rnd by done. apply rnd_comp.
  rewrite B2Q_quotient by lra. reflexivity.
Qed.

(** Comparison of two numbers is comparison of their values. *)
Lemma compare_ev (x y : float) :
  is_number x = true → is_number y = true →
  compare x y = Some (Qcompare (ev x) (ev y)).
Proof.
  intros Hx Hy. pose proof huge_pos as Hh.
  assert (Hlt : ∀ a b : Q, a < b → Qcompare a b = Lt) by (intros; by apply Qlt_alt).
  assert (Hgt : ∀ a b : Q, b < a → Qcompare a b = Gt) by (intros; by apply Qgt_alt).
  assert (Heq : ∀ a : Q, Qcompare a a = Eq) by (intros; by apply Qeq_alt).
  destruct x as [sx|sx| |sx mx ex]; try discriminate;
    destruct y as [sy|sy| |sy my ey]; try discriminate; try reflexivity.
  - pose proof (B2Q_bounds _ Hx). cbn [compare ev].
    destruct sy; f_equal; symmetry; [apply Hgt | apply Hlt]; lra.
  - pose proof (B2Q_bounds _ Hy). cbn [compare ev].
    destruct sx; f_equal; symmetry; [apply Hlt | apply Hgt]; lra.
  - cbn [compare ev].
    destruct sx, sy; f_equal;
      try (symmetry; first [apply Heq | apply Hlt; lra | apply Hgt; lra]).
  - pose proof (B2Q_bounds _ Hy). cbn [compare ev].
    destruct sx; f_equal; symmetry; [apply Hlt | apply Hgt]; lra.
  - pose proof (B2Q_bounds _ Hx). cbn [compare ev].
    destruct sy; f_equal; symmetry; [apply Hgt | apply Hlt]; lra.
Qed.

Lemma ltb_ev (x y : float) :
  is_number x = true → is_number y = true → (ltb x y = true ↔ ev x < ev y).
Proof.
  intros Hx Hy. unfold ltb. rewrite (compare_ev x y Hx Hy).
  destruct (Qcompare_spec (ev x) (ev y)); split; try done; intros; lra.
Qed.

Lemma leb_ev (x y : float) :
  is_number x = true → is_number y = true → (leb x y = true ↔ ev x <= ev y).
Proof.
  intros Hx Hy. unfold leb. rewrite (compare_ev x y Hx Hy).
  destruct (Qcompare_spec (ev x) (ev y)); split; try done; intros; lra.
Qed.

Lemma eqb_ev (x y : float) :
  is_number x = true → is_number y = true → (eqb x y = true ↔ ev x == ev y).
Proof.
  intros Hx Hy. unfold eqb. rewrite (compare_ev x y Hx Hy).
  destruct (Qcompare_spec (ev x) (ev y)); split; try done; intros; lra.
Qed.

(** The nearest integer, a tie going to the even one, is unique. *)
Lemma nearest_even_unique (x : Q) (n n' : Z) :
  Qabs (inject_Z n - x) <= 1 # 2 → (Qabs (inject_Z n - x) == 1 # 2 → Z.even n = true) →
  Qabs (inject_Z n' - x) <= 1 # 2 → (Qabs (inject_Z n' - x) == 1 # 2 → Z.even n' = true) →
  n = n'.
Proof.
  intros H1 E1 H2 E2.
  apply Qabs_Qle_condition in H1 as [H1a H1b]. apply Qabs_Qle_condition in H2 as [H2a H2b].
  assert (Hd : (n' ≤ n + 1 ∧ n ≤ n' + 1)%Z).
  { split; rewrite Zle_Qle, inject_Z_plus; change (inject_Z 1) with 1; lra. }
  destruct (decide (n = n')) as [|Hne]; [done|]. exfalso.
  assert (Hcase : (n = n' - 1 ∨ n = n' + 1)%Z) by lia.
  assert (Hev : Z.even n = true ∧ Z.even n' = true).
  { destruct Hcase as [-> | ->].
    - replace (n' - 1)%Z with (n' + -1)%Z in * by lia.
      rewrite inject_Z_plus in *. change (inject_Z (-1)) with (-1) in *. split.
      + apply E1. apply Qabs_case; intros; lra.
      + apply E2. apply Qabs_case; intros; lra.
    - rewrite inject_Z_plus in *. change (inject_Z 1) with 1 in *. split.
      + apply E1. apply Qabs_case; intros; lra.
      + apply E2. apply Qabs_case; intros; lra. }
  destruct Hev as [Hn Hn'].
  destruct Hcase as [-> | ->].
  - rewrite Z.even_sub, Hn' in Hn. discriminate.
  - rewrite Z.even_add, Hn' in Hn. discriminate.
Qed.

Lemma rint_nearest (x : Q) :
  Qabs (inject_Z (rint x) - x) <= 1 # 2 ∧
  (Qabs (inject_Z (rint x) - x) == 1 # 2 → Z.even (rint x) = true).
Proof.
  split; [|apply rint_tie_even].
  destruct (rint_near x). apply Qabs_Qle_condition. lra.
Qed.

Lemma rint_opp (x : Q) : rint (- x) = (- rint x)%Z.
Proof.
  destruct (rint_nearest x) as [H1 E1]. destruct (rint_nearest (- x)) as [H2 E2].
  apply (nearest_even_unique (- x)); try done.
  - rewrite inject_Z_opp.
    assert (Heq : - inject_Z (rint x) - - x == - (inject_Z (rint x) - x)) by ring.
    by rewrite Heq, Qabs_opp.
  - rewrite inject_Z_opp, Z.even_opp.
    assert (Heq : - inject_Z (rint x) - - x == - (inject_Z (rint x) - x)) by ring.
    rewrite Heq, Qabs_opp. exact E1.
Qed.

(** [numpy.rint] on a binary64 number: the nearest integer, exactly. *)
Lemma np_rint_spec (x : float) :
  is_binary64 x = true →
  is_binary64 (np_rint x) = true ∧ B2Q (np_rint x) == inject_Z (rint (B2Q x)) ∧
  sign (np_rint x) = sign x.
Proof.
  intros Hx. destruct x as [s| | |s m e]; try discriminate.
  { split; [done|]. split; [|done].
    assert (H0 : B2Q (S754_zero s) == inject_Z 0) by (by destruct s).
    by rewrite (rint_comp _ _ H0), rint_Z. }
  set (x := S754_finite s m e) in *.
  pose proof (magnitude_pos s m e) as Hpos. fold x in Hpos.
  apply is_binary64_bounds in Hx as (Hm & He1 & He2).
  set (n := rint (magnitude x)).
  assert (Hn0 : (0 ≤ n)%Z).
  { destruct (rint_near (magnitude x)) as [_ Hhi]. fold n in Hhi.
    assert (Hgt : (-1 < n)%Z); [|lia].
    rewrite Zlt_Qlt. change (inject_Z (-1)) with (-1). lra. }
  assert (Hval : inject_Z (rint (B2Q x)) == if s then - inject_Z n else inject_Z n).
  { unfold B2Q. cbn [sign x]. fold x. destruct s; [|reflexivity].
    by rewrite rint_opp, inject_Z_opp. }
  change (np_rint x) with (if (n =? 0)%Z then S754_zero s else fround s (inject_Z n)).
  destruct (n =? 0)%Z eqn:Hz.
  { apply Z.eqb_eq in Hz. split; [done|]. split; [|done].
    rewrite Hval, Hz. by destruct s. }
  apply Z.eqb_neq in Hz.
  assert (Hrep : rmag (inject_Z n) == inject_Z n ∧ inject_Z n < huge).
  { destruct (Z_le_gt_dec 0 e) as [Hge|Hlt].
    - assert (Hint : magnitude x == inject_Z (Z.pos m * 2 ^ e)).
      { cbn [magnitude x]. by rewrite inject_Z_mult, <- pow2_Z. }
      assert (Hn : n = (Z.pos m * 2 ^ e)%Z).
      { unfold n. by rewrite (rint_comp _ _ Hint), rint_Z. }
      assert (Hxb : is_binary64 x = true).
      { cbn. rewrite !andb_true_iff. split; [split|].
        - by apply Z.ltb_lt.
        - by apply Z.leb_le.
        - by apply Z.leb_le. }
      split.
      + rewrite Hn. transitivity (rmag (magnitude x)); [apply rmag_comp; by symmetry|].
        transitivity (magnitude x); [by apply rmag_magnitude | done].
      + rewrite Hn. apply Qle_lt_trans with (magnitude x); [rewrite Hint; apply Qle_refl|].
        by apply magnitude_lt_huge.
    - assert (Hlt53 : magnitude x <= inject_Z (2 ^ prec)).
      { cbn [magnitude x].
        apply Qle_trans with (inject_Z (Z.pos m) * 1).
        - apply Qmult_le_l; [done|]. change 1 with (pow2 0). apply pow2_le. lia.
        - rewrite Qmult_1_r. rewrite <- Zle_Qle. lia. }
      assert (Hn : (0 ≤ n ≤ 2 ^ prec)%Z).
      { apply rint_between; [change (inject_Z 0) with 0; lra | done]. }
      assert (Hone : inject_Z n * pow2 0 == inject_Z n) by (change (pow2 0) with 1; ring).
      split.
      + assert (Hnpos : 0 < inject_Z n * pow2 0).
        { rewrite Hone. change 0 with (inject_Z 0). rewrite <- Zlt_Qlt. lia. }
        transitivity (rmag (inject_Z n * pow2 0)); [apply rmag_comp; by symmetry|].
        rewrite rmag_pos by done. rewrite round_val_fix; [done | lia | done].
      + apply Qle_lt_trans with (inject_Z (2 ^ prec)); [rewrite <- Zle_Qle; lia|].
        unfold huge. rewrite <- pow2_Z by done. apply pow2_lt. done. }
  destruct Hrep as [Hr Hh].
  assert (Hq : 0 <= inject_Z n).
  { change 0 with (inject_Z 0). by rewrite <- Zle_Qle. }
  assert (Hnum := fround_number s (inject_Z n) Hq).
  assert (Hev := ev_fround s (inject_Z n) Hq).
  rewrite saturated_small in Hev by lra.
  assert (Hfin : is_binary64 (fround s (inject_Z n)) = true).
  { apply number_finite; [done| |]; rewrite Hev; pose proof huge_pos; destruct s; lra. }
  split; [done|]. split; [|by apply fround_sign].
  rewrite <- (ev_finite _ Hfin), Hev, Hval. destruct s; by rewrite Hr.
Qed.

Lemma number_cases (x : float) :
  is_number x = true → is_binary64 x = true ∨ ∃ s, x = S754_infinity s.
Proof. destruct x as [s|s| |s m e]; intros Hx; try done; [by left | right; by exists s | by left]. Qed.

(** An operation that rounds a monotone function of the value and keeps
    the infinities is monotone. *)
Lemma monotone_lift (op : float → float) (f : Q → Q) :
  (∀ x, is_binary64 x = true → is_number (op x) = true ∧ ev (op x) == f (B2Q x)) →
  (∀ s, op (S754_infinity s) = S754_infinity s) →
  (∀ v w, v <= w → f v <= f w) →
  monotone op.
Proof.
  intros Hfin Hinf Hmono x y Hx Hy Hxy. pose proof huge_pos as Hh.
  assert (Hnum : ∀ z, is_number z = true → is_number (op z) = true).
  { intros z Hz. destruct (number_cases z Hz) as [Hb|[s ->]].
    - by apply Hfin.
    - by rewrite Hinf. }
  split; [by apply Hnum|]. split; [by apply Hnum|].
  pose proof (ev_bounds _ (Hnum x Hx)) as [Hx1 Hx2].
  pose proof (ev_bounds _ (Hnum y Hy)) as [Hy1 Hy2].
  destruct (number_cases x Hx) as [Hbx|[sx ->]], (number_cases y Hy) as [Hby|[sy ->]].
  - destruct (Hfin x Hbx) as [_ ->]. destruct (Hfin y Hby) as [_ ->].
    apply Hmono. by rewrite <- (ev_finite x), <- (ev_finite y).
  - pose proof (B2Q_bounds x Hbx). rewrite (ev_finite x Hbx) in Hxy.
    rewrite Hinf. destruct sy; cbn in *; lra.
  - pose proof (B2Q_bounds y Hby). rewrite (ev_finite y Hby) in Hxy.
    rewrite Hinf. destruct sx; cbn in *; lra.
  - rewrite !Hinf. done.
Qed.

Lemma monotone_compose (f g : float → float) :
  monotone f → monotone g → monotone (λ x, g (f x)).
Proof.
  intros Hf Hg x y Hx Hy Hxy.
  destruct (Hf x y Hx Hy Hxy) as (H1 & H2 & H3). by apply Hg.
Qed.

Lemma Qdiv_le_mono (v w p : Q) : 0 < p → v <= w → v / p <= w / p.
Proof.
  intros Hp Hvw. apply Qmult_le_compat_r; [done|].
  apply Qlt_le_weak, Qinv_lt_0_compat, Hp.
Qed.

(** Scaling by a positive number, rounding to an integer and rounding are
    monotone. *)
Lemma np_multiply_monotone (p : float) :
  is_binary64 p = true → 0 < B2Q p → monotone (λ x, np_multiply x p).
Proof.
  intros Hp Hpos. apply (monotone_lift _ (λ v, rnd (v * B2Q p))).
  - intros x Hx. by apply np_multiply_spec.
  - intros s. destruct p as [sp| | |sp mp ep]; try discriminate.
    + exfalso. cbn in Hpos. destruct sp; cbn in Hpos; lra.
    + destruct sp; [|by destruct s].
      exfalso. pose proof (magnitude_pos true mp ep). unfold B2Q in Hpos. cbn [sign] in Hpos. lra.
  - intros v w Hvw. apply rnd_mono. apply Qmult_le_compat_r; [done | by apply Qlt_le_weak].
Qed.

Lemma np_true_divide_monotone (p : float) :
  is_binary64 p = true → 0 < B2Q p → monotone (λ x, np_true_divide x p).
Proof.
  intros Hp Hpos.
  assert (Hshape : ∃ mp ep, p = S754_finite false mp ep).
  { destruct p as [sp| | |sp mp ep]; try discriminate.
    - exfalso. cbn in Hpos. destruct sp; cbn in Hpos; lra.
    - destruct sp; [|by exists mp, ep].
      exfalso. pose proof (magnitude_pos true mp ep). unfold B2Q in Hpos. cbn [sign] in Hpos. lra. }
  destruct Hshape as (mp & ep & ->).
  apply (monotone_lift _ (λ v, rnd (v / B2Q (S754_finite false mp ep)))).
  - intros x Hx. by apply np_true_divide_spec.
  - intros s. by destruct s.
  - intros v w Hvw. apply rnd_mono. by apply Qdiv_le_mono.
Qed.

Lemma np_rint_monotone : monotone np_rint.
Proof.
  apply (monotone_lift _ (λ v, inject_Z (rint v))).
  - intros x Hx. destruct (np_rint_spec x Hx) as (Hb & Hv & _).
    split; [by apply binary64_number|]. by rewrite (ev_finite _ Hb).
  - done.
  - intros v w Hvw. rewrite <- Zle_Qle. by apply rint_mono.
Qed.

(** Up to [10^22] the power of ten is a binary64 number, and exact. *)
Lemma power_of_ten_exact (k : Z) :
  (0 ≤ k ≤ 22)%Z →
  is_binary64 (power_of_ten k) = true ∧ is_zero (power_of_ten k) = false ∧
  B2Q (power_of_ten k) == inject_Z (10 ^ k).
Proof.
  intros Hk.
  assert (Hall : Forall (λ k, exact_power_of_ten k = true) (seqZ 0 23)).
  { let l := eval vm_compute in (seqZ 0 23) in change (seqZ 0 23) with l.
    repeat (apply Forall_cons; split; [vm_compute; reflexivity|]). apply Forall_nil_2. }
  rewrite Forall_forall in Hall.
  specialize (Hall k ltac:(apply elem_of_seqZ; lia)). unfold exact_power_of_ten in Hall.
  rewrite !andb_true_iff, !negb_true_iff in Hall.
  destruct Hall as [[[H1 H2] _] H3]. apply Qeq_bool_iff in H3. done.
Qed.

Lemma power_of_ten_pos (k : Z) : (0 ≤ k ≤ 22)%Z → 0 < B2Q (power_of_ten k).
Proof.
  intros Hk. destruct (power_of_ten_exact k Hk) as (_ & _ & ->).
  change 0 with (inject_Z 0). rewrite <- Zlt_Qlt. apply Z.pow_pos_nonneg; lia.
Qed.

(** Rounding to a number of decimals is monotone. *)
Lemma np_around_monotone (d : Z) : (-22 ≤ d ≤ 22)%Z → monotone (λ x, np_around x d).
Proof.
  intros Hd. unfold np_around.
  destruct (d =? 0)%Z eqn:H0; [apply np_rint_monotone|].
  apply Z.eqb_neq in H0.
  destruct (0 <? d)%Z eqn:Hs.
  - apply Z.ltb_lt in Hs.
    destruct (power_of_ten_exact d ltac:(lia)) as (Hb & _ & _).
    pose proof (power_of_ten_pos d ltac:(lia)) as Hp.
    apply (monotone_compose (λ x, np_rint (np_multiply x (power_of_ten d)))
             (λ x, np_true_divide x (power_of_ten d))).
    + apply (monotone_compose (λ x, np_multiply x (power_of_ten d)) np_rint).
      * by apply np_multiply_monotone.
      * apply np_rint_monotone.
    + by apply np_true_divide_monotone.
  - apply Z.ltb_ge in Hs.
    destruct (power_of_ten_exact (- d) ltac:(lia)) as (Hb & _ & _).
    pose proof (power_of_ten_pos (- d) ltac:(lia)) as Hp.
    apply (monotone_compose (λ x, np_rint (np_true_divide x (power_of_ten (- d))))
             (λ x, np_multiply x (power_of_ten (- d)))).
    + apply (monotone_compose (λ x, np_true_divide x (power_of_ten (- d))) np_rint).
      * by apply np_true_divide_monotone.
      * apply np_rint_monotone.
    + by apply np_multiply_monotone.
Qed.

Lemma np_around_eq (x : float) (d : Z) : np_around x d = unscaled (np_rint (scaled x d)) d.
Proof.
  unfold np_around, scaled, unscaled.
  destruct (d =? 0)%Z; [done|]. by destruct (0 <? d)%Z.
Qed.

Lemma adjustFrequency_b64_eq (libm_log10 : float → float) (v lo hi res units : float) (d : Z) :
  decimals_of libm_log10 res = Val d →
  adjustFrequency libm_log10 v (lo, hi) res units
  = Val (np_true_divide (np_around (clampF v lo hi) d) units).
Proof. intros Hd. unfold adjustFrequency. by rewrite Hd. Qed.

Lemma adjustAttenuation_b64_eq (libm_log10 : float → float) (v lo hi res units : float)
    (d : Z) :
  decimals_of libm_log10 res = Val d →
  adjustAttenuation libm_log10 v (lo, hi) res units
  = Val (np_true_divide (np_around (clampA v lo hi) d) units).
Proof. intros Hd. unfold adjustAttenuation. by rewrite Hd. Qed.

Lemma ltb_B2Q (x y : float) :
  is_binary64 x = true → is_binary64 y = true → (ltb x y = true ↔ B2Q x < B2Q y).
Proof.
  intros Hx Hy. rewrite <- (ev_finite x Hx), <- (ev_finite y Hy).
  apply ltb_ev; by apply binary64_number.
Qed.

Lemma leb_B2Q (x y : float) :
  is_binary64 x = true → is_binary64 y = true → (leb x y = true ↔ B2Q x <= B2Q y).
Proof.
  intros Hx Hy. rewrite <- (ev_finite x Hx), <- (ev_finite y Hy).
  apply leb_ev; by apply binary64_number.
Qed.

Lemma ltb_false_B2Q (x y : float) :
  is_binary64 x = true → is_binary64 y = true → (ltb x y = false ↔ B2Q y <= B2Q x).
Proof.
  intros Hx Hy. pose proof (ltb_B2Q x y Hx Hy) as H.
  destruct (ltb x y); split; intros; try done.
  - assert (B2Q x < B2Q y) by (by apply H). lra.
  - apply Qnot_lt_le. intros Hlt. apply H in Hlt. discriminate.
Qed.

(** The clamped value is one of the three numbers and lies in the range;
    on a range with [min <= max] the two clamps agree. *)
Lemma clampF_binary64 (v lo hi : float) :
  is_binary64 v = true → is_binary64 lo = true → is_binary64 hi = true →
  is_binary64 (clampF v lo hi) = true.
Proof. intros. unfold clampF. destruct (ltb hi v), (ltb v lo); done. Qed.

Lemma clampA_binary64 (v lo hi : float) :
  is_binary64 v = true → is_binary64 lo = true → is_binary64 hi = true →
  is_binary64 (clampA v lo hi) = true.
Proof.
  intros. unfold clampA, py_min, py_max.
  destruct (ltb v lo); [destruct (ltb hi lo) | destruct (ltb hi v)]; done.
Qed.

Lemma clampF_b64_range (v lo hi : float) :
  is_binary64 v = true → is_binary64 lo = true → is_binary64 hi = true →
  leb lo hi = true →
  B2Q lo <= B2Q (clampF v lo hi) ∧ B2Q (clampF v lo hi) <= B2Q hi.
Proof.
  intros Hv Hlo Hhi Hle. apply (leb_B2Q lo hi Hlo Hhi) in Hle. unfold clampF.
  destruct (ltb hi v) eqn:H1; [lra|]. apply (ltb_false_B2Q hi v Hhi Hv) in H1.
  destruct (ltb v lo) eqn:H2; [lra|]. apply (ltb_false_B2Q v lo Hv Hlo) in H2. lra.
Qed.

Lemma clamp_agree_b64 (v lo hi : float) :
  is_binary64 v = true → is_binary64 lo = true → is_binary64 hi = true →
  leb lo hi = true → clampA v lo hi = clampF v lo hi.
Proof.
  intros Hv Hlo Hhi Hle. apply (leb_B2Q lo hi Hlo Hhi) in Hle.
  unfold clampA, clampF, py_min, py_max.
  destruct (ltb v lo) eqn:H2.
  - apply (ltb_B2Q v lo Hv Hlo) in H2.
    assert (H1 : ltb hi v = false) by (apply ltb_false_B2Q; [done..|lra]).
    assert (H3 : ltb hi lo = false) by (apply ltb_false_B2Q; [done..|lra]).
    by rewrite H1, H3.
  - done.
Qed.

Lemma ev_B64 (q : Q) : is_number (B64 q) = true ∧ ev (B64 q) == rnd q.
Proof.
  unfold B64. destruct (Qle_bool 0 q) eqn:Hb.
  - apply Qle_bool_iff in Hb. split; [by apply fround_number|]. by rewrite ev_fround_rnd.
  - assert (Hq : q < 0).
    { apply Qnot_le_lt. intros H. apply Qle_bool_iff in H. congruence. }
    split; [apply fround_number; lra|]. rewrite ev_fround_rnd by lra.
    apply rnd_comp. ring.
Qed.

Lemma pow10_nonneg_Z (k : Z) : (0 ≤ k)%Z → pow10 k == inject_Z (10 ^ k).
Proof. intros Hk. unfold pow10. apply Z.leb_le in Hk. by rewrite Hk. Qed.

Lemma pow10_neg_Z (k : Z) : (0 < k)%Z → pow10 (- k) == / inject_Z (10 ^ k).
Proof.
  intros Hk. unfold pow10. replace (0 <=? - k)%Z with false by (symmetry; apply Z.leb_gt; lia).
  by rewrite Z.opp_involutive.
Qed.

(** The scalings: the exact product with the power of ten, rounded. *)
Lemma scaled_spec (x : float) (d : Z) :
  is_binary64 x = true → (-22 ≤ d ≤ 22)%Z →
  is_number (scaled x d) = true ∧ ev (scaled x d) == rnd (B2Q x * pow10 d).
Proof.
  intros Hx Hd. unfold scaled. destruct (d =? 0)%Z eqn:H0.
  { apply Z.eqb_eq in H0. subst d. split; [by apply binary64_number|].
    rewrite (ev_finite x Hx). rewrite <- (rnd_B2Q x Hx) at 1. apply rnd_comp.
    change (pow10 0) with 1. ring. }
  apply Z.eqb_neq in H0. destruct (0 <? d)%Z eqn:Hs.
  - apply Z.ltb_lt in Hs. destruct (power_of_ten_exact d ltac:(lia)) as (Hb & Hz & Hv).
    destruct (np_multiply_spec x _ Hx Hb) as [H1 H2]. split; [done|].
    rewrite H2. apply rnd_comp. rewrite Hv, pow10_nonneg_Z by lia. reflexivity.
  - apply Z.ltb_ge in Hs. destruct (power_of_ten_exact (- d) ltac:(lia)) as (Hb & Hz & Hv).
    destruct (np_true_divide_spec x _ Hx Hb Hz) as [H1 H2]. split; [done|].
    rewrite H2. apply rnd_comp. rewrite Hv.
    replace d with (- - d)%Z at 2 by lia. rewrite pow10_neg_Z by lia. reflexivity.
Qed.

Lemma unscaled_spec (x : float) (d : Z) :
  is_binary64 x = true → (-22 ≤ d ≤ 22)%Z →
  is_number (unscaled x d) = true ∧ ev (unscaled x d) == rnd (B2Q x * pow10 (- d)).
Proof.
  intros Hx Hd. unfold unscaled. destruct (d =? 0)%Z eqn:H0.
  { apply Z.eqb_eq in H0. subst d. split; [by apply binary64_number|].
    rewrite (ev_finite x Hx). rewrite <- (rnd_B2Q x Hx) at 1. apply rnd_comp.
    change (pow10 (- 0)) with 1. ring. }
  apply Z.eqb_neq in H0. destruct (0 <? d)%Z eqn:Hs.
  - apply Z.ltb_lt in Hs. destruct (power_of_ten_exact d ltac:(lia)) as (Hb & Hz & Hv).
    destruct (np_true_divide_spec x _ Hx Hb Hz) as [H1 H2]. split; [done|].
    rewrite H2. apply rnd_comp. rewrite Hv, pow10_neg_Z by lia. reflexivity.
  - apply Z.ltb_ge in Hs. destruct (power_of_ten_exact (- d) ltac:(lia)) as (Hb & Hz & Hv).
    destruct (np_multiply_spec x _ Hx Hb) as [H1 H2]. split; [done|].
    rewrite H2. apply rnd_comp. rewrite Hv, pow10_nonneg_Z by lia. reflexivity.
Qed.

Lemma unscaled_infinity (s : bool) (d : Z) :
  (-22 ≤ d ≤ 22)%Z → unscaled (S754_infinity s) d = S754_infinity s.
Proof.
  intros Hd. unfold unscaled. destruct (d =? 0)%Z eqn:H0; [done|].
  destruct (0 <? d)%Z eqn:Hs.
  - apply Z.ltb_lt in Hs. destruct (power_of_ten_exact d ltac:(lia)) as (Hb & Hz & Hv).
    pose proof (power_of_ten_pos d ltac:(lia)) as Hp.
    destruct (power_of_ten d) as [sp| | |sp mp ep]; try discriminate.
    destruct sp; [|by destruct s].
    exfalso. pose proof (magnitude_pos true mp ep). unfold B2Q in Hp. cbn [sign] in Hp. lra.
  - apply Z.ltb_ge in Hs.
    destruct (power_of_ten_exact (- d) ltac:(lia)) as (Hb & Hz & Hv).
    pose proof (power_of_ten_pos (- d) ltac:(lia)) as Hp.
    destruct (power_of_ten (- d)) as [sp| | |sp mp ep]; try discriminate.
    destruct sp; [|by destruct s].
    exfalso. pose proof (magnitude_pos true mp ep). unfold B2Q in Hp. cbn [sign] in Hp. lra.
Qed.

(** [numpy.rint] on a number: the nearest integer to its value, a tie
    going to the even integer, an infinity staying as it is. *)
Lemma np_rint_number (t : float) :
  is_number t = true →
  is_number (np_rint t) = true ∧ ev (np_rint t) == inject_Z (rint (ev t)) ∧
  (is_binary64 t = true → is_binary64 (np_rint t) = true) ∧
  (∀ s, t = S754_infinity s → np_rint t = S754_infinity s).
Proof.
  intros Ht. destruct (number_cases t Ht) as [Hb|[s ->]].
  - destruct (np_rint_spec t Hb) as (H1 & H2 & _).
    split; [by apply binary64_number|]. split; [by rewrite (ev_finite _ H1), (ev_finite _ Hb)|].
    split; [done|]. intros s ->. discriminate.
  - split; [done|]. split; [|split; [done|by intros s' [= ->]]].
    assert (Hh : huge == inject_Z (2 ^ emax)) by (unfold huge; by rewrite pow2_Z).
    cbn [np_rint ev]. destruct s.
    + assert (H : - huge == inject_Z (- 2 ^ emax)) by (by rewrite inject_Z_opp, Hh).
      by rewrite (rint_comp _ _ H), rint_Z.
    + by rewrite (rint_comp _ _ Hh), rint_Z.
Qed.

End Binary64Rounding.

Section AdjustBinary64.
Import binary64.
Local Open Scope Q_scope.
Variable libm_log10 : float → float.

(** Claim C2, amended.  For binary64 numbers: an input, a unit divisor
    above zero, a number of decimals [d = int(log10(1.0/res))] between -22
    and 22 (where the power of ten is exact), and a range with [min <= max]
    whose two endpoints [numpy.around(_, d)] leaves as they are.  Then
    [adjustFrequency] and [adjustAttenuation] return the same float [y];
    the value [r] before the division by the unit divisor is a binary64
    number within [[min, max]] and is the binary64 number nearest to an
    integer multiple [n * 10^(-d)] of the decimal quantum; [y] is the
    binary64 quotient [r / units], and lies within
    [[min / units, max / units]], the two quotients taken in binary64 as
    well. *)
Theorem adjust_within_range_and_quantized (v lo hi res units : float) (d : Z) :
  is_binary64 v = true → is_binary64 lo = true → is_binary64 hi = true →
  is_binary64 units = true →
  leb lo hi = true → ltb (B64 0) units = true →
  decimals_of libm_log10 res = Val d → (-22 ≤ d ≤ 22)%Z →
  eqb (np_around lo d) lo = true → eqb (np_around hi d) hi = true →
  ∃ (n : Z) (r y : float),
    adjustFrequency libm_log10 v (lo, hi) res units = Val y ∧
    adjustAttenuation libm_log10 v (lo, hi) res units = Val y ∧
    y = np_true_divide r units ∧
    is_binary64 r = true ∧ leb lo r = true ∧ leb r hi = true ∧
    eqb r (decimal n d) = true ∧
    leb (np_true_divide lo units) y = true ∧ leb y (np_true_divide hi units) = true.
Proof.
  intros Hv Hlo Hhi Hu Hle Hupos Hdec Hd Hflo Hfhi.
  set (c := clampF v lo hi).
  assert (Hc : is_binary64 c = true) by (by apply clampF_binary64).
  destruct (clampF_b64_range v lo hi Hv Hlo Hhi Hle) as [Hc1 Hc2]. fold c in Hc1, Hc2.
  pose proof (np_around_monotone d Hd) as Hmono.
  destruct (Hmono lo c) as (Hn1 & Hn2 & Hm1);
    [by apply binary64_number | by apply binary64_number | by rewrite !ev_finite |].
  destruct (Hmono c hi) as (_ & Hn3 & Hm2);
    [by apply binary64_number | by apply binary64_number | by rewrite !ev_finite |].
  cbn beta in Hn1, Hn2, Hn3, Hm1, Hm2.
  apply (eqb_ev _ _ Hn1 (binary64_number _ Hlo)) in Hflo.
  apply (eqb_ev _ _ Hn3 (binary64_number _ Hhi)) in Hfhi.
  rewrite (ev_finite lo Hlo) in Hflo. rewrite (ev_finite hi Hhi) in Hfhi.
  set (r := np_around c d) in *.
  pose proof (B2Q_bounds lo Hlo) as [Hb1 _]. pose proof (B2Q_bounds hi Hhi) as [_ Hb2].
  assert (Hr : is_binary64 r = true) by (apply number_finite; [done|lra..]).
  rewrite (ev_finite r Hr) in Hm1, Hm2.
  (* the unit divisor *)
  assert (Hup : 0 < B2Q units).
  { apply ltb_ev in Hupos; [|apply ev_B64 | by apply binary64_number].
    destruct (ev_B64 0) as [_ H0]. rewrite H0, (ev_finite units Hu) in Hupos.
    rewrite rnd_nonneg, rmag_zero, saturated_small in Hupos; [done|apply huge_pos|lra..]. }
  pose proof (np_true_divide_monotone units Hu Hup) as Hdiv.
  destruct (Hdiv lo r) as (Hq1 & Hq2 & Hq3);
    [by apply binary64_number | by apply binary64_number | rewrite !ev_finite by done; lra |].
  destruct (Hdiv r hi) as (_ & Hq4 & Hq5);
    [by apply binary64_number | by apply binary64_number | rewrite !ev_finite by done; lra |].
  cbn beta in Hq1, Hq2, Hq3, Hq4, Hq5.
  (* the integer behind [r] *)
  destruct (scaled_spec c d Hc Hd) as [Ht _].
  destruct (np_rint_number (scaled c d) Ht) as (Hu1 & Hu2 & Hu3 & Hu4).
  assert (Hfin : is_binary64 (np_rint (scaled c d)) = true).
  { destruct (number_cases _ Hu1) as [Hb|[s Hs]]; [done|].
    exfalso. unfold r in Hr. rewrite np_around_eq, Hs, unscaled_infinity in Hr by done.
    discriminate. }
  set (n := rint (ev (scaled c d))) in *.
  exists n, r, (np_true_divide r units).
  split; [by apply adjustFrequency_b64_eq|].
  split; [rewrite (adjustAttenuation_b64_eq _ _ _ _ _ _ d Hdec);
          by rewrite (clamp_agree_b64 v lo hi)|].
  split; [done|]. split; [done|].
  split; [apply leb_B2Q; [done..|lra]|]. split; [apply leb_B2Q; [done..|lra]|].
  split; [|split; by apply leb_ev].
  destruct (unscaled_spec _ d Hfin Hd) as [_ Hval].
  destruct (ev_B64 (inject_Z n * pow10 (- d))) as [Hnum Hdecimal].
  apply eqb_ev; [by apply binary64_number | done |].
  unfold decimal. rewrite Hdecimal. unfold r. rewrite np_around_eq, Hval.
  apply rnd_comp. rewrite <- (ev_finite _ Hfin), Hu2. reflexivity.
Qed.

(** Claim C6, amended.  For a binary64 input and range and a number of
    decimals [d = int(log10(1.0/res))] between -22 and 22, each helper
    takes the clamped value [c], scales it by [10^d] in binary64 ([t], the
    exact product rounded; [c] itself for [d = 0], that is for resolution
    1), rounds [t] to the nearest integer, a tie going to the even integer
    and not away from zero, scales the integer back and divides by the unit
    divisor. *)
Theorem adjust_rounds_half_to_even (v lo hi res units : float) (d : Z) :
  is_binary64 v = true → is_binary64 lo = true → is_binary64 hi = true →
  decimals_of libm_log10 res = Val d → (-22 ≤ d ≤ 22)%Z →
  (∃ y, adjustFrequency libm_log10 v (lo, hi) res units = Val y ∧
        rounded_half_even (clampF v lo hi) d units y) ∧
  (∃ y, adjustAttenuation libm_log10 v (lo, hi) res units = Val y ∧
        rounded_half_even (clampA v lo hi) d units y).
Proof.
  intros Hv Hlo Hhi Hdec Hd.
  assert (Hgen : ∀ c, is_binary64 c = true →
            rounded_half_even c d units (np_true_divide (np_around c d) units)).
  { intros c Hc. destruct (scaled_spec c d Hc Hd) as [Ht Hev].
    destruct (np_rint_number (scaled c d) Ht) as (Hu1 & Hu2 & _).
    exists (scaled c d), (rint (ev (scaled c d))).
    split; [done|]. split; [by intros ->|]. split; [done|]. split; [done|].
    split; [apply rint_nearest|]. split; [done|]. by rewrite np_around_eq. }
  split.
  - eexists. split; [by apply adjustFrequency_b64_eq|].
    apply Hgen. by apply clampF_binary64.
  - eexists. split; [by apply adjustAttenuation_b64_eq|].
    apply Hgen. by apply clampA_binary64.
Qed.

End AdjustBinary64.

(** The hypotheses of the theorem hold for the tuner's frequency
    constants: 1.0/1e6 has the logarithm -6.0, and 20e6 and 3e9 are
    multiples of 1e6. *)
Lemma adjust_within_range_and_quantized_witness :
  ∃ (n : Z) (r y : binary64.float),
    binary64.adjustFrequency log10_table (binary64.B64 2450000001)
      (binary64.B64 20e6, binary64.B64 3e9) (binary64.B64 1e6) (binary64.B64 1e6) = Val y ∧
    binary64.adjustAttenuation log10_table (binary64.B64 2450000001)
      (binary64.B64 20e6, binary64.B64 3e9) (binary64.B64 1e6) (binary64.B64 1e6) = Val y ∧
    y = binary64.np_true_divide r (binary64.B64 1e6) ∧
    binary64.is_binary64 r = true ∧
    binary64.leb (binary64.B64 20e6) r = true ∧ binary64.leb r (binary64.B64 3e9) = true ∧
    binary64.eqb r (decimal n (-6)) = true ∧
    binary64.leb (binary64.np_true_divide (binary64.B64 20e6) (binary64.B64 1e6)) y = true ∧
    binary64.leb y (binary64.np_true_divide (binary64.B64 3e9) (binary64.B64 1e6)) = true.
Proof.
  apply (adjust_within_range_and_quantized log10_table (binary64.B64 2450000001)
           (binary64.B64 20e6) (binary64.B64 3e9) (binary64.B64 1e6) (binary64.B64 1e6) (-6));
    first [lia | vm_compute; reflexivity].
Defined.

(** Claim C2 as the spec states it fails twice, on inputs that binary64
    holds exactly: with resolution 5 the value 7 is returned unchanged, and
    with the range [[0.5, 30]] and resolution 1 the input 0 is clamped to
    0.5 and then rounded to 0, below the range. *)
Lemma adjust_within_range_and_quantized_counterexample :
  ¬ stated_range_and_quantum log10_table (binary64.B64 7) (binary64.B64 0)
      (binary64.B64 30) (binary64.B64 5) (binary64.B64 1) ∧
  ¬ stated_range_and_quantum log10_table (binary64.B64 0) (binary64.B64 (1 # 2))
      (binary64.B64 30) (binary64.B64 1) (binary64.B64 1).
Proof.
  assert (H0 : (binary64.B2Q (binary64.B64 0) == 0)%Q) by (vm_compute; reflexivity).
  assert (H1 : (binary64.B2Q (binary64.B64 1) == 1)%Q) by (vm_compute; reflexivity).
  assert (H5 : (binary64.B2Q (binary64.B64 5) == 5)%Q) by (vm_compute; reflexivity).
  assert (H7 : (binary64.B2Q (binary64.B64 7) == 7)%Q) by (vm_compute; reflexivity).
  assert (Hh : (binary64.B2Q (binary64.B64 (1 # 2)) == 1 # 2)%Q) by (vm_compute; reflexivity).
  split; intros Hclaim.
  - destruct Hclaim as [(y & Hy & _ & _ & _ & m & Hm) _];
      [vm_compute; reflexivity..|].
    assert (Hrun : binary64.adjustFrequency log10_table (binary64.B64 7)
                     (binary64.B64 0, binary64.B64 30) (binary64.B64 5) (binary64.B64 1)
                   = Val (binary64.B64 7)) by (vm_compute; reflexivity).
    rewrite Hrun in Hy. injection Hy as <-.
    rewrite H7, H5, H1 in Hm. unfold Qeq in Hm. cbn in Hm. lia.
  - destruct Hclaim as [(y & Hy & _ & Hlo & _) _];
      [vm_compute; reflexivity..|].
    assert (Hrun : binary64.adjustFrequency log10_table (binary64.B64 0)
                     (binary64.B64 (1 # 2), binary64.B64 30) (binary64.B64 1) (binary64.B64 1)
                   = Val (binary64.B64 0)) by (vm_compute; reflexivity).
    rewrite Hrun in Hy. injection Hy as <-.
    rewrite Hh, H1, H0 in Hlo. apply Qle_bool_iff in Hlo. discriminate Hlo.
Qed.

(** The hypotheses of the theorem hold for the attenuation constants of a
    DUC, resolution 0.1: 1.0/0.1 is 10.0, whose logarithm is 1.0.  The
    input 0.35 is scaled to 3.5, a tie, and goes to 4. *)
Lemma adjust_rounds_half_to_even_witness :
  (∃ y, binary64.adjustFrequency log10_table (binary64.B64 0.35)
          (binary64.B64 (-60), binary64.B64 60) (binary64.B64 0.1) (binary64.B64 1) = Val y ∧
        rounded_half_even
          (binary64.clampF (binary64.B64 0.35) (binary64.B64 (-60)) (binary64.B64 60))
          1 (binary64.B64 1) y) ∧
  (∃ y, binary64.adjustAttenuation log10_table (binary64.B64 0.35)
          (binary64.B64 (-60), binary64.B64 60) (binary64.B64 0.1) (binary64.B64 1) = Val y ∧
        rounded_half_even
          (binary64.clampA (binary64.B64 0.35) (binary64.B64 (-60)) (binary64.B64 60))
          1 (binary64.B64 1) y).
Proof.
  apply (adjust_rounds_half_to_even log10_table (binary64.B64 0.35) (binary64.B64 (-60))
           (binary64.B64 60) (binary64.B64 0.1) (binary64.B64 1) 1);
    first [lia | vm_compute; reflexivity].
Defined.

(** Claim C6 as the spec states it fails twice, on inputs that binary64
    holds exactly: the tie 0.5 with resolution 1 goes to 0, towards zero,
    and with resolution 5 the value 7 is not rounded to a multiple of the
    resolution. *)
Lemma adjust_rounds_half_to_even_counterexample :
  ¬ stated_half_away_rounding log10_table (binary64.B64 (1 # 2)) (binary64.B64 0)
      (binary64.B64 30) (binary64.B64 1) (binary64.B64 1) ∧
  ¬ stated_half_away_rounding log10_table (binary64.B64 7) (binary64.B64 0)
      (binary64.B64 30) (binary64.B64 5) (binary64.B64 1).
Proof.
  assert (H0 : (binary64.B2Q (binary64.B64 0) == 0)%Q) by (vm_compute; reflexivity).
  assert (H1 : (binary64.B2Q (binary64.B64 1) == 1)%Q) by (vm_compute; reflexivity).
  assert (H5 : (binary64.B2Q (binary64.B64 5) == 5)%Q) by (vm_compute; reflexivity).
  assert (H7 : (binary64.B2Q (binary64.B64 7) == 7)%Q) by (vm_compute; reflexivity).
  split; intros Hclaim.
  - destruct Hclaim as [_ (y & Hy & _ & m & _ & _ & Htie)];
      [vm_compute; reflexivity..|].
    assert (Hrun : binary64.adjustAttenuation log10_table (binary64.B64 (1 # 2))
                     (binary64.B64 0, binary64.B64 30) (binary64.B64 1) (binary64.B64 1)
                   = Val (binary64.B64 0)) by (vm_compute; reflexivity).
    rewrite Hrun in Hy. injection Hy as <-.
    assert (Hc : (binary64.B2Q (binary64.clampA (binary64.B64 (1 # 2)) (binary64.B64 0)
                                  (binary64.B64 30)) == 1 # 2)%Q) by (vm_compute; reflexivity).
    rewrite Hc, H0, H1 in Htie.
    assert (Hle : (Qabs (1 # 2) <= Qabs (0 * 1))%Q) by (apply Htie; reflexivity).
    apply Qle_bool_iff in Hle. discriminate Hle.
  - destruct Hclaim as [_ (y & Hy & _ & m & Hm & _)];
      [vm_compute; reflexivity..|].
    assert (Hrun : binary64.adjustAttenuation log10_table (binary64.B64 7)
                     (binary64.B64 0, binary64.B64 30) (binary64.B64 5) (binary64.B64 1)
                   = Val (binary64.B64 7)) by (vm_compute; reflexivity).
    rewrite Hrun in Hy. injection Hy as <-.
    rewrite H7, H5, H1 in Hm. unfold Qeq in Hm. cbn in Hm. lia.
Qed.

(** ** The binary64 helpers at some inputs *)

(** Resolution 0.1 gives one decimal: [1.0/0.1] is [10.0]. *)
Lemma decimals_of_one_tenth :
  binary64.decimals_of log10_table (binary64.B64 0.1) = Val 1%Z.
Proof. vm_compute. reflexivity. Qed.

(** [0.35] with resolution 0.1 comes out as [0.4]: the double below 0.35
    times ten is the double 3.5. *)
Lemma adjustAttenuation_of_0_35 :
  binary64.adjustAttenuation log10_table (binary64.B64 0.35)
    (binary64.B64 (-60), binary64.B64 60) (binary64.B64 0.1) (binary64.B64 1)
  = Val (binary64.B64 0.4).
Proof. vm_compute. reflexivity. Qed.

(** The division by the unit divisor is rounded: 7 over 3 is the double
    nearest to 7/3. *)
Lemma adjustFrequency_of_7_over_3 :
  binary64.adjustFrequency log10_table (binary64.B64 7)
    (binary64.B64 0, binary64.B64 30) (binary64.B64 1) (binary64.B64 3)
  = Val (binary64.B64 (7 # 3)).
Proof. vm_compute. reflexivity. Qed.

(** NaN goes through the clamp, the rounding and the division. *)
Lemma adjust_of_nan (libm_log10 : binary64.float → binary64.float)
    (lo hi res units : binary64.float) (d : Z) :
  binary64.decimals_of libm_log10 res = Val d →
  binary64.adjustFrequency libm_log10 S754_nan (lo, hi) res units = Val S754_nan ∧
  binary64.adjustAttenuation libm_log10 S754_nan (lo, hi) res units = Val S754_nan.
Proof.
  intros Hd. unfold binary64.adjustFrequency, binary64.adjustAttenuation.
  rewrite Hd. cbn [mbind pyres_bind fst snd].
  unfold binary64.py_max, binary64.py_min, binary64.ltb. cbn [binary64.compare].
  assert (Hc : ∀ x, binary64.compare x S754_nan = None) by (by intros []).
  rewrite !Hc.
  assert (Ha : binary64.np_around S754_nan d = S754_nan).
  { unfold binary64.np_around. destruct (d =? 0)%Z, (0 <? d)%Z; reflexivity. }
  by rewrite Ha.
Qed.

(** A subnormal resolution: [1.0/res] overflows to infinity, whose
    logarithm [int] refuses. *)
Lemma decimals_of_subnormal (libm_log10 : binary64.float → binary64.float) :
  binary64.decimals_of libm_log10 (S754_finite false 1 (-1074)) = Exc OverflowError.
Proof. vm_compute. reflexivity. Qed.

(** On the inputs of the spec's scenario the binary64 helpers and the
    rational ones return the same values: 2450 and 30. *)
Lemma scenario_binary64 :
  (∃ y, binary64.adjustFrequency log10_table (binary64.B64 2450000001)
          (binary64.B64 20e6, binary64.B64 3e9) (binary64.B64 1e6) (binary64.B64 1e6) = Val y ∧
        ∃ f, adjustFrequency 2450000001 (20e6, 3e9)%Q 1e6 1e6 = Val f ∧
             (binary64.B2Q y == f)%Q ∧ (f == 2450)%Q) ∧
  (∃ y, binary64.adjustAttenuation log10_table (binary64.B64 31.4)
          (binary64.B64 0, binary64.B64 30) (binary64.B64 1) (binary64.B64 1) = Val y ∧
        ∃ a, adjustAttenuation 31.4 (0, 30)%Q 1 1 = Val a ∧
             (binary64.B2Q y == a)%Q ∧ (a == 30)%Q).
Proof.
  split; eexists; (split; [vm_compute; reflexivity|]);
    eexists; (split; [vm_compute; reflexivity|]); split; vm_compute; reflexivity.
Qed.

(** ** Whole calls of [_setConfiguration] *)

Section WholeCalls.
Variable E : Env.

Lemma issued_identity (w : Wiring) (gate : bool) (s : St Comp) :
  same_identity (obj s) (obj (issued E w gate s)).
Proof. by repeat split. Qed.

Lemma call_set_call_by (w : Wiring) (s : St Comp) :
  set_call_by (who (obj s)) (callback (obj s)) (call E s w).
Proof. by eexists _, _. Qed.

(** A run of blocks appends set round trips of the component, keeps its
    identity and returns the conjunction of the flag it started from and of
    the outcomes of the commands it sent. *)
Lemma run_blocks_calls (bs : list Block) : ∀ (ret : bool) (s : St Comp),
  ∃ new, trace (state_of (run_blocks E bs ret s)) = trace s ++ new ∧
    Forall (set_call_by (who (obj s)) (callback (obj s))) new ∧
    same_identity (obj s) (obj (state_of (run_blocks E bs ret s))) ∧
    ∀ b, returns (run_blocks E bs ret s) = Some b → b = ret && forallb call_ok new.
Proof.
  induction bs as [|b0 bs IH]; intros ret s.
  - exists []. cbn. rewrite app_nil_r, andb_true_r.
    repeat split; first [done | apply Forall_nil_2 | congruence].
  - cbn [run_blocks]. unfold mbind, M_bind.
    destruct (b0 (obj s)) as [w|e] eqn:Hb.
    + rewrite (run_block_eq E b0 w ret s Hb).
      destruct (IH (ret && cmd_ok (outcome E s w)) (issued E w ret s))
        as (new & Htr & Hcalls & Hid & Hret).
      exists (call E s w :: new). split; [|split; [|split]].
      * rewrite Htr, issued_trace, <- app_assoc. reflexivity.
      * apply Forall_cons. split; [apply call_set_call_by|].
        rewrite (same_identity_who _ _ (issued_identity w ret s)) in Hcalls.
        destruct (issued_identity w ret s) as (_ & _ & _ & _ & Hcb).
        by rewrite Hcb in Hcalls.
      * eapply same_identity_trans; [apply (issued_identity w ret s) | exact Hid].
      * intros b Hb'. rewrite (Hret b Hb'). cbn [forallb call_ok call].
        by rewrite andb_assoc.
    + rewrite (run_block_raise E b0 e ret s Hb). exists []. cbn.
      rewrite app_nil_r. repeat split; first [done | apply Forall_nil_2].
Qed.

(** Once the accumulated flag is false the mirrored map stays as it is. *)
Lemma run_blocks_closed_gate (bs : list Block) : ∀ s : St Comp,
  configuration (obj (state_of (run_blocks E bs false s))) = configuration (obj s).
Proof.
  induction bs as [|b0 bs IH]; intros s; [reflexivity|].
  cbn [run_blocks]. unfold mbind, M_bind.
  destruct (b0 (obj s)) as [w|e] eqn:Hb.
  - rewrite (run_block_eq E b0 w false s Hb). cbn [andb]. by rewrite IH.
  - by rewrite (run_block_raise E b0 e false s Hb).
Qed.

(** A key that no wiring of the run assigns keeps its mirrored entry. *)
Lemma run_blocks_frame (bs : list Block) (k : Key) :
  (∀ b me w o, b ∈ bs → b me = Val w → k ∉ (w_mirror w o).*1) →
  ∀ (ret : bool) (s : St Comp),
    configuration (obj (state_of (run_blocks E bs ret s))) !! k = configuration (obj s) !! k.
Proof.
  induction bs as [|b0 bs IH]; intros Hfree ret s; [reflexivity|].
  cbn [run_blocks]. unfold mbind, M_bind.
  destruct (b0 (obj s)) as [w|e] eqn:Hb.
  - rewrite (run_block_eq E b0 w ret s Hb).
    rewrite IH by (intros b me w' o Hin; apply Hfree; by right).
    rewrite issued_configuration.
    destruct (ret && cmd_ok (outcome E s w)); [|done].
    apply mirror_frame. eapply Hfree; [left | exact Hb].
  - by rewrite (run_block_raise E b0 e ret s Hb).
Qed.

Lemma optional_elem (present : bool) (xxxCmd : option CmdClass)
    (block : CmdClass → Block) (b : Block) :
  b ∈ optional present xxxCmd block → ∃ c, b = block c.
Proof.
  unfold optional. destruct present, xxxCmd as [c|]; intros Hin;
    try (by apply elem_of_nil in Hin).
  apply list_elem_of_singleton in Hin. eauto.
Qed.

(** The wirings of a component assign mirrored keys only. *)
Lemma blocks_mirror_keys (c : Component) (confDict : gmap Key Value)
    (b : Block) (me : Comp) (w : Wiring) (o : Outcome) :
  b ∈ blocks_of E c confDict → b me = Val w → (w_mirror w o).*1 ⊆ mirrored_keys c.
Proof.
  intros Hin Hb. destruct c as [cls|cls|cls]; cbn [blocks_of] in Hin;
    repeat (apply elem_of_app in Hin as [Hin|Hin]);
    apply optional_elem in Hin as [cmd ->];
    cbv [_tuner.tpwr_block _tuner.frq_block _tuner.att_block _tuner.agp_block
         _tuner.fif_block _tuner.tadj_block _ddc.dport_block _ddc.frq_block
         _ddc.cfg_block _duc.cfg_block _duc.load_block _duc.tx_block] in Hb;
    repeat match type of Hb with
           | context [py_float ?E ?v] => destruct (py_float E v); cbn [mbind pyres_bind] in Hb
           | context [adjustFrequency ?a ?b ?c ?d] =>
               destruct (adjustFrequency a b c d); cbn [mbind pyres_bind] in Hb
           | context [adjustAttenuation ?a ?b ?c ?d] =>
               destruct (adjustAttenuation a b c d); cbn [mbind pyres_bind] in Hb
           | context [getitem ?a ?b] => destruct (getitem a b); cbn [mbind pyres_bind] in Hb
           end;
    try discriminate Hb; injection Hb as <-; cbn [w_mirror mirrored_keys];
    intros k Hk; cbn in Hk;
    repeat (apply elem_of_cons in Hk as [-> | Hk]);
    first [by apply elem_of_nil in Hk | by apply (bool_decide_unpack _)].
Qed.

(** The value [_setConfiguration] returns.  A call of [_setConfiguration]
    on a tuner, a DDC or a DUC only appends set round trips of that
    component, sent through the callback it holds; it leaves the name, the
    index, the parent, the transport and the callback of the component
    alone; and when it returns, the value is the conjunction of the outcomes
    ([send] result and [success]) of the commands it sent - [True] when it
    sent none. *)
Theorem setConfiguration_returns_conjunction (c : Component)
    (confDict : gmap Key Value) (s : St Comp) :
  let r := _setConfiguration_of E c confDict s in
  ∃ new, trace (state_of r) = trace s ++ new ∧
    Forall (set_call_by (who (obj s)) (callback (obj s))) new ∧
    same_identity (obj s) (obj (state_of r)) ∧
    ∀ b, returns r = Some b → b = forallb call_ok new.
Proof.
  cbv zeta. rewrite _setConfiguration_blocks.
  destruct (run_blocks_calls (blocks_of E c confDict) true s) as (new & H1 & H2 & H3 & H4).
  by exists new.
Qed.

(** The first failure closes the gate.  When the first command that a call
    of [_setConfiguration] sends fails, the mirrored map after the call is
    the map before it, however many of the later commands succeed, and the
    call does not return [True]. *)
Theorem first_failure_freezes_mirror (c : Component) (confDict : gmap Key Value)
    (s : St Comp) :
  let r := _setConfiguration_of E c confDict s in
  first_call_failed (drop (length (trace s)) (trace (state_of r))) = true →
  configuration (obj (state_of r)) = configuration (obj s) ∧ returns r ≠ Some true.
Proof.
  cbv zeta. rewrite _setConfiguration_blocks.
  destruct (blocks_of E c confDict) as [|b0 bs].
  { cbn. by rewrite drop_all. }
  cbn [run_blocks]. unfold mbind, M_bind.
  destruct (b0 (obj s)) as [w0|e] eqn:Hb.
  - rewrite (run_block_eq E b0 w0 true s Hb). cbn [andb].
    destruct (run_blocks_calls bs (cmd_ok (outcome E s w0)) (issued E w0 true s))
      as (new & Htr & _ & _ & Hret).
    rewrite Htr, issued_trace, <- app_assoc, drop_app_length.
    cbn [app first_call_failed call]. intros Hfail. apply negb_true_iff in Hfail.
    rewrite Hfail in Hret |- *.
    rewrite run_blocks_closed_gate, issued_configuration, Hfail. cbn [andb].
    split; [reflexivity|]. intros Hb'. by specialize (Hret _ Hb').
  - rewrite (run_block_raise E b0 e true s Hb). cbn. by rewrite drop_all.
Qed.

(** What [_setConfiguration] never writes.  A key outside the keys that the
    wirings of the component mirror keeps its entry of the mirrored map,
    whatever the request and whatever the hardware answers, also when the
    call raises; for a DUC this covers the snapshot keys (file name, start
    sample, samples, single playback), which no wiring mirrors. *)
Theorem setConfiguration_frame (c : Component) (confDict : gmap Key Value)
    (s : St Comp) (k : Key) :
  k ∉ mirrored_keys c →
  configuration (obj (state_of (_setConfiguration_of E c confDict s))) !! k
  = configuration (obj s) !! k.
Proof.
  intros Hk. rewrite _setConfiguration_blocks. apply run_blocks_frame.
  intros b me w o Hin Hb Hmir. apply Hk.
  by apply (blocks_mirror_keys c confDict b me w o Hin Hb).
Qed.

Lemma no_wired_key_noop (c : Component) (confDict : gmap Key Value) (s : St Comp) :
  Forall (λ k, confDict !! k = None) (wired_keys c) →
  _setConfiguration_of E c confDict s = Ok true s.
Proof.
  intros Hnone. rewrite _setConfiguration_blocks.
  assert (Hk : ∀ k, k ∈ wired_keys c → has_key confDict k = false).
  { intros k Hin. rewrite Forall_forall in Hnone. unfold has_key. by rewrite (Hnone k Hin). }
  destruct c as [cls|cls|cls]; cbn [blocks_of existsb forallb
      _ddc.cfg_keys _duc.cfg_keys _duc.load_keys _duc.tx_keys];
    repeat match goal with
           | |- context [has_key confDict ?k] =>
               rewrite (Hk k) by (by apply (bool_decide_unpack _))
           end;
    rewrite ?andb_false_r; reflexivity.
Qed.

(** A request that holds none of the keys the guards of [_setConfiguration]
    test - the empty request for one - sends no command, changes nothing
    and returns [True]. *)
Theorem unrelated_request_is_noop (c : Component) (confDict : gmap Key Value)
    (s : St Comp) :
  Forall (λ k, confDict !! k = None) (wired_keys c) →
  _setConfiguration_of E c confDict s = Ok true s.
Proof. apply no_wired_key_noop. Qed.

End WholeCalls.

(** The hypotheses of the theorem hold for a tuner asked for enable,
    frequency and attenuation when the hardware rejects the power command,
    the first of the three. *)
Lemma first_failure_freezes_mirror_witness :
  let r := _setConfiguration_of (rejecting "tpwrCmd") (Tuner _tuner.defaults)
             enable_frequency_attenuation (mkSt tuner1 []) in
  configuration (obj (state_of r)) = configuration tuner1 ∧ returns r ≠ Some true.
Proof.
  apply (first_failure_freezes_mirror (rejecting "tpwrCmd") (Tuner _tuner.defaults)
           enable_frequency_attenuation (mkSt tuner1 [])).
  vm_compute. reflexivity.
Defined.

(** The hypothesis of the theorem holds for the file name key of a DUC. *)
Lemma setConfiguration_frame_witness :
  configuration (obj (state_of (_setConfiguration_of accepting (Duc snapshot_duc)
                                  load_and_play (mkSt duc1 [])))) !! DUC_FILENAME
  = configuration duc1 !! DUC_FILENAME.
Proof.
  apply (setConfiguration_frame accepting (Duc snapshot_duc) load_and_play (mkSt duc1 [])
           DUC_FILENAME).
  apply (bool_decide_unpack _). reflexivity.
Defined.

(** The hypothesis of the theorem holds for a snapshot-capable DUC and a
    request that holds the file name alone: the load wiring wants the start
    sample and the number of samples too. *)
Lemma unrelated_request_is_noop_witness :
  _setConfiguration_of accepting (Duc snapshot_duc) file_name_only (mkSt duc1 [])
  = Ok true (mkSt duc1 []).
Proof.
  apply (unrelated_request_is_noop accepting (Duc snapshot_duc) file_name_only
           (mkSt duc1 [])).
  apply (bool_decide_unpack _). vm_compute. reflexivity.
Defined.

(** ** The tuner's wirings *)

Section TunerWirings.
Variable E : Env.











(** A frequency that [float] refuses.  When the request holds
    [TUNER_FREQUENCY] with a value that [float] refuses ([None], a list, a
    string that is no number), [_setConfiguration] raises the exception of
    [float] instead of returning; by then it has sent at most the power
    command, and what that command did stays done. *)
Theorem tuner_frequency_refused_by_float (cls : _tuner.Class)
    (confDict : gmap Key Value) (s : St Comp) (c : CmdClass) (v : Value) (e : exn) :
  _tuner.frqCmd cls = Some c →
  confDict !! TUNER_FREQUENCY = Some v →
  py_float E v = Exc e →
  ∃ ret s1 sent,
    run_blocks E (optional (has_key confDict ENABLE) (_tuner.tpwrCmd cls)
                    (_tuner.tpwr_block confDict)) true s = Ok ret s1 ∧
    _tuner._setConfiguration E cls confDict s = Raise e s1 ∧
    trace s1 = trace s ++ sent ∧ (length sent ≤ 1)%nat ∧
    Forall (λ ev, ∃ w inv o, ev = EvCall w inv o ∧ inv_attr inv = "tpwrCmd") sent.
Proof.
  intros Hcmd Hfrq Hfloat.
  change (_tuner._setConfiguration E cls confDict s)
    with (_setConfiguration_of E (Tuner cls) confDict s).
  rewrite _setConfiguration_blocks. cbn [blocks_of]. rewrite Hcmd.
  assert (Hhas : has_key confDict TUNER_FREQUENCY = true)
    by (unfold has_key; by rewrite Hfrq).
  rewrite Hhas. cbn [optional app]. rewrite run_blocks_app.
  assert (Hpre : ∃ ret s1 sent,
    run_blocks E (optional (has_key confDict ENABLE) (_tuner.tpwrCmd cls)
                    (_tuner.tpwr_block confDict)) true s = Ok ret s1 ∧
    trace s1 = trace s ++ sent ∧ (length sent ≤ 1)%nat ∧
    Forall (λ ev, ∃ w inv o, ev = EvCall w inv o ∧ inv_attr inv = "tpwrCmd") sent).
  { unfold optional. destruct (has_key confDict ENABLE); [destruct (_tuner.tpwrCmd cls)|].
    - cbn [run_blocks]. unfold mbind, M_bind, mret, M_ret.
      erewrite run_block_eq by reflexivity.
      eexists _, _, [_]. split; [reflexivity|]. split; [apply issued_trace|].
      split; [done|]. apply Forall_singleton. by eexists _, _, _.
    - exists true, s, []. rewrite app_nil_r. repeat split; first [done | cbn; lia].
    - exists true, s, []. rewrite app_nil_r. repeat split; first [done | cbn; lia]. }
  destruct Hpre as (ret & s1 & sent & Hrun & Htr & Hlen & Hsent).
  exists ret, s1, sent. rewrite Hrun. split; [reflexivity|].
  split; [|by repeat split].
  cbn [run_blocks]. unfold mbind, M_bind.
  rewrite (run_block_raise E _ e); [reflexivity|].
  unfold _tuner.frq_block, get. rewrite Hfrq. cbn [from_option id]. by rewrite Hfloat.
Qed.

End TunerWirings.



(** The hypotheses of the theorem hold for a request that enables the
    tuner and holds [None] as frequency. *)
Lemma tuner_frequency_refused_by_float_witness :
  ∃ ret s1 sent,
    run_blocks accepting (optional (has_key enable_and_no_frequency ENABLE)
                            (_tuner.tpwrCmd _tuner.defaults)
                            (_tuner.tpwr_block enable_and_no_frequency)) true
      (mkSt tuner1 []) = Ok ret s1 ∧
    _tuner._setConfiguration accepting _tuner.defaults enable_and_no_frequency
      (mkSt tuner1 []) = Raise TypeError s1 ∧
    trace s1 = trace (mkSt tuner1 []) ++ sent ∧ (length sent ≤ 1)%nat ∧
    Forall (λ ev, ∃ w inv o, ev = EvCall w inv o ∧ inv_attr inv = "tpwrCmd") sent.
Proof.
  apply (tuner_frequency_refused_by_float accepting _tuner.defaults enable_and_no_frequency
           (mkSt tuner1 []) "frq" VNone TypeError); reflexivity.
Defined.

(** ** Whole runs of [_queryConfiguration] *)

Section WholeQueries.
Variable E : Env.

(** One query wiring, in full: nothing happens when the class has no
    command for it; otherwise one query round trip through the callback of
    the component is added and, when the response parses, what [q_store]
    makes of it is stored. *)
Lemma query_wiring_run (q : Query) (s s' : St Comp) :
  query_wiring E (q_attr q) (q_cmd q) (q_args q) (q_store q) s = Ok tt s' →
  match q_cmd q with
  | None => s' = s
  | Some c =>
      ∃ kw, q_args q (obj s) = Val kw ∧
        let inv := mkInv (q_attr q) c true kw (callback (obj s)) in
        let o := hw E (trace s) inv in
        trace s' = trace s ++ [EvCall (who (obj s)) inv o] ∧
        same_identity (obj s) (obj s') ∧
        match rspInfo o with
        | Some rsp => ∃ kvs, q_store q rsp = Val kvs ∧
                             configuration (obj s') = mirror kvs (configuration (obj s))
        | None => configuration (obj s') = configuration (obj s)
        end
  end.
Proof.
  unfold query_wiring. destruct (q_cmd q) as [c|]; last first.
  { by intros [= <-]. }
  destruct s as [[n i p t cb cfg errs] tr].
  unfold mbind, M_bind, self, gets, lift. cbn [obj base Comp_BaseObject].
  destruct (q_args q _) as [kw|e]; [|discriminate].
  unfold construct, send, emit, self, gets, modify, mbind, M_bind, mret, M_ret,
    Configurable._addLastCommandErrorInfo, update.
  cbn [obj trace base with_base Comp_BaseObject callback set_cmdErrorInfo].
  set (inv := mkInv _ _ _ _ _). set (o := hw E tr inv).
  intros Hrun. exists kw. split; [reflexivity|]. cbv zeta. fold inv. fold o.
  destruct (rspInfo o) as [rsp|].
  - unfold lift in Hrun. destruct (q_store q rsp) as [kvs|e]; [|discriminate].
    unfold modify in Hrun. rewrite assign_all_eq in Hrun. injection Hrun as <-.
    split; [reflexivity|]. split; [by repeat split|]. exists kvs. by split.
  - unfold modify in Hrun. injection Hrun as <-.
    split; [reflexivity|]. split; [by repeat split|]. reflexivity.
Qed.

(** A run of query wirings sends one query per wiring whose command is
    defined, in the order of the list, through the callback of the
    component. *)
Lemma run_queries_calls (qs : list Query) : ∀ s s' : St Comp,
  run_queries E qs s = Ok tt s' →
  ∃ new, trace s' = trace s ++ new ∧
    same_identity (obj s) (obj s') ∧
    Forall (query_call_by (who (obj s)) (callback (obj s))) new ∧
    event_attr <$> new = q_attr <$> filter (λ q, is_Some (q_cmd q)) qs.
Proof.
  induction qs as [|q qs IH]; intros s s' Hrun.
  - injection Hrun as <-. exists []. rewrite app_nil_r.
    repeat split; first [done | apply Forall_nil_2].
  - apply run_queries_cons in Hrun as (s1 & Hq & Hrest).
    destruct (IH _ _ Hrest) as (new' & Htr' & Hid' & Hcalls' & Hattrs').
    apply query_wiring_run in Hq. destruct (q_cmd q) as [c|] eqn:Hc.
    + destruct Hq as (kw & _ & Htr & Hid & _).
      eexists (_ :: new'). split; [by rewrite Htr', Htr, <- app_assoc|].
      split; [by eapply same_identity_trans|]. split.
      * apply Forall_cons. split; [by eexists _, _|].
        rewrite (same_identity_who _ _ Hid) in Hcalls'.
        destruct Hid as (_ & _ & _ & _ & Hcb). by rewrite Hcb in Hcalls'.
      * rewrite filter_cons_True by (by rewrite Hc). cbn. by rewrite Hattrs'.
    + subst s1. exists new'. rewrite filter_cons_False; [done|].
      rewrite Hc. by intros [].
Qed.

(** In a run that returns, whatever a wiring read from a parsable response
    could be stored. *)
Lemma run_queries_parsed (qs : list Query) : ∀ s s' : St Comp,
  NoDup (q_attr <$> qs) →
  run_queries E qs s = Ok tt s' →
  ∃ new, trace s' = trace s ++ new ∧
    ∀ q w inv o rsp,
      q ∈ qs → EvCall w inv o ∈ new → inv_attr inv = q_attr q → rspInfo o = Some rsp →
      ∃ kvs, q_store q rsp = Val kvs.
Proof.
  induction qs as [|q0 qs IH]; intros s s' Hnd Hrun.
  - injection Hrun as <-. exists []. split; [by rewrite app_nil_r|].
    intros ????? Hin. by apply elem_of_nil in Hin.
  - rewrite fmap_cons in Hnd. apply NoDup_cons in Hnd as [Hfresh Hnd].
    apply run_queries_cons in Hrun as (s1 & Hq & Hrest).
    destruct (IH _ _ Hnd Hrest) as (new' & Htr' & Hparsed').
    destruct (run_queries_trace E _ _ _ Hrest) as (new'' & Htr'' & Hfrom).
    assert (new'' = new') as -> by (rewrite Htr' in Htr''; by apply app_inv_head in Htr'').
    assert (Hrest_attr : ∀ w inv o, EvCall w inv o ∈ new' → inv_attr inv ≠ q_attr q0).
    { intros w inv o Hin Heq. rewrite Forall_forall in Hfrom.
      destruct (Hfrom _ Hin) as (w' & inv' & o' & q' & [= <- <- <-] & Hq' & Hattr').
      apply Hfresh. rewrite <- Heq, Hattr'. by apply list_elem_of_fmap_2. }
    apply query_wiring_run in Hq. destruct (q_cmd q0) as [c|] eqn:Hc.
    + destruct Hq as (kw & _ & Htr & _ & Hcfg). cbv zeta in Htr, Hcfg.
      eexists (_ :: new'). split; [by rewrite Htr', Htr, <- app_assoc|].
      intros q w inv o rsp Hin Hev Hattr Hrsp.
      apply elem_of_cons in Hev as [[= -> -> ->] | Hev].
      * assert (q = q0) as ->.
        { apply elem_of_cons in Hin as [-> | Hin]; [done|].
          exfalso. apply Hfresh. cbn [inv_attr] in Hattr. rewrite Hattr.
          by apply list_elem_of_fmap_2. }
        rewrite Hrsp in Hcfg. destruct Hcfg as (kvs & Hst & _). eauto.
      * apply elem_of_cons in Hin as [-> | Hin]; [|by eapply Hparsed'].
        exfalso. by eapply Hrest_attr.
    + subst s1. exists new'. split; [done|].
      intros q w inv o rsp Hin Hev Hattr Hrsp.
      apply elem_of_cons in Hin as [-> | Hin]; [|by eapply Hparsed'].
      exfalso. by eapply Hrest_attr.
Qed.

Ltac this_query :=
  first
    [ eexists; split; [apply list_elem_of_here|]; split; [reflexivity|]
    | eexists; split; [do 1 apply list_elem_of_further; apply list_elem_of_here|];
      split; [reflexivity|]
    | eexists; split; [do 2 apply list_elem_of_further; apply list_elem_of_here|];
      split; [reflexivity|]
    | eexists; split; [do 3 apply list_elem_of_further; apply list_elem_of_here|];
      split; [reflexivity|]
    | eexists; split; [do 4 apply list_elem_of_further; apply list_elem_of_here|];
      split; [reflexivity|]
    | eexists; split; [do 5 apply list_elem_of_further; apply list_elem_of_here|];
      split; [reflexivity|] ].

Ltac stores_field :=
  let rsp := fresh "rsp" in
  let v := fresh "v" in
  let kvs := fresh "kvs" in
  let Hf := fresh "Hf" in
  let Hst := fresh "Hst" in
  intros rsp v kvs Hf Hst; cbn [q_store map] in Hst; unfold get in Hst;
  rewrite ?Hf in Hst; cbn [from_option id] in Hst; cbn [stored_for];
  try (destruct (scale_or_None v _) as [?|?]; cbn [mbind pyres_bind] in Hst;
       [|discriminate Hst]);
  injection Hst as <-;
  eexists; split; [reflexivity|];
  unfold mirror; cbn [foldl fst snd]; by simplify_map_eq.

Ltac other_queries_silent :=
  let Hin := fresh "Hin" in
  let Hattr := fresh "Hattr" in
  let Hst := fresh "Hst" in
  intros ? ? ? Hin Hattr Hst;
  repeat (apply elem_of_cons in Hin as [-> | Hin]);
  try (by apply elem_of_nil in Hin);
  try (by destruct Hattr);
  cbn [q_store map] in Hst;
  try (destruct (scale_or_None _ _); cbn [mbind pyres_bind] in Hst; [|discriminate Hst]);
  injection Hst as <-; cbn [fmap list_fmap fst];
  repeat (apply not_elem_of_cons; split; [discriminate|]); apply not_elem_of_nil.

Lemma query_fields_present (c : Component) : Forall (row_present c) (query_fields c).
Proof.
  destruct c as [cls|cls|cls]; cbn [query_fields queries_of map _duc.cfg_keys];
    repeat (apply Forall_cons; split; [|]); try apply Forall_nil_2;
    unfold row_present; cbn [queries_of]; this_query;
    (split; [stores_field | other_queries_silent]).
Qed.

(** Present response fields.  In a run of [_queryConfiguration] of a tuner,
    a DDC or a DUC that returns, when the query command of a wiring gets a
    parsable response that holds the field of a key of that wiring, the
    mirrored entry of the key becomes the value of the field - multiplied by
    [frqUnits] for the tuner's frequency and the DDC's frequency offset, so
    that the mirrored frequency is in application units. *)
Theorem present_field_is_mirrored (c : Component) (s s' : St Comp) :
  _queryConfiguration_of E c s = Ok tt s' →
  ∃ new, trace s' = trace s ++ new ∧
    ∀ attr_name key field dflt who inv o rsp v,
      (attr_name, key, field, dflt) ∈ query_fields c →
      EvCall who inv o ∈ new → inv_attr inv = attr_name →
      rspInfo o = Some rsp → rsp !! field = Some v →
      ∃ v', stored_for c key v = Val v' ∧ configuration (obj s') !! key = Some v'.
Proof.
  rewrite _queryConfiguration_queries. intros Hrun.
  destruct (run_queries_stored E _ _ _ (queries_attr_NoDup c) Hrun) as (new & Htr & Hstored).
  destruct (run_queries_parsed _ _ _ (queries_attr_NoDup c) Hrun) as (new' & Htr' & Hparsed).
  assert (new' = new) as -> by (rewrite Htr in Htr'; by apply app_inv_head in Htr').
  exists new. split; [exact Htr|].
  intros attr_name key field dflt w inv o rsp v Hrow Hev Hattr Hrsp Hfield.
  pose proof (query_fields_present c) as Hok. rewrite Forall_forall in Hok.
  destruct (Hok _ Hrow) as (q & Hq & Hqattr & Hval & Hothers).
  assert (Hattr' : inv_attr inv = q_attr q) by (by rewrite Hqattr).
  destruct (Hparsed q w inv o rsp Hq Hev Hattr' Hrsp) as (kvs & Hst).
  destruct (Hval rsp v kvs Hfield Hst) as (v' & Hv' & Hm).
  exists v'. split; [exact Hv'|].
  eapply (Hstored q); try done.
  intros q' rsp' kvs' Hin Hne. apply Hothers; [done|]. by rewrite <- Hqattr.
Qed.

(** The queries a run sends.  A run of [_queryConfiguration] that returns
    has sent one query command for each wiring whose command the class
    defines, in the order of the source, each through the callback the
    component holds; the name, index, parent, transport and callback of the
    component are as before. *)
Theorem one_query_per_defined_command (c : Component) (s s' : St Comp) :
  _queryConfiguration_of E c s = Ok tt s' →
  ∃ new, trace s' = trace s ++ new ∧
    event_attr <$> new = q_attr <$> defined_queries c ∧
    Forall (query_call_by (who (obj s)) (callback (obj s))) new ∧
    same_identity (obj s) (obj s').
Proof.
  rewrite _queryConfiguration_queries. intros Hrun.
  destruct (run_queries_calls _ _ _ Hrun) as (new & Htr & Hid & Hcalls & Hattrs).
  exists new. cbn [trace obj] in *. split; [exact Htr|]. split; [exact Hattrs|].
  split; [exact Hcalls|]. exact Hid.
Qed.

(** What [_queryConfiguration] never writes.  In a run that returns, a key
    that no query wiring of the component assigns holds what the base-class
    hook left under it. *)
Theorem queryConfiguration_frame (c : Component) (s s' : St Comp) (k : Key) :
  k ∉ queried_keys c →
  _queryConfiguration_of E c s = Ok tt s' →
  configuration (obj s') !! k = Configurable_queryConfiguration E (configuration (obj s)) !! k.
Proof.
  intros Hk. rewrite _queryConfiguration_queries. intros Hrun.
  assert (Hfree : ∀ q rsp kvs, q ∈ queries_of c → q_store q rsp = Val kvs → k ∉ kvs.*1);
    [|by rewrite (run_queries_frame E (queries_of c) k _ _ Hfree Hrun)].
  intros q rsp kvs Hin Hst Hmem. apply Hk. clear Hk Hrun.
  destruct c as [cls|cls|cls]; cbn [queries_of] in Hin;
    repeat (apply elem_of_cons in Hin as [-> | Hin]); try (by apply elem_of_nil in Hin);
    cbn [q_store map] in Hst;
    try (destruct (scale_or_None _ _); cbn [mbind pyres_bind] in Hst; [|discriminate Hst]);
    injection Hst as <-; cbn in Hmem;
    repeat (apply elem_of_cons in Hmem as [-> | Hmem]); try (by apply elem_of_nil in Hmem);
    by apply (bool_decide_unpack _).
Qed.

Lemma queries_args_total (c : Component) :
  Forall (λ q, ∀ me, ∃ kw, q_args q me = Val kw) (queries_of c).
Proof.
  destruct c as [cls|cls|cls]; cbn [queries_of];
    repeat (apply Forall_cons; split; [intros me; by eexists|]); apply Forall_nil_2.
Qed.

Lemma run_queries_unparsed (qs : list Query) :
  Forall (λ q, ∀ me, ∃ kw, q_args q me = Val kw) qs →
  (∀ tr inv, inv_query inv = true → rspInfo (hw E tr inv) = None) →
  ∀ s : St Comp, ∃ s', run_queries E qs s = Ok tt s' ∧
    configuration (obj s') = configuration (obj s).
Proof.
  intros Hargs Hmute. induction qs as [|q qs IH]; intros s.
  - by exists s.
  - apply Forall_cons_1 in Hargs as [Hq Hargs]. specialize (IH Hargs).
    cbn [run_queries]. unfold mbind at 1, M_bind at 1.
    assert (Hone : ∃ s1, query_wiring E (q_attr q) (q_cmd q) (q_args q) (q_store q) s
                         = Ok tt s1 ∧ configuration (obj s1) = configuration (obj s)).
    { unfold query_wiring. destruct (q_cmd q) as [c|]; [|by exists s].
      destruct s as [[n i p t cb cfg errs] tr].
      unfold mbind, M_bind, self, gets, lift. cbn [obj base Comp_BaseObject].
      destruct (Hq (mkComp n i p t cb cfg errs)) as [kw ->].
      unfold construct, send, emit, self, gets, modify, mbind, M_bind, mret, M_ret,
        Configurable._addLastCommandErrorInfo, update.
      cbn [obj trace base with_base Comp_BaseObject callback set_cmdErrorInfo].
      rewrite Hmute by reflexivity. by eexists. }
    destruct Hone as (s1 & -> & Hcfg1).
    destruct (IH s1) as (s' & Hrun & Hcfg). exists s'. split; [exact Hrun|].
    by rewrite Hcfg.
Qed.

(** Responses that do not parse.  When no query command gets a parsable
    response ([getResponseInfo()] is [None]), [_queryConfiguration] of a
    tuner, a DDC or a DUC returns and the mirrored map is as the base-class
    hook left it: no entry is reset. *)
Theorem unparsed_responses_keep_mirror (c : Component) (s : St Comp) :
  (∀ tr inv, inv_query inv = true → rspInfo (hw E tr inv) = None) →
  ∃ s', _queryConfiguration_of E c s = Ok tt s' ∧
    configuration (obj s') = Configurable_queryConfiguration E (configuration (obj s)).
Proof.
  intros Hmute. rewrite _queryConfiguration_queries.
  destruct (run_queries_unparsed _ (queries_args_total c) Hmute
              (mkSt (set_configuration (Configurable_queryConfiguration E) (obj s)) (trace s)))
    as (s' & Hrun & Hcfg).
  exists s'. split; [exact Hrun|]. rewrite Hcfg. by destruct s as [[]].
Qed.

End WholeQueries.

(** The hypothesis of the theorem holds for a tuner whose hardware reports
    a frequency. *)
Lemma present_field_is_mirrored_witness :
  let s := mkSt tuned_tuner [] in
  let s' := state_of (_queryConfiguration_of reporting_2450 (Tuner _tuner.defaults) s) in
  ∃ new, trace s' = trace s ++ new ∧
    ∀ attr_name key field dflt who inv o rsp v,
      (attr_name, key, field, dflt) ∈ query_fields (Tuner _tuner.defaults) →
      EvCall who inv o ∈ new → inv_attr inv = attr_name →
      rspInfo o = Some rsp → rsp !! field = Some v →
      ∃ v', stored_for (Tuner _tuner.defaults) key v = Val v' ∧
            configuration (obj s') !! key = Some v'.
Proof.
  apply (present_field_is_mirrored reporting_2450 (Tuner _tuner.defaults)
           (mkSt tuned_tuner [])).
  apply returns_Ok. vm_compute. reflexivity.
Defined.

(** The hypothesis of the theorem holds for a tuner on hardware whose
    responses are empty. *)
Lemma one_query_per_defined_command_witness :
  let s := mkSt tuned_tuner [] in
  let s' := state_of (_queryConfiguration_of silent (Tuner _tuner.defaults) s) in
  ∃ new, trace s' = trace s ++ new ∧
    event_attr <$> new = q_attr <$> defined_queries (Tuner _tuner.defaults) ∧
    Forall (query_call_by (who (obj s)) (callback (obj s))) new ∧
    same_identity (obj s) (obj s').
Proof.
  apply (one_query_per_defined_command silent (Tuner _tuner.defaults) (mkSt tuned_tuner [])).
  apply returns_Ok. vm_compute. reflexivity.
Defined.

(** The hypotheses of the theorem hold for the file name key of a DUC,
    which no query wiring of a DUC assigns. *)
Lemma queryConfiguration_frame_witness :
  let s := mkSt duc1 [] in
  let s' := state_of (_queryConfiguration_of silent (Duc snapshot_duc) s) in
  configuration (obj s') !! DUC_FILENAME
  = Configurable_queryConfiguration silent (configuration (obj s)) !! DUC_FILENAME.
Proof.
  apply (queryConfiguration_frame silent (Duc snapshot_duc) (mkSt duc1 []) _
           DUC_FILENAME).
  - apply (bool_decide_unpack _). reflexivity.
  - apply returns_Ok. vm_compute. reflexivity.
Defined.

(** The hypothesis of the theorem holds for hardware that answers every
    command without response information. *)
Lemma unparsed_responses_keep_mirror_witness :
  ∃ s', _queryConfiguration_of accepting (Tuner _tuner.defaults) (mkSt tuned_tuner [])
        = Ok tt s' ∧
    configuration (obj s')
    = Configurable_queryConfiguration accepting (configuration tuned_tuner).
Proof.
  apply (unparsed_responses_keep_mirror accepting (Tuner _tuner.defaults)
           (mkSt tuned_tuner [])).
  reflexivity.
Defined.

(** ** Enabling and disabling *)

Section Enable.
Variable E : Env.

Lemma has_key_singleton (k k' : Key) (v : Value) :
  has_key {[ k := v ]} k' = bool_decide (k = k').
Proof.
  unfold has_key. destruct (decide (k = k')) as [->|Hne].
  - by rewrite lookup_singleton_eq, bool_decide_eq_true_2.
  - by rewrite lookup_singleton_ne, bool_decide_eq_false_2.
Qed.

(** [enable()] and [disable()] on a component without a wiring for
    [ENABLE].  On a DUC and on a tone generator, whatever commands the class
    defines, [enable()] and [disable()] send nothing, change nothing and
    return [True]: [_setConfiguration] of these classes has no wiring that
    tests the [ENABLE] key. *)
Theorem enable_without_wiring_does_nothing :
  (∀ (cls : _duc.Class) (s : St Comp),
     _base'.enable (_duc._setConfiguration E cls) s = Ok true s ∧
     _base'.disable (_duc._setConfiguration E cls) s = Ok true s) ∧
  (∀ (cls : _cwToneGen.Class) (s : St Comp),
     _base'.enable (_cwToneGen._setConfiguration E cls) s = Ok true s ∧
     _base'.disable (_cwToneGen._setConfiguration E cls) s = Ok true s).
Proof.
  split; intros cls s.
  - unfold _base'.enable, _base'.disable.
    change (_duc._setConfiguration E cls) with (_setConfiguration_of E (Duc cls)).
    split; apply no_wired_key_noop;
      repeat (apply Forall_cons; split; [by apply lookup_singleton_ne|]); apply Forall_nil_2.
  - unfold _base'.enable, _base'.disable, _cwToneGen._setConfiguration.
    cbn [existsb _cwToneGen.tone_keys _cwToneGen.sweep_keys].
    rewrite !has_key_singleton. split; reflexivity.
Qed.

(** [enable()] and [disable()] on a tuner.  With a power command defined,
    the call sends that one command, carrying the tuner's index and 1 (for
    [enable]) or 0 (for [disable]), and returns its outcome; when the
    command succeeded the mirrored [ENABLE] entry becomes what the command
    object reports under [ENABLE], and nothing else of the mirrored map
    changes.  Without a power command the call does nothing and returns
    [True]. *)
Theorem tuner_enable_sends_power_command (cls : _tuner.Class) (s : St Comp) (on : bool) :
  let call_ := if on then _base'.enable (_tuner._setConfiguration E cls)
               else _base'.disable (_tuner._setConfiguration E cls) in
  match _tuner.tpwrCmd cls with
  | None => call_ s = Ok true s
  | Some c =>
      ∃ inv o s', call_ s = Ok (cmd_ok o) s' ∧
        trace s' = trace s ++ [EvCall (who (obj s)) inv o] ∧
        inv_cmd inv = c ∧ inv_query inv = false ∧
        inv_args inv = {[ INDEX := VInt (index (obj s));
                          ENABLE := VInt (if on then 1 else 0) ]} ∧
        configuration (obj s')
        = if cmd_ok o then <[ ENABLE := attr o ENABLE ]> (configuration (obj s))
          else configuration (obj s)
  end.
Proof.
  cbv zeta.
  assert (Hrun : ∀ z : Z,
    _tuner._setConfiguration E cls {[ ENABLE := VInt z ]} s
    = run_blocks E (optional true (_tuner.tpwrCmd cls)
                      (_tuner.tpwr_block {[ ENABLE := VInt z ]})) true s).
  { intros z.
    change (_tuner._setConfiguration E cls {[ ENABLE := VInt z ]} s)
      with (_setConfiguration_of E (Tuner cls) {[ ENABLE := VInt z ]} s).
    rewrite _setConfiguration_blocks. cbn [blocks_of].
    rewrite !has_key_singleton.
    change (optional true (_tuner.tpwrCmd cls) (_tuner.tpwr_block {[ ENABLE := VInt z ]})
            ++ [] ++ [] ++ [] ++ [] ++ [])
      with (optional true (_tuner.tpwrCmd cls) (_tuner.tpwr_block {[ ENABLE := VInt z ]})
            ++ []).
    by rewrite app_nil_r. }
  assert (Hboth : ∀ z : Z,
    match _tuner.tpwrCmd cls with
    | None => _tuner._setConfiguration E cls {[ ENABLE := VInt z ]} s = Ok true s
    | Some c =>
        ∃ inv o s', _tuner._setConfiguration E cls {[ ENABLE := VInt z ]} s
                    = Ok (cmd_ok o) s' ∧
          trace s' = trace s ++ [EvCall (who (obj s)) inv o] ∧
          inv_cmd inv = c ∧ inv_query inv = false ∧
          inv_args inv = {[ INDEX := VInt (index (obj s)); ENABLE := VInt z ]} ∧
          configuration (obj s')
          = if cmd_ok o then <[ ENABLE := attr o ENABLE ]> (configuration (obj s))
            else configuration (obj s)
    end).
  { intros z. rewrite Hrun. destruct (_tuner.tpwrCmd cls) as [c|]; [|reflexivity].
    cbn [optional run_blocks]. unfold mbind, M_bind, mret, M_ret.
    erewrite run_block_eq by reflexivity. cbn [andb].
    eexists _, _, _. split; [reflexivity|]. split; [apply issued_trace|].
    split; [reflexivity|]. split; [reflexivity|]. split; [reflexivity|].
    rewrite issued_configuration. cbn [andb]. reflexivity. }
  destruct on; apply Hboth.
Qed.

End Enable.

(** ** Tone generators and transmitters *)

Section ToneGenerators.
Variable E : Env.

(** A tone generator without a parent.  The commands of a tone generator
    carry [self.parent.index]: on a tone generator whose parent is [None],
    [_queryConfiguration] raises [AttributeError] as soon as the class
    defines a tone command, and [_setConfiguration] raises it for every
    request that holds a tone key; in both cases no command is sent. *)
Theorem tone_generator_without_parent_raises (cls : _cwToneGen.Class) (s : St Comp)
    (c : CmdClass) :
  parent (obj s) = None →
  _cwToneGen.toneCmd cls = Some c →
  (∃ s1, _cwToneGen._queryConfiguration E cls s = Raise AttributeError s1 ∧
         trace s1 = trace s) ∧
  (∀ confDict, existsb (has_key confDict) _cwToneGen.tone_keys = true →
     _cwToneGen._setConfiguration E cls confDict s = Raise AttributeError s).
Proof.
  intros Hp Hc. destruct s as [[n i p t cb cfg errs] tr]. cbn [obj parent] in Hp. subst p.
  split.
  - unfold _cwToneGen._queryConfiguration. rewrite Hc. eexists. split; [reflexivity|].
    reflexivity.
  - intros confDict Hkeys. unfold _cwToneGen._setConfiguration. rewrite Hkeys, Hc.
    reflexivity.
Qed.

End ToneGenerators.

(** The hypotheses of the theorem hold for a tone generator built without a
    parent. *)
Lemma tone_generator_without_parent_raises_witness :
  (∃ s1, _cwToneGen._queryConfiguration accepting _cwToneGen.defaults (mkSt orphan_tone [])
         = Raise AttributeError s1 ∧ trace s1 = []) ∧
  (∀ confDict, existsb (has_key confDict) _cwToneGen.tone_keys = true →
     _cwToneGen._setConfiguration accepting _cwToneGen.defaults confDict
       (mkSt orphan_tone []) = Raise AttributeError (mkSt orphan_tone [])).
Proof.
  apply (tone_generator_without_parent_raises accepting _cwToneGen.defaults
           (mkSt orphan_tone []) "cwt"); reflexivity.
Defined.

Section Transmitters.
Variable E : Env.

Lemma mapM_Val {A B} (g : A → B) (l : list A) :
  mapM (M := pyres) (λ x, Val (g x)) l = Val (g <$> l).
Proof.
  induction l as [|x l IH]; [reflexivity|].
  change (mapM (M := pyres) (λ x, Val (g x)) (x :: l))
    with (y ← Val (g x); k ← mapM (M := pyres) (λ x, Val (g x)) l; mret (y :: k)).
  by rewrite IH.
Qed.

(** The transmitter that [__init__] builds.  With a tone generator type,
    [__init__] returns a transmitter named ["TX"] with the index, parent and
    callback it was given and no transport, whose [toneGenDict] holds one
    tone generator for each index of [range(toneGenIndexBase,
    toneGenIndexBase + numToneGen)], in that order and without repetition;
    each tone generator has its key as index, the transmitter as parent and
    the callback of the transmitter. *)
Theorem tx_init_builds_tone_generators (cls : _tx.Class) (cw : _cwToneGen.Class)
    (parent_ : option Who) (callback_ : option Callback) (index_ : Z) :
  _tx.toneGenType cls = Some cw →
  ∃ o, _tx.__init__ cls parent_ callback_ index_ = Val o ∧
    (_tx.toneGenDict o).*1 = seqZ (_tx.toneGenIndexBase cls) (_tx.numToneGen cls) ∧
    NoDup (_tx.toneGenDict o).*1 ∧
    Forall (fresh_child cw index_ callback_) (_tx.toneGenDict o) ∧
    _name (_tx.tx_base o) = "TX" ∧ index (_tx.tx_base o) = index_ ∧
    parent (_tx.tx_base o) = parent_ ∧ callback (_tx.tx_base o) = callback_ ∧
    transport (_tx.tx_base o) = None.
Proof.
  intros Hcw. unfold _tx.__init__. rewrite Hcw.
  rewrite (mapM_Val (λ i, (i, _tx.mkToneGen cw
             (mkComp (_cwToneGen.name cw) i
                (Some (who (mkComp "TX" index_ parent_ None callback_ ∅ [])))
                None callback_ ∅ [])))).
  cbn [mbind pyres_bind]. eexists. split; [reflexivity|].
  cbn [_tx.toneGenDict _tx.tx_base _name index parent callback transport].
  assert (Hkeys : ∀ l : list Z,
    ((λ i, (i, _tx.mkToneGen cw
               (mkComp (_cwToneGen.name cw) i
                  (Some (who (mkComp "TX" index_ parent_ None callback_ ∅ [])))
                  None callback_ ∅ []))) <$> l).*1 = l).
  { intros l. rewrite <- list_fmap_compose. by rewrite <- (list_fmap_id l) at 2. }
  rewrite Hkeys. split; [reflexivity|]. split; [apply NoDup_seqZ|].
  split; [|by repeat split].
  apply Forall_fmap, Forall_forall. intros i _. by repeat split.
Qed.

(** A transmitter class without a tone generator type.  When
    [toneGenType] is [None], [__init__] builds a transmitter without tone
    generators if [numToneGen] is not positive, and raises [TypeError] - the
    type is called, and [None] is not callable - if it is positive. *)
Theorem tx_init_without_type (cls : _tx.Class)
    (parent_ : option Who) (callback_ : option Callback) (index_ : Z) :
  _tx.toneGenType cls = None →
  _tx.__init__ cls parent_ callback_ index_
  = if bool_decide (0 < _tx.numToneGen cls)%Z then Exc TypeError
    else Val (_tx.mkObj (mkComp "TX" index_ parent_ None callback_ ∅ []) []).
Proof.
  intros Hcw. unfold _tx.__init__. rewrite Hcw. unfold seqZ.
  destruct (Z.to_nat (_tx.numToneGen cls)) as [|n] eqn:Hn.
  - rewrite bool_decide_eq_false_2 by lia. reflexivity.
  - rewrite bool_decide_eq_true_2 by lia. reflexivity.
Qed.

Lemma child_addTransport_no_query (cw : _cwToneGen.Class) (t : Transport) (cb : Callback)
    (c : Comp) (tr : list Event) :
  _base.addTransport (_cwToneGen.queryConfiguration E cw) t cb false (mkSt c tr)
  = Ok tt (mkSt (set_callback (Some cb) (set_transport (Some t) c))
             (tr ++ [EvAttach (who c) t cb])).
Proof. by destruct c. Qed.

Lemma children_wire_loop (t : Transport) (cb : Callback) :
  ∀ (todo pre : list (Z * _tx.ToneGen)) (s : St _tx.Obj),
    _tx.toneGenDict (obj s) = pre ++ todo →
    NoDup (pre ++ todo).*1 →
    ∃ todo',
      _tx.for_each todo.*1 (λ i,
        _tx.with_child i (λ cw,
          _base.addTransport (_cwToneGen.queryConfiguration E cw) t cb false)) s
      = Ok tt (mkSt (_tx.mkObj (_tx.tx_base (obj s)) (pre ++ todo'))
                 (trace s ++ ((λ ig, EvAttach (who (_tx.tg_obj ig.2)) t cb) <$> todo))) ∧
      Forall2 (wired_child t cb) todo todo'.
Proof.
  induction todo as [|[i g] todo IH]; intros pre s Hdict Hnd.
  - exists []. rewrite app_nil_r in *. cbn. rewrite app_nil_r, <- Hdict.
    split; [by destruct s as [[]]|]. constructor.
  - assert (Hi : i ∉ pre.*1).
    { rewrite fmap_app, fmap_cons in Hnd. apply NoDup_app in Hnd as (_ & Hnd & _).
      intros Hin. apply (Hnd _ Hin). left. }
    cbn [fmap list_fmap fst _tx.for_each]. unfold mbind at 1, M_bind at 1.
    rewrite (with_child_run i g pre todo _ s tt _ Hdict Hi
               (child_addTransport_no_query (_tx.tg_class g) t cb (_tx.tg_obj g) (trace s))).
    cbn [obj trace].
    set (g' := _tx.mkToneGen (_tx.tg_class g)
                 (set_callback (Some cb) (set_transport (Some t) (_tx.tg_obj g)))).
    destruct (IH (pre ++ [(i, g')])
                (mkSt (_tx.mkObj (_tx.tx_base (obj s)) (pre ++ (i, g') :: todo))
                   (trace s ++ [EvAttach (who (_tx.tg_obj g)) t cb])))
      as (todo' & Hloop & Hwired).
    { cbn [obj _tx.toneGenDict]. by rewrite <- app_assoc. }
    { rewrite <- app_assoc. cbn [app]. by rewrite !fmap_app, !fmap_cons in *. }
    exists ((i, g') :: todo'). split.
    + rewrite Hloop. cbn [obj trace _tx.tx_base fmap list_fmap snd].
      by rewrite <- !app_assoc.
    + constructor; [by repeat split | done].
Qed.

(** Attaching without a query.  [addTransport] on a transmitter with
    [queryConfig] false sends no command: it hands the transport and the
    callback to every tone generator, in dictionary order, then to the
    transmitter itself, and changes nothing else. *)
Theorem addTransport_without_query_sends_nothing (cls : _tx.Class) (t : Transport)
    (cb : Callback) (s : St _tx.Obj) :
  NoDup (_tx.toneGenDict (obj s)).*1 →
  ∃ s', _tx.addTransport E cls t cb false s = Ok tt s' ∧
    trace s' = trace s
               ++ ((λ ig, EvAttach (who (_tx.tg_obj ig.2)) t cb) <$> _tx.toneGenDict (obj s))
               ++ [EvAttach (who (_tx.tx_base (obj s))) t cb] ∧
    _tx.tx_base (obj s')
    = set_callback (Some cb) (set_transport (Some t) (_tx.tx_base (obj s))) ∧
    Forall2 (wired_child t cb) (_tx.toneGenDict (obj s)) (_tx.toneGenDict (obj s')).
Proof.
  intros Hnd.
  destruct (children_wire_loop t cb (_tx.toneGenDict (obj s)) [] s eq_refl Hnd)
    as (kids & Hloop & Hwired).
  unfold _tx.addTransport. unfold mbind at 1 2, M_bind at 1 2, gets. cbn [obj].
  rewrite Hloop. cbn [app].
  destruct s as [[[n i p t0 cb0 cfg errs] dict] tr].
  eexists. split; [reflexivity|]. cbn [trace obj _tx.tx_base _tx.toneGenDict].
  split; [by rewrite <- app_assoc|]. split; [reflexivity|]. exact Hwired.
Qed.

End Transmitters.

(** The hypothesis of the theorem holds for the class with two tone
    generators. *)
Lemma tx_init_builds_tone_generators_witness :
  ∃ o, _tx.__init__ two_tone_tx None (Some "callback") 1 = Val o ∧
    (_tx.toneGenDict o).*1
    = seqZ (_tx.toneGenIndexBase two_tone_tx) (_tx.numToneGen two_tone_tx) ∧
    NoDup (_tx.toneGenDict o).*1 ∧
    Forall (fresh_child _cwToneGen.defaults 1 (Some "callback")) (_tx.toneGenDict o) ∧
    _name (_tx.tx_base o) = "TX" ∧ index (_tx.tx_base o) = 1%Z ∧
    parent (_tx.tx_base o) = None ∧ callback (_tx.tx_base o) = Some "callback" ∧
    transport (_tx.tx_base o) = None.
Proof.
  apply (tx_init_builds_tone_generators two_tone_tx _cwToneGen.defaults None
           (Some "callback") 1).
  reflexivity.
Defined.

(** The hypothesis of the theorem holds for a class that asks for two tone
    generators and names no type. *)
Lemma tx_init_without_type_witness :
  _tx.__init__ typeless_tx None (Some "callback") 1 = Exc TypeError.
Proof.
  apply (tx_init_without_type typeless_tx None (Some "callback") 1). reflexivity.
Defined.

(** The hypothesis of the theorem holds for the transmitter that [__init__]
    builds. *)
Lemma addTransport_without_query_sends_nothing_witness :
  ∃ s', _tx.addTransport accepting two_tone_tx "transport" "callback" false (mkSt tx1 [])
        = Ok tt s' ∧
    trace s' = []
               ++ ((λ ig, EvAttach (who (_tx.tg_obj ig.2)) "transport" "callback")
                     <$> _tx.toneGenDict tx1)
               ++ [EvAttach (who (_tx.tx_base tx1)) "transport" "callback"] ∧
    _tx.tx_base (obj s')
    = set_callback (Some "callback") (set_transport (Some "transport") (_tx.tx_base tx1)) ∧
    Forall2 (wired_child "transport" "callback") (_tx.toneGenDict tx1)
      (_tx.toneGenDict (obj s')).
Proof.
  apply (addTransport_without_query_sends_nothing accepting two_tone_tx "transport"
           "callback" (mkSt tx1 [])).
  apply (bool_decide_unpack _). reflexivity.
Defined.

(** ** Requests for tone generators *)

Section Dispatch.
Variable E : Env.

Lemma cw_setConfiguration_blocks (cls : _cwToneGen.Class) (confDict : gmap Key Value)
    (s : St Comp) :
  _cwToneGen._setConfiguration E cls confDict s
  = run_blocks E
      (optional (existsb (has_key confDict) _cwToneGen.tone_keys) (_cwToneGen.toneCmd cls)
         (_cwToneGen.keyed_block confDict "toneCmd" _cwToneGen.tone_keys)
       ++ optional (existsb (has_key confDict) _cwToneGen.sweep_keys)
            (_cwToneGen.sweepCmd cls)
            (_cwToneGen.keyed_block confDict "sweepCmd" _cwToneGen.sweep_keys)) true s.
Proof.
  unfold _cwToneGen._setConfiguration. rewrite run_blocks_app, <- guarded_blocks.
  unfold mbind at 1, M_bind at 1.
  destruct (guarded _ _ _ _ _ s) as [ret' s'|]; [|reflexivity].
  rewrite <- guarded_blocks. unfold mbind, M_bind. by destruct (guarded _ _ _ _ _ s').
Qed.

(** Blocks that only need a parent run to the end on a component that has
    one. *)
Lemma run_blocks_total (bs : list Block) :
  (∀ b me, b ∈ bs → is_Some (parent me) → ∃ w, b me = Val w) →
  ∀ (ret : bool) (s : St Comp), is_Some (parent (obj s)) →
    ∃ r s', run_blocks E bs ret s = Ok r s'.
Proof.
  induction bs as [|b0 bs IH]; intros Hbs ret s Hp.
  - by exists ret, s.
  - cbn [run_blocks]. unfold mbind, M_bind.
    destruct (Hbs b0 (obj s) ltac:(left) Hp) as [w Hw].
    rewrite (run_block_eq E b0 w ret s Hw).
    apply IH; [intros b me Hin; apply Hbs; by right | exact Hp].
Qed.

(** [setConfiguration] on a tone generator that has a parent returns; it
    appends set round trips of that tone generator only and keeps its
    identity. *)
Lemma child_setConfiguration (cw : _cwToneGen.Class) (kwargs : gmap Key Value)
    (s : St Comp) :
  is_Some (parent (obj s)) →
  ∃ r s' calls, _cwToneGen.setConfiguration E cw kwargs s = Ok r s' ∧
    trace s' = trace s ++ calls ∧
    Forall (set_call_by (who (obj s)) (callback (obj s))) calls ∧
    same_identity (obj s) (obj s').
Proof.
  intros Hp. unfold _cwToneGen.setConfiguration, Configurable.setConfiguration.
  unfold mbind, M_bind, update, modify.
  set (s0 := mkSt _ _). set (kw := filter _ kwargs).
  assert (Hp0 : is_Some (parent (obj s0))) by (by destruct s as [[]]).
  assert (Hid0 : same_identity (obj s) (obj s0)) by (by destruct s as [[]]).
  rewrite cw_setConfiguration_blocks.
  set (bs := _ ++ _).
  destruct (run_blocks_total bs) with (ret := true) (s := s0) as (r & s' & Hrun); [|done|].
  { intros b me Hin [pp Hpp]. subst bs.
    apply elem_of_app in Hin as [Hin|Hin]; apply optional_elem in Hin as [c ->];
      unfold _cwToneGen.keyed_block, parent_index; rewrite Hpp; by eexists. }
  destruct (run_blocks_calls E bs true s0) as (calls & Htr & Hcalls & Hid & _).
  rewrite Hrun in Htr, Hid. cbn [state_of] in Htr, Hid.
  exists r, s', calls. split; [exact Hrun|]. split; [exact Htr|]. split.
  - rewrite (same_identity_who _ _ Hid0) in Hcalls.
    destruct Hid0 as (_ & _ & _ & _ & Hcb). by rewrite Hcb in Hcalls.
  - by eapply same_identity_trans.
Qed.

(** One turn of the loop over the tone generators in
    [_tx._setConfiguration]. *)
Lemma dispatch_step (confDict : gmap Key Value) (d : gmap Z (gmap Key Value))
    (i : Z) (g : _tx.ToneGen) (pre post : list (Z * _tx.ToneGen)) (s : St _tx.Obj) :
  confDict !! CONFIG_CW = Some (VDict d) →
  _tx.toneGenDict (obj s) = pre ++ (i, g) :: post → i ∉ pre.*1 →
  is_Some (parent (_tx.tg_obj g)) →
  ∃ s' g' calls,
    (cw ← lift (getitem confDict CONFIG_CW);
     present ← lift (_tx.contains cw i);
     if (present : bool) then
       _tx.with_child i (λ tg,
         kwargs ← lift (_tx.kwargs_at cw i);
         _cwToneGen.setConfiguration E tg kwargs) ;;
       errs ← _tx.with_child i (λ _, Configurable.getLastCommandErrorInfo);
       update (set_cmdErrorInfo (λ l, l ++ errs))
     else mret tt) s = Ok tt s' ∧
    trace s' = trace s ++ calls ∧
    _tx.toneGenDict (obj s') = pre ++ (i, g') :: post ∧
    same_identity (_tx.tx_base (obj s)) (_tx.tx_base (obj s')) ∧
    configuration (_tx.tx_base (obj s')) = configuration (_tx.tx_base (obj s)) ∧
    kept_child d (i, g) (i, g') ∧
    Forall (λ ev, is_Some (d !! i) ∧
                  ∃ inv o, ev = EvCall (who (_tx.tg_obj g)) inv o ∧ inv_query inv = false)
      calls.
Proof.
  intros Hcw Hdict Hi Hp.
  unfold mbind at 1 2, M_bind at 1 2, lift at 1 2, getitem. rewrite Hcw.
  cbn [_tx.contains].
  destruct (d !! i) as [kw|] eqn:Hd.
  - rewrite bool_decide_eq_true_2 by done.
    destruct (child_setConfiguration (_tx.tg_class g) kw (mkSt (_tx.tg_obj g) (trace s)) Hp)
      as (r & s1 & calls & Hrun & Htr & Hcalls & Hid).
    cbn [obj trace] in Htr, Hcalls, Hid.
    unfold mbind at 1, M_bind at 1.
    rewrite (with_child_run i g pre post _ s r s1 Hdict Hi); last first.
    { unfold mbind, M_bind, lift. cbn [_tx.kwargs_at]. by rewrite Hd. }
    set (g' := _tx.mkToneGen (_tx.tg_class g) (obj s1)).
    set (sa := mkSt _ (trace s1)).
    unfold mbind at 1, M_bind at 1.
    rewrite (with_child_run i g' pre post _ sa (cmdErrorInfo (obj s1))
               (mkSt (obj s1) (trace s1)) eq_refl Hi); last first.
    { reflexivity. }
    eexists _, g', calls. split; [reflexivity|].
    cbn [trace obj _tx.tx_base _tx.toneGenDict with_base _tx.Obj_BaseObject sa g'
         _tx.tg_class].
    split; [exact Htr|]. split; [reflexivity|].
    split; [by destruct (_tx.tx_base (obj s))|].
    split; [by destruct (_tx.tx_base (obj s))|].
    split.
    { split; [reflexivity|]. split; [reflexivity|]. split; [exact Hid|].
      cbn [fst]. by rewrite Hd. }
    eapply Forall_impl; [exact Hcalls|].
    intros ev (inv & o & -> & Hq & _). split; [done|]. by exists inv, o.
  - rewrite bool_decide_eq_false_2 by (by intros []).
    exists s, g, []. rewrite app_nil_r.
    split; [reflexivity|]. split; [reflexivity|]. split; [exact Hdict|].
    split; [apply same_identity_refl|]. split; [reflexivity|].
    split; [|apply Forall_nil_2].
    split; [reflexivity|]. split; [reflexivity|]. split; [apply same_identity_refl|].
    done.
Qed.

Lemma named_child_call_mono (d : gmap Z (gmap Key Value)) (kids kids' : list (Z * _tx.ToneGen))
    (ev : Event) :
  kids ⊆ kids' → named_child_call d kids ev → named_child_call d kids' ev.
Proof.
  intros Hsub (ig & inv & o & Hin & Hd & -> & Hq).
  exists ig, inv, o. split; [by apply Hsub|done].
Qed.

Lemma dispatch_loop (confDict : gmap Key Value) (d : gmap Z (gmap Key Value)) :
  confDict !! CONFIG_CW = Some (VDict d) →
  ∀ (todo pre : list (Z * _tx.ToneGen)) (s : St _tx.Obj),
    _tx.toneGenDict (obj s) = pre ++ todo →
    NoDup (pre ++ todo).*1 →
    Forall (λ ig, is_Some (parent (_tx.tg_obj ig.2))) todo →
    ∃ s' new todo',
      _tx.for_each todo.*1 (λ tgNum,
        cw ← lift (getitem confDict CONFIG_CW);
        present ← lift (_tx.contains cw tgNum);
        if (present : bool) then
          _tx.with_child tgNum (λ tg,
            kwargs ← lift (_tx.kwargs_at cw tgNum);
            _cwToneGen.setConfiguration E tg kwargs) ;;
          errs ← _tx.with_child tgNum (λ _, Configurable.getLastCommandErrorInfo);
          update (set_cmdErrorInfo (λ l, l ++ errs))
        else mret tt) s = Ok tt s' ∧
      trace s' = trace s ++ new ∧
      _tx.toneGenDict (obj s') = pre ++ todo' ∧
      same_identity (_tx.tx_base (obj s)) (_tx.tx_base (obj s')) ∧
      configuration (_tx.tx_base (obj s')) = configuration (_tx.tx_base (obj s)) ∧
      Forall2 (kept_child d) todo todo' ∧
      Forall (named_child_call d todo) new.
Proof.
  intros Hcw. induction todo as [|[i g] todo IH]; intros pre s Hdict Hnd Hpar.
  - exists s, [], []. rewrite !app_nil_r in *.
    repeat split; first [done | constructor].
  - apply Forall_cons_1 in Hpar as [Hp Hpar]. cbn [snd] in Hp.
    assert (Hi : i ∉ pre.*1).
    { rewrite fmap_app, fmap_cons in Hnd. apply NoDup_app in Hnd as (_ & Hnd & _).
      intros Hin. apply (Hnd _ Hin). left. }
    destruct (dispatch_step confDict d i g pre todo s Hcw Hdict Hi Hp)
      as (s1 & g' & calls & Hstep & Htr1 & Hdict1 & Hid1 & Hcfg1 & Hkept & Hcalls).
    cbn [fmap list_fmap fst _tx.for_each]. unfold mbind at 1, M_bind at 1.
    rewrite Hstep.
    destruct (IH (pre ++ [(i, g')]) s1) as (s' & new & todo' & Hloop & Htr & Hdict' & Hid
                                            & Hcfg & Hkepts & Hnew).
    { by rewrite Hdict1, <- app_assoc. }
    { rewrite <- app_assoc. cbn [app]. by rewrite !fmap_app, !fmap_cons in *. }
    { done. }
    exists s', (calls ++ new), ((i, g') :: todo').
    split; [exact Hloop|].
    split; [by rewrite Htr, Htr1, <- app_assoc|].
    split; [by rewrite Hdict', <- app_assoc|].
    split; [by eapply same_identity_trans|].
    split; [by rewrite Hcfg|].
    split; [by constructor|].
    apply Forall_app. split.
    + eapply Forall_impl; [exact Hcalls|].
      intros ev (Hd & inv & o & -> & Hq). exists (i, g), inv, o.
      split; [left|done].
    + eapply Forall_impl; [exact Hnew|].
      intros ev. apply named_child_call_mono. intros x Hx. by right.
Qed.

Lemma tx_setConfiguration_nested (cls : _tx.Class) (confDict : gmap Key Value)
    (s : St _tx.Obj) :
  has_key confDict ENABLE = false →
  has_key confDict TX_FREQUENCY = false →
  has_key confDict TX_ATTENUATION = false →
  _tx._setConfiguration E cls confDict s
  = match
      (if bool_decide (0 < _tx.numToneGen cls)%Z && has_key confDict CONFIG_CW then
         _tx.for_each (seqZ (_tx.toneGenIndexBase cls) (_tx.numToneGen cls)) (λ tgNum,
           cw ← lift (getitem confDict CONFIG_CW);
           present ← lift (_tx.contains cw tgNum);
           if (present : bool) then
             _tx.with_child tgNum (λ tg,
               kwargs ← lift (_tx.kwargs_at cw tgNum);
               _cwToneGen.setConfiguration E tg kwargs) ;;
             errs ← _tx.with_child tgNum (λ _, Configurable.getLastCommandErrorInfo);
             update (set_cmdErrorInfo (λ l, l ++ errs))
           else mret tt)
       else mret tt) s
    with
    | Ok _ s' => Ok true s'
    | Raise e s' => Raise e s'
    end.
Proof.
  intros He Hf Ha. unfold _tx._setConfiguration, guarded. rewrite He, Hf, Ha.
  reflexivity.
Qed.

(** Requests for tone generators.  On a transmitter whose [toneGenDict]
    holds the tone generators of [range(toneGenIndexBase, toneGenIndexBase
    + numToneGen)], as [__init__] builds it, a request that holds
    [CONFIG_CW] and none of the transmitter's own keys returns [True]; the
    commands it sends are set commands of the tone generators that the
    request names; a tone generator that the request does not name is
    unchanged; an index that the request names and the transmitter does not
    have is ignored; and the transmitter's own mirrored map - its
    [CONFIG_CW] entry included - is not updated. *)
Theorem tx_dispatches_to_named_tone_generators (cls : _tx.Class)
    (confDict : gmap Key Value) (d : gmap Z (gmap Key Value)) (s : St _tx.Obj) :
  confDict !! CONFIG_CW = Some (VDict d) →
  has_key confDict ENABLE = false →
  has_key confDict TX_FREQUENCY = false →
  has_key confDict TX_ATTENUATION = false →
  (_tx.toneGenDict (obj s)).*1 = seqZ (_tx.toneGenIndexBase cls) (_tx.numToneGen cls) →
  Forall (λ ig, is_Some (parent (_tx.tg_obj ig.2))) (_tx.toneGenDict (obj s)) →
  ∃ s' new,
    _tx._setConfiguration E cls confDict s = Ok true s' ∧
    trace s' = trace s ++ new ∧
    Forall (named_child_call d (_tx.toneGenDict (obj s))) new ∧
    Forall2 (kept_child d) (_tx.toneGenDict (obj s)) (_tx.toneGenDict (obj s')) ∧
    same_identity (_tx.tx_base (obj s)) (_tx.tx_base (obj s')) ∧
    configuration (_tx.tx_base (obj s')) = configuration (_tx.tx_base (obj s)).
Proof.
  intros Hcw He Hf Ha Hkeys Hpar.
  rewrite tx_setConfiguration_nested by done.
  destruct (bool_decide (0 < _tx.numToneGen cls)%Z && has_key confDict CONFIG_CW) eqn:Hguard.
  - assert (Hnd : NoDup ([] ++ _tx.toneGenDict (obj s)).*1).
    { cbn [app]. rewrite Hkeys. apply NoDup_seqZ. }
    destruct (dispatch_loop confDict d Hcw (_tx.toneGenDict (obj s)) [] s eq_refl Hnd Hpar)
      as (s' & new & kids & Hloop & Htr & Hdict & Hid & Hcfg & Hkept & Hnew).
    rewrite Hkeys in Hloop. rewrite Hloop. cbn [app] in Hdict.
    exists s', new. rewrite Hdict.
    split; [reflexivity|]. split; [exact Htr|]. split; [exact Hnew|].
    split; [exact Hkept|]. split; [exact Hid|]. exact Hcfg.
  - assert (Hempty : _tx.toneGenDict (obj s) = []).
    { apply andb_false_iff in Hguard as [Hn | Hk].
      - apply bool_decide_eq_false in Hn.
        apply fmap_nil_inv with (f := fst). rewrite Hkeys.
        unfold seqZ. replace (Z.to_nat (_tx.numToneGen cls)) with 0%nat by lia. done.
      - unfold has_key in Hk. by rewrite Hcw in Hk. }
    exists s, []. rewrite app_nil_r, Hempty. cbn [mret M_ret].
    split; [reflexivity|]. split; [reflexivity|]. split; [constructor|].
    split; [constructor|]. split; [apply same_identity_refl|]. reflexivity.
Qed.

End Dispatch.

(** The hypotheses of the theorem hold for the transmitter that [__init__]
    builds and a request that names tone generator 2, which it has, and
    tone generator 7, which it has not. *)
Lemma tx_dispatches_to_named_tone_generators_witness :
  ∃ d s' new,
    tones_2_and_7 !! CONFIG_CW = Some (VDict d) ∧
    _tx._setConfiguration accepting two_tone_tx tones_2_and_7 (mkSt tx1 []) = Ok true s' ∧
    trace s' = [] ++ new ∧
    Forall (named_child_call d (_tx.toneGenDict tx1)) new ∧
    Forall2 (kept_child d) (_tx.toneGenDict tx1) (_tx.toneGenDict (obj s')) ∧
    same_identity (_tx.tx_base tx1) (_tx.tx_base (obj s')) ∧
    configuration (_tx.tx_base (obj s')) = configuration (_tx.tx_base tx1).
Proof.
  eexists.
  destruct (tx_dispatches_to_named_tone_generators accepting two_tone_tx tones_2_and_7 _
              (mkSt tx1 []) eq_refl eq_refl eq_refl eq_refl eq_refl)
    as (s' & new & H).
  { repeat (apply Forall_cons; split; [by eexists|]). apply Forall_nil_2. }
  exists s', new. split; [reflexivity|]. exact H.
Defined.

(** ** The rate, bandwidth and data format methods of [_ddc] *)

Section RateMethods.

Lemma insert_sorted_elem (k x : Z) (l : list Z) :
  x ∈ insert_sorted k l ↔ x = k ∨ x ∈ l.
Proof.
  induction l as [|h t IH]; cbn [insert_sorted].
  - rewrite list_elem_of_singleton, elem_of_nil. tauto.
  - destruct (k <=? h)%Z.
    + by rewrite elem_of_cons.
    + rewrite !elem_of_cons, IH. tauto.
Qed.

Lemma py_sorted_elem (x : Z) (l : list Z) : x ∈ py_sorted l ↔ x ∈ l.
Proof.
  induction l as [|h t IH]; [done|].
  cbn [py_sorted foldr]. fold (py_sorted t).
  by rewrite insert_sorted_elem, elem_of_cons, IH.
Qed.

Lemma increasing_ascending (l : list Z) : increasing l → ascending l.
Proof.
  induction 1 as [|h t Hh Ht IH]; intros i j a b Hij Hi Hj.
  - by rewrite lookup_nil in Hi.
  - destruct j as [|j]; [lia|]. cbn in Hj. destruct i as [|i].
    + cbn in Hi. injection Hi as <-. rewrite Forall_forall in Hh.
      apply Hh. by eapply list_elem_of_lookup_2.
    + cbn in Hi. eapply (IH i j); [lia|done..].
Qed.

Lemma insert_sorted_increasing (k : Z) (l : list Z) :
  k ∉ l → increasing l → increasing (insert_sorted k l).
Proof.
  intros Hk Hl. induction Hl as [|h t Hh Ht IH]; cbn [insert_sorted].
  - by repeat constructor.
  - apply not_elem_of_cons in Hk as [Hne Hk].
    destruct (k <=? h)%Z eqn:Hle.
    + apply Z.leb_le in Hle. constructor; [|by constructor].
      constructor; [lia|]. eapply Forall_impl; [exact Hh|]. intros x Hx. cbn in Hx. lia.
    + apply Z.leb_gt in Hle. constructor; [|by apply IH].
      apply Forall_forall. intros x Hx. apply insert_sorted_elem in Hx as [->|Hx]; [lia|].
      rewrite Forall_forall in Hh. by apply Hh.
Qed.

Lemma py_sorted_increasing (l : list Z) : NoDup l → increasing (py_sorted l).
Proof.
  induction 1 as [|h t Hh Ht IH]; [constructor|].
  cbn [py_sorted foldr]. fold (py_sorted t).
  apply insert_sorted_increasing; [|done]. by rewrite py_sorted_elem.
Qed.

Lemma dict_keys_elem {V} (d : gmap Z V) (k : Z) : k ∈ dict_keys d ↔ is_Some (d !! k).
Proof.
  unfold dict_keys. rewrite list_elem_of_fmap. split.
  - intros ([k' v] & -> & Hin). apply elem_of_map_to_list in Hin. by eexists.
  - intros [v Hv]. exists (k, v). split; [done|]. by apply elem_of_map_to_list.
Qed.

Lemma dict_keys_NoDup {V} (d : gmap Z V) : NoDup (dict_keys d).
Proof. apply NoDup_fst_map_to_list. Qed.

Lemma mapM_getitemZ (d : gmap Z Q) (keys : list Z) :
  Forall (λ k, is_Some (d !! k)) keys →
  ∃ vs, mapM (M := pyres) (λ k, getitemZ d k) keys = Val vs ∧
        Forall2 (λ k v, d !! k = Some v) keys vs.
Proof.
  induction keys as [|k keys IH]; intros Hall.
  - exists []. by split; [|constructor].
  - apply Forall_cons_1 in Hall as [[v Hv] Hall].
    destruct (IH Hall) as (vs & Hvs & Hall2).
    exists (v :: vs). split; [|by constructor].
    change (mapM (M := pyres) (λ k, getitemZ d k) (k :: keys))
      with (y ← getitemZ d k; r ← mapM (M := pyres) (λ k, getitemZ d k) keys; mret (y :: r)).
    assert (Hg : getitemZ d k = Val v) by (unfold getitemZ; by rewrite Hv).
    by rewrite Hg, Hvs.
Qed.

Lemma mapM_getitemZ_missing (d : gmap Z Q) (keys : list Z) :
  Exists (λ k, d !! k = None) keys →
  ∃ k, mapM (M := pyres) (λ k, getitemZ d k) keys = Exc (KeyErrorZ k) ∧
       k ∈ keys ∧ d !! k = None.
Proof.
  induction keys as [|k keys IH]; intros Hex.
  - by apply Exists_nil in Hex.
  - change (mapM (M := pyres) (λ k, getitemZ d k) (k :: keys))
      with (y ← getitemZ d k; r ← mapM (M := pyres) (λ k, getitemZ d k) keys; mret (y :: r)).
    destruct (d !! k) as [v|] eqn:Hk.
    + assert (Hg : getitemZ d k = Val v) by (unfold getitemZ; by rewrite Hk).
      apply Exists_cons in Hex as [Hex|Hex]; [congruence|].
      destruct (IH Hex) as (k' & Hrun & Hin & Hnone).
      exists k'. rewrite Hg. cbn [mbind pyres_bind]. rewrite Hrun.
      split; [done|]. split; [by right|done].
    + assert (Hg : getitemZ d k = Exc (KeyErrorZ k)) by (unfold getitemZ; by rewrite Hk).
      exists k. rewrite Hg. split; [done|]. split; [left|done].
Qed.

Lemma sorted_values (d : gmap Z Q) :
  ∃ vs, mapM (M := pyres) (λ k, getitemZ d k) (py_sorted (dict_keys d)) = Val vs ∧
        values_by_key d vs.
Proof.
  destruct (mapM_getitemZ d (py_sorted (dict_keys d))) as (vs & Hrun & Hall).
  { apply Forall_forall. intros k Hk. by apply py_sorted_elem, dict_keys_elem in Hk. }
  exists vs. split; [exact Hrun|]. exists (py_sorted (dict_keys d)).
  split; [apply increasing_ascending, py_sorted_increasing, dict_keys_NoDup|].
  split; [intros k; by rewrite py_sorted_elem, dict_keys_elem|done].
Qed.

(** The rate and bandwidth lists.  [getDdcRateList] and [getDdcBwList]
    never raise: they return the values of the dictionary that
    [getDdcRateSet] (or [getDdcBwSet]) gives, one for each key, ordered by
    increasing key - whatever the order in which the dictionary was
    written, and also when a subclass overrides that method. *)
Theorem rate_and_bandwidth_lists_follow_the_index (cls : _ddc'.Class)
    (getDdcRateSet getDdcBwSet : option Z → gmap Z Q) (index : option Z) :
  (∃ rates, _ddc'.getDdcRateList getDdcRateSet index = Val rates ∧
            values_by_key (getDdcRateSet index) rates) ∧
  (∃ bws, _ddc'.getDdcBwList getDdcBwSet index = Val bws ∧
          values_by_key (getDdcBwSet index) bws).
Proof. split; apply sorted_values. Qed.

(** [getDdcRates] reads the class attribute.  On a class that does not
    override [getDdcRateSet], [getDdcRates] and [getDdcRateList] return the
    same list.  [getDdcRates] takes the keys from [getDdcRateSet(index)] and
    the values from the class attribute [rateSet]: when an overriding
    [getDdcRateSet] returns a key that [rateSet] lacks, [getDdcRates] raises
    [KeyError] for such a key, where [getDdcRateList] returns a list. *)
Theorem getDdcRates_reads_the_class_attribute (cls : _ddc'.Class) (index : option Z) :
  _ddc'.getDdcRates cls (_ddc'.getDdcRateSet cls) index
  = _ddc'.getDdcRateList (_ddc'.getDdcRateSet cls) index ∧
  ∀ getDdcRateSet : option Z → gmap Z Q,
    (∃ k, is_Some (getDdcRateSet index !! k) ∧ _ddc'.rateSet cls !! k = None) →
    ∃ k, _ddc'.getDdcRates cls getDdcRateSet index = Exc (KeyErrorZ k) ∧
         is_Some (getDdcRateSet index !! k) ∧ _ddc'.rateSet cls !! k = None.
Proof.
  split; [reflexivity|]. intros g (k & Hk & Hnone).
  destruct (mapM_getitemZ_missing (_ddc'.rateSet cls) (py_sorted (dict_keys (g index))))
    as (k' & Hrun & Hin & Hnone').
  { apply Exists_exists. exists k. split; [|done]. by apply py_sorted_elem, dict_keys_elem. }
  exists k'. split; [exact Hrun|]. split; [|done].
  by apply py_sorted_elem, dict_keys_elem in Hin.
Qed.

(** The data formats.  [getDdcDataFormat] returns a dictionary with
    exactly the keys of the rate set: a rate index has the format that the
    class attribute [dataFormat] gives it, or ["iq"] when it gives none, and
    a format that [dataFormat] gives to a key outside the rate set is left
    out. *)
Theorem data_format_follows_the_rate_set (cls : _ddc'.Class)
    (getDdcRateSet : option Z → gmap Z Q) (i : Z) :
  _ddc'.getDdcDataFormat cls getDdcRateSet !! i
  = match getDdcRateSet None !! i with
    | Some _ => Some (default "iq" (_ddc'.dataFormat cls !! i))
    | None => None
    end.
Proof.
  unfold _ddc'.getDdcDataFormat.
  destruct (getDdcRateSet None !! i) as [r|] eqn:Hi.
  - apply elem_of_list_to_map.
    + rewrite <- list_fmap_compose.
      rewrite (list_fmap_ext _ id (dict_keys (getDdcRateSet None))) by done.
      rewrite list_fmap_id. apply dict_keys_NoDup.
    + apply list_elem_of_fmap. exists i. split; [done|]. apply dict_keys_elem. by eexists.
  - apply not_elem_of_list_to_map. rewrite <- list_fmap_compose.
    rewrite (list_fmap_ext _ id (dict_keys (getDdcRateSet None))) by done.
    rewrite list_fmap_id, dict_keys_elem, Hi. by intros [].
Qed.

End RateMethods.

(** The hypothesis of the second part of the theorem holds for a rate set
    with an index that the class attribute lacks. *)
Lemma getDdcRates_reads_the_class_attribute_witness :
  ∃ k, _ddc'.getDdcRates ndr318a_wbddc one_more_rate None = Exc (KeyErrorZ k) ∧
       is_Some (one_more_rate None !! k) ∧ _ddc'.rateSet ndr318a_wbddc !! k = None.
Proof.
  apply (proj2 (getDdcRates_reads_the_class_attribute ndr318a_wbddc None) one_more_rate).
  exists 6%Z. split; [by eexists | reflexivity].
Defined.

(** ** Groups *)

Section Groups.
Variable E : groups.Env.
Variable kind : groups.Kind.

Lemma same_group_refl (me : groups.Obj) : same_group me me.
Proof. by repeat split. Qed.

Lemma same_group_trans (a b c : groups.Obj) : same_group a b → same_group b c → same_group a c.
Proof. intros (?&?&?) (?&?&?). repeat split; congruence. Qed.

Lemma member_command_same (c : CmdClass) (me me' : groups.Obj) (l : list Z) (j : Z) :
  same_group me me' → member_command kind c me' l j = member_command kind c me l j.
Proof. intros (_ & Hi & Hcb). unfold member_command. by rewrite Hi, Hcb. Qed.

Lemma member_query_same (c : CmdClass) (me me' : groups.Obj) (j : Z) :
  same_group me me' → member_query kind c me' j = member_query kind c me j.
Proof. intros (_ & Hi & Hcb). unfold member_query. by rewrite Hi, Hcb. Qed.

Lemma group_who_same (me me' : groups.Obj) : same_group me me' → groups.who me' = groups.who me.
Proof. intros (Hn & Hi & _). unfold groups.who. by rewrite Hn, Hi. Qed.

(** The loop of [_setConfiguration] over the member indices, for a member
    list: one command per index, in order. *)
Lemma set_members_run (c : CmdClass) (l : list Z) :
  ∀ (indices : list Z) (ret : bool) (s : groups.State),
    ∃ s' calls,
      groups.set_members E kind c (VList l) indices ret s
      = Ok (ret && forallb group_call_ok calls) s' ∧
      groups.trace s' = groups.trace s ++ calls ∧
      Forall2 (λ j ev, group_call (groups.obj s) (member_command kind c (groups.obj s) l j) ev)
        indices calls ∧
      same_group (groups.obj s) (groups.obj s') ∧
      groups.configuration (groups.obj s') = groups.configuration (groups.obj s).
Proof.
  induction indices as [|j rest IH]; intros ret s.
  - exists s, []. cbn. rewrite andb_true_r, app_nil_r.
    repeat split; first [done | constructor].
  - cbn [groups.set_members]. unfold mbind at 1 2 3, M_bind at 1 2 3, lift, gets.
    cbn [_tx.contains]. unfold groups.issue at 1.
    set (inv := groups.mkInv _ _ _ _ _). set (o := groups.hw E (groups.trace s) inv).
    set (s1 := groups.mkState _ _).
    destruct (IH (ret && send_ret o && success o) s1)
      as (s' & calls & Hrun & Htr & Hcalls & Hid & Hcfg).
    assert (Hid1 : same_group (groups.obj s) (groups.obj s1)) by (by repeat split).
    exists s', (groups.EvCall (groups.who (groups.obj s)) inv o :: calls).
    split; [|split; [|split; [|split]]].
    + rewrite Hrun. cbn [forallb group_call_ok]. unfold cmd_ok.
      by rewrite !andb_assoc.
    + rewrite Htr. subst s1. cbn [groups.trace]. by rewrite <- app_assoc.
    + constructor; [by exists o|].
      eapply Forall2_impl; [exact Hcalls|]. intros k ev [o' ->].
      exists o'. by rewrite (group_who_same _ _ Hid1), (member_command_same c _ _ l k Hid1).
    + by eapply same_group_trans.
    + by rewrite Hcfg.
Qed.

(** Setting the members of a group.  With a member command defined and a
    request whose member list is [None], an integer or a list, and without
    [ENABLE] in the request, [_setConfiguration] sends one command for each
    index of [range(groupMemberIndexBase, groupMemberIndexBase +
    numGroupMembers)], in that order, carrying 1 when the index is in the
    list and 0 otherwise; it returns whether all of them succeeded; and when
    they did, the mirrored member list becomes the list of the request as it
    is - members outside the range included, for which no command was sent -
    and otherwise the mirrored map is unchanged. *)
Theorem group_members_are_set_one_by_one (cls : groups.Class) (c : CmdClass)
    (confDict : gmap groups.AnyKey Value) (v : Value) (l : list Z) (s : groups.State) :
  groups.groupMemberCmd cls = Some c →
  confDict !! groups.members_key kind = Some v →
  groups.members_of_request v = VList l →
  confDict !! inl ENABLE = None →
  ∃ s' calls,
    groups._setConfiguration E kind cls confDict s = Ok (forallb group_call_ok calls) s' ∧
    groups.trace s' = groups.trace s ++ calls ∧
    Forall2 (λ j ev, group_call (groups.obj s) (member_command kind c (groups.obj s) l j) ev)
      (seqZ (groups.groupMemberIndexBase cls) (groups.numGroupMembers cls)) calls ∧
    same_group (groups.obj s) (groups.obj s') ∧
    groups.configuration (groups.obj s')
    = if forallb group_call_ok calls
      then <[ groups.members_key kind := VList l ]> (groups.configuration (groups.obj s))
      else groups.configuration (groups.obj s).
Proof.
  intros Hc Hv Hl He. unfold groups._setConfiguration. rewrite Hc, Hv, He, Hl.
  destruct (set_members_run c l
              (seqZ (groups.groupMemberIndexBase cls) (groups.numGroupMembers cls)) true s)
    as (s' & calls & Hrun & Htr & Hcalls & Hid & Hcfg).
  unfold mbind, M_bind. rewrite Hrun. cbn [andb].
  destruct (forallb group_call_ok calls) eqn:Hall.
  - eexists _, calls. rewrite Hall. split; [reflexivity|].
    cbn [groups.trace groups.obj groups.configuration].
    split; [exact Htr|]. split; [exact Hcalls|]. split; [exact Hid|]. by rewrite Hcfg.
  - exists s', calls. rewrite Hall. split; [reflexivity|].
    split; [exact Htr|]. split; [exact Hcalls|]. split; [exact Hid|]. exact Hcfg.
Qed.

Lemma enabled_members_cons (j : Z) (ev : groups.Event) (indices : list Z)
    (calls : list groups.Event) :
  enabled_members (j :: indices) (ev :: calls)
  = (if reports_enabled ev then [j] else []) ++ enabled_members indices calls.
Proof.
  unfold enabled_members. cbn [zip zip_with].
  destruct (reports_enabled ev) eqn:Hev.
  - by rewrite filter_cons_True by done.
  - rewrite filter_cons_False; [done|]. cbn. by rewrite Hev.
Qed.

(** The loop of [_queryConfiguration] over the member indices: one query
    per index, in order; an index joins the list when its response parses
    and reports it enabled. *)
Lemma query_members_run (c : CmdClass) :
  ∀ (indices : list Z) (members : list Z) (s : groups.State),
    ∃ s' calls,
      groups.query_members E kind c indices members s
      = Ok (members ++ enabled_members indices calls) s' ∧
      groups.trace s' = groups.trace s ++ calls ∧
      Forall2 (λ j ev, group_call (groups.obj s) (member_query kind c (groups.obj s) j) ev)
        indices calls ∧
      same_group (groups.obj s) (groups.obj s') ∧
      groups.configuration (groups.obj s') = groups.configuration (groups.obj s).
Proof.
  induction indices as [|j rest IH]; intros members s.
  - exists s, []. cbn. rewrite !app_nil_r.
    repeat split; first [done | constructor].
  - cbn [groups.query_members]. unfold mbind at 1 2, M_bind at 1 2, gets.
    unfold groups.issue at 1.
    set (inv := groups.mkInv _ _ _ _ _). set (o := groups.hw E (groups.trace s) inv).
    set (s1 := groups.mkState _ _).
    set (members' := match rspInfo o with Some _ => _ | None => _ end).
    destruct (IH members' s1) as (s' & calls & Hrun & Htr & Hcalls & Hid & Hcfg).
    assert (Hid1 : same_group (groups.obj s) (groups.obj s1)) by (by repeat split).
    exists s', (groups.EvCall (groups.who (groups.obj s)) inv o :: calls).
    split; [|split; [|split; [|split]]].
    + rewrite Hrun, enabled_members_cons. f_equal. rewrite app_assoc. f_equal.
      subst members'. cbn [reports_enabled].
      destruct (rspInfo o) as [rsp|]; [|by rewrite app_nil_r].
      destruct (groups.truthy _); [done|by rewrite app_nil_r].
    + rewrite Htr. subst s1. cbn [groups.trace]. by rewrite <- app_assoc.
    + constructor; [by exists o|].
      eapply Forall2_impl; [exact Hcalls|]. intros k ev [o' ->].
      exists o'. by rewrite (group_who_same _ _ Hid1), (member_query_same c _ _ k Hid1).
    + by eapply same_group_trans.
    + by rewrite Hcfg.
Qed.

(** Querying the members of a group.  With a member command defined,
    [_queryConfiguration] returns; it first sends one query for each index
    of [range(groupMemberIndexBase, groupMemberIndexBase +
    numGroupMembers)], in that order, then at most the one query of the
    enable command; and the mirrored member list becomes the list, in
    increasing order, of the indices whose response parsed and held a true
    value under [ENABLE] - whatever the list held before. *)
Theorem group_query_collects_enabled_members (cls : groups.Class) (c : CmdClass)
    (s : groups.State) :
  groups.groupMemberCmd cls = Some c →
  let indices := seqZ (groups.groupMemberIndexBase cls) (groups.numGroupMembers cls) in
  ∃ s' calls rest,
    groups._queryConfiguration E kind cls s = Ok tt s' ∧
    groups.trace s' = groups.trace s ++ calls ++ rest ∧
    Forall2 (λ j ev, group_call (groups.obj s) (member_query kind c (groups.obj s) j) ev)
      indices calls ∧
    (length rest ≤ 1)%nat ∧
    same_group (groups.obj s) (groups.obj s') ∧
    groups.configuration (groups.obj s') !! groups.members_key kind
    = Some (VList (enabled_members indices calls)).
Proof.
  intros Hc indices. subst indices. unfold groups._queryConfiguration. rewrite Hc.
  set (indices := seqZ _ _).
  unfold mbind at 1, M_bind at 1, modify at 1. cbv beta iota.
  set (s0 := groups.mkState _ _).
  unfold mbind at 1, M_bind at 1. unfold mbind at 1, M_bind at 1.
  destruct (query_members_run c indices [] s0) as (s1 & calls & Hrun & Htr & Hcalls & Hid & Hcfg).
  rewrite Hrun. cbn [app].
  assert (Hid0 : same_group (groups.obj s) (groups.obj s0)) by (by repeat split).
  assert (Hcalls' : Forall2 (λ j ev, group_call (groups.obj s)
                                       (member_query kind c (groups.obj s) j) ev)
                      indices calls).
  { eapply Forall2_impl; [exact Hcalls|]. intros k ev [o' ->].
    exists o'. by rewrite (group_who_same _ _ Hid0), (member_query_same c _ _ k Hid0). }
  unfold groups.assign at 1, modify at 1.
  set (s2 := groups.mkState _ _).
  assert (Hid2 : same_group (groups.obj s) (groups.obj s2)).
  { eapply same_group_trans; [exact Hid0|]. eapply same_group_trans; [exact Hid|].
    by repeat split. }
  assert (Hm2 : groups.configuration (groups.obj s2) !! groups.members_key kind
                = Some (VList (enabled_members indices calls))).
  { subst s2. cbn [groups.obj groups.configuration]. by rewrite lookup_insert_eq. }
  assert (Htr2 : groups.trace s2 = groups.trace s ++ calls).
  { subst s2. cbn [groups.trace]. by rewrite Htr. }
  clearbody s2. clear Hrun Htr Hcalls Hid Hcfg s1 Hid0. clearbody s0.
  destruct (groups.groupEnableCmd cls) as [ce|].
  - unfold mbind, M_bind, gets, groups.issue.
    set (inv := groups.mkInv _ _ _ _ _). set (o := groups.hw E (groups.trace s2) inv).
    destruct (rspInfo o) as [rsp|].
    + eexists _, calls, [_]. split; [reflexivity|].
      cbn [groups.trace groups.obj groups.configuration].
      split; [by rewrite Htr2, <- app_assoc|]. split; [exact Hcalls'|].
      split; [done|]. split; [exact Hid2|].
      rewrite lookup_insert_ne; [exact Hm2|]. by destruct kind.
    + eexists _, calls, [_]. split; [reflexivity|].
      cbn [groups.trace groups.obj groups.configuration].
      split; [by rewrite Htr2, <- app_assoc|]. split; [exact Hcalls'|].
      split; [done|]. split; [exact Hid2|]. exact Hm2.
  - exists s2, calls, []. split; [reflexivity|]. rewrite app_nil_r.
    split; [exact Htr2|]. split; [exact Hcalls'|]. split; [cbn; lia|].
    split; [exact Hid2|]. exact Hm2.
Qed.

(** A member list that is no container.  With a member command defined and
    at least one member slot, a request whose member list is a string or a
    float makes [_setConfiguration] raise [TypeError] at the first
    membership test, before any command is sent. *)
Theorem group_members_not_a_container (cls : groups.Class) (c : CmdClass)
    (confDict : gmap groups.AnyKey Value) (v : Value) (s : groups.State) :
  groups.groupMemberCmd cls = Some c →
  (0 < groups.numGroupMembers cls)%Z →
  confDict !! groups.members_key kind = Some v →
  (∃ t, v = VStr t) ∨ (∃ q, v = VFloat q) →
  groups._setConfiguration E kind cls confDict s = Raise TypeError s.
Proof.
  intros Hc Hn Hv Hshape. unfold groups._setConfiguration. rewrite Hc, Hv.
  unfold seqZ. destruct (Z.to_nat (groups.numGroupMembers cls)) as [|n] eqn:Hnat; [lia|].
  by destruct Hshape as [[t ->] | [q ->]].
Qed.

End Groups.

(** The hypotheses of the theorem hold for a group of four members and a
    request that lists member 2 and a member 9. *)
Lemma group_members_are_set_one_by_one_witness :
  let s := groups.mkState group1 [] in
  ∃ s' calls,
    groups._setConfiguration group_accepting groups.ddc_group four_members
      members_2_and_9 s = Ok (forallb group_call_ok calls) s' ∧
    groups.trace s' = groups.trace s ++ calls ∧
    Forall2 (λ j ev, group_call group1
                       (member_command groups.ddc_group "wbg" group1 [2%Z; 9%Z] j) ev)
      (seqZ 1 4) calls ∧
    same_group group1 (groups.obj s') ∧
    groups.configuration (groups.obj s')
    = if forallb group_call_ok calls
      then <[ groups.members_key groups.ddc_group := VList [2%Z; 9%Z] ]>
             (groups.configuration group1)
      else groups.configuration group1.
Proof.
  apply (group_members_are_set_one_by_one group_accepting groups.ddc_group four_members
           "wbg" members_2_and_9 (VList [2%Z; 9%Z]) [2%Z; 9%Z] (groups.mkState group1 []));
    reflexivity.
Defined.

(** The hypothesis of the theorem holds for a group of four members. *)
Lemma group_query_collects_enabled_members_witness :
  let s := groups.mkState group1 [] in
  ∃ s' calls rest,
    groups._queryConfiguration group_accepting groups.ddc_group four_members s = Ok tt s' ∧
    groups.trace s' = groups.trace s ++ calls ++ rest ∧
    Forall2 (λ j ev, group_call group1 (member_query groups.ddc_group "wbg" group1 j) ev)
      (seqZ 1 4) calls ∧
    (length rest ≤ 1)%nat ∧
    same_group group1 (groups.obj s') ∧
    groups.configuration (groups.obj s') !! groups.members_key groups.ddc_group
    = Some (VList (enabled_members (seqZ 1 4) calls)).
Proof.
  apply (group_query_collects_enabled_members group_accepting groups.ddc_group four_members
           "wbg" (groups.mkState group1 [])).
  reflexivity.
Defined.

(** The hypotheses of the theorem hold for a request that gives the
    members as text. *)
Lemma group_members_not_a_container_witness :
  groups._setConfiguration group_accepting groups.ddc_group four_members members_as_text
    (groups.mkState group1 [])
  = Raise TypeError (groups.mkState group1 []).
Proof.
  apply (group_members_not_a_container group_accepting groups.ddc_group four_members "wbg"
           members_as_text (VStr "1,2") (groups.mkState group1 [])).
  - reflexivity.
  - reflexivity.
  - reflexivity.
  - left. by eexists.
Defined.
